(** * Omni-Dromenon engine: generator, scheduler, protocol bridge, consensus

    A shallow embedding of the four server modules
    ([generator.js], [scheduler.js], [osc-bridge.js], [consensus.js])
    and the properties checked against them.

    Number model.  JavaScript numbers are IEEE doubles.  The generator works
    on integers and is modelled over [Z], with the 32-bit wrap-around of the
    bit operators written out.  The scheduler is modelled over the doubles
    themselves (the binary64 numbers of [Floats], with their NaN, infinities,
    signed zeros and rounding), its property lookups go through
    [Object.prototype], and [Array.prototype.sort] is a parameter bound by
    what ECMAScript fixes of it.  The consensus engine is modelled over the
    reals [R] (it calls [Math.exp]) extended with a NaN, which the code
    itself produces when it does arithmetic on a missing property; the
    rounding, overflow and underflow of its doubles are outside that model,
    and the properties stated of the engine are those that do not depend on
    them: they relate the loops of the code to the formula under the same
    arithmetic, or concern the tables, the overrides and the clock. *)

From Stdlib Require Import ZArith List String Ascii Bool Lia DecimalString.
From Stdlib Require Import QArith Qround.
From Stdlib Require Import Reals Psatz.
From Stdlib Require Floats.
From Stdlib Require Import Sorted Permutation.
Import ListNotations.

(** Outcome of a call that may throw. *)
Inductive result (A : Type) : Type :=
| Ok (a : A)
| Throw (msg : string).
Arguments Ok {A} a.
Arguments Throw {A} msg.

(* ================================================================== *)
(** ** Numbers *)
(* ================================================================== *)

Module Number.
Import Floats.

(** *** Doubles as reals *)

(** [2^e] for an integer exponent. *)
Definition pow2 (e : Z) : R := powerRZ 2 e.

(** A magnitude with the sign [s]. *)
Definition sgn (s : bool) (v : R) : R := (if s then - v else v)%R.

(** The real a finite double stands for (0 for the others). *)
Definition SF2R (f : spec_float) : R :=
  match f with
  | S754_finite s m e => (IZR (cond_Zopp s (Zpos m)) * pow2 e)%R
  | _ => 0%R
  end.

Definition B2R (x : float) : R := SF2R (Prim2SF x).

(** A zero or a finite double: neither NaN nor an infinity. *)
Definition Fin (x : float) : Prop :=
  match Prim2SF x with
  | S754_zero _ | S754_finite _ _ _ => True
  | _ => False
  end.

(** The exponent of the format for a number of [e] binary digits. *)
Definition fexp64 (e : Z) : Z := fexp prec emax e.

(** What one rounding to the nearest double makes of the exact value [P]:
    a relative error of [2^-53], or an absolute one of [2^-1075] below the
    normal range, and the sign kept. *)
Definition rounded (P v : R) : Prop :=
  (Rabs (v - P) <= pow2 (-53) * Rabs P + pow2 (-1075)
   /\ (pow2 (-1022) <= Rabs P -> Rabs (v - P) <= pow2 (-53) * Rabs P)
   /\ (0 <= P -> 0 <= v)
   /\ (P <= 0 -> v <= 0))%R.

(** Zero, a positive finite double or [+Infinity]: the doubles [x] with
    [0 <= x]. *)
Definition nonneg (f : spec_float) : Prop :=
  match f with
  | S754_zero _ | S754_finite false _ _ | S754_infinity false => True
  | _ => False
  end.

(** *** The order of the comparisons *)

(** Where a double that is not NaN stands: below, among or above the
    reals. *)
Definition rank (f : spec_float) : Z :=
  match f with
  | S754_infinity true => (-1)%Z
  | S754_infinity false => 1%Z
  | _ => 0%Z
  end.

Definition notNaN (f : spec_float) : Prop :=
  match f with S754_nan => False | _ => True end.

Definition below (a b : spec_float) : Prop :=
  (rank a < rank b)%Z \/ (rank a = rank b /\ (SF2R a < SF2R b)%R).

Definition same (a b : spec_float) : Prop :=
  rank a = rank b /\ SF2R a = SF2R b.

Definition SFzero : spec_float := S754_zero false.

(** *** Shift records

    What a shift record of the rounding procedure says of the real [y] it
    stands for: its integer part and the place of the rest against a
    half. *)
Definition located (m : Z) (r s : bool) (y : R) : Prop :=
  (0 <= m)%Z /\
  match r, s with
  | false, false => y = IZR m
  | false, true => (IZR m < y < IZR m + / 2)%R
  | true, false => y = (IZR m + / 2)%R
  | true, true => (IZR m + / 2 < y < IZR m + 1)%R
  end.

Definition rep (mrs : shr_record) (y : R) : Prop :=
  located (shr_m mrs) (shr_r mrs) (shr_s mrs) y.

(** *** Whole numbers, Math.round and Math.floor *)

(** The double nearest to an integer (the integer itself up to [2^53]). *)
Definition ofZ (z : Z) : float :=
  SF2Prim (binary_normalize prec emax z 0 false).

(** [Math.round(x)]: [x] itself when it is not finite or is a whole number;
    otherwise the whole number nearest to [x], the upper one of two equally
    near; a zero result has the sign of [x]. *)
Definition Math_round (x : float) : float :=
  match Prim2SF x with
  | S754_finite s m e =>
      if (0 <=? e)%Z then x
      else
        let z := cond_Zopp s (Zpos m) in
        let n := Z.shiftr (2 * z + 2 ^ (- e)) (- e + 1) in
        if (n =? 0)%Z then (if s then neg_zero else zero) else ofZ n
  | _ => x
  end.

(** [Math.floor(x)]. *)
Definition Math_floor (x : float) : float :=
  match Prim2SF x with
  | S754_finite s m e =>
      if (0 <=? e)%Z then x
      else ofZ (Z.shiftr (cond_Zopp s (Zpos m)) (- e))
  | _ => x
  end.

End Number.

(* ================================================================== *)
(** ** generator.js *)
(* ================================================================== *)

Module Generator.
Local Open Scope Z_scope.

(** *** 32-bit integer operators *)

(** [x | 0]: ToInt32 of an integer. *)
Definition toInt32 (x : Z) : Z := (x + 2 ^ 31) mod 2 ^ 32 - 2 ^ 31.

(** [x >>> 0]: ToUint32 of an integer. *)
Definition toUint32 (x : Z) : Z := x mod 2 ^ 32.

(** [Math.imul(a, b)]. *)
Definition imul (a b : Z) : Z := toInt32 (toInt32 a * toInt32 b).

(** [a >>> n]. *)
Definition ushr (a n : Z) : Z := Z.shiftr (toUint32 a) n.

(** [a ^ b] and [a | b]. *)
Definition bxor (a b : Z) : Z := Z.lxor (toInt32 a) (toInt32 b).
Definition bor (a b : Z) : Z := Z.lor (toInt32 a) (toInt32 b).

(** *** seededRandom (mulberry32)

    The closure returned by [seededRandom] owns one variable [s]; a generator
    is modelled by the current value of that variable, and one call of the
    closure by [next], which returns the float produced and the new [s]. *)

Definition seededRandom (seed : Z) : Z := toInt32 seed.

Definition next (s : Z) : Q * Z :=
  let s := toInt32 (s + 1831565813) in                     (* 0x6d2b79f5 *)
  let t := imul (bxor s (ushr s 15)) (bor 1 s) in
  let t := bxor (t + imul (bxor t (ushr t 7)) (bor 61 t)) t in
  (Qmake (toUint32 (bxor t (ushr t 14))) 4294967296, s).

(** The first [n] values produced by a generator. *)
Fixpoint draws (s : Z) (n : nat) : list Q :=
  match n with
  | O => []
  | S n' => let '(v, s') := next s in v :: draws s' n'
  end.

(** The value produced by the call number [k] (counting from 0). *)
Fixpoint output (s : Z) (k : nat) : Q :=
  match k with
  | O => fst (next s)
  | S k' => output (snd (next s)) k'
  end.

(** *** clampMidi, transpose, applyRecursion

    Notes are integers, on which [Math.round] is the identity. *)

Definition clampMidi (note : Z) : Z := Z.max 0 (Z.min 127 note).

Definition transpose (sequence : list Z) (semitones : Z) : list Z :=
  map (fun note => clampMidi (note + semitones)) sequence.

(** The three notes pushed for position [i] of [current]. *)
Definition motif (current : list Z) (i : nat) : list Z :=
  let note := nth i current 0 in
  let next := nth (Nat.modulo (i + 1) (List.length current)) current 0 in
  let interval := next - note in
  let midNote := clampMidi (note + interval / 2) in
  [note; midNote; note].

(** One pass of the outer loop: the inner loop over [i]. *)
Definition expand (current : list Z) : list Z :=
  flat_map (motif current) (seq 0 (List.length current)).

Fixpoint passes (d : nat) (current : list Z) : list Z :=
  match d with
  | O => current
  | S d' => passes d' (expand current)
  end.

Definition applyRecursion (sequence : list Z) (depth : Z) : result (list Z) :=
  if depth <? 0 then Throw "Recursion depth must be >= 0"
  else if depth =? 0 then Ok sequence
  else Ok (passes (Z.to_nat depth) sequence).

Definition midi (n : Z) : Prop := 0 <= n <= 127.

(** *** Scales *)

(** Scale interval maps: semitone offsets from the root. *)
Definition SCALES : list (string * list Z) :=
  [ ("pentatonic", [0; 2; 4; 7; 9]);
    ("minor_pentatonic", [0; 3; 5; 7; 10]);
    ("chromatic", [0; 1; 2; 3; 4; 5; 6; 7; 8; 9; 10; 11]);
    ("whole_tone", [0; 2; 4; 6; 8; 10]);
    ("major", [0; 2; 4; 5; 7; 9; 11]);
    ("minor", [0; 2; 3; 5; 7; 8; 10]);
    ("dorian", [0; 2; 3; 5; 7; 9; 10]);
    ("mixolydian", [0; 2; 4; 5; 7; 9; 10]);
    ("blues", [0; 3; 5; 6; 7; 10]);
    ("harmonic_minor", [0; 2; 3; 5; 7; 8; 11]) ]%string.

Fixpoint assoc {A : Type} (k : string) (o : list (string * A)) : option A :=
  match o with
  | [] => None
  | (k', v) :: o' => if String.eqb k k' then Some v else assoc k o'
  end.

Definition getScaleNames : list string := map fst SCALES.

Definition getScale (scaleName : string) : result (list Z) :=
  match assoc scaleName SCALES with
  | None => Throw "Unknown scale"
  | Some intervals => Ok intervals
  end.

(** *** generateSequence *)

(** The two nested loops that build [notePool]. *)
Definition notePool (intervals : list Z) (rootNote octaveRange : Z) : list Z :=
  flat_map
    (fun octave =>
       filter (fun note => (0 <=? note) && (note <=? 127))
              (map (fun interval => rootNote + octave * 12 + interval)
                   intervals))
    (map Z.of_nat (seq 0 (Z.to_nat octaveRange))).

(** [notePool[Math.floor(rand() * notePool.length)]] for the value [v] that
    [rand()] returned. *)
Definition pick (pool : list Z) (v : Q) : Z :=
  nth (Z.to_nat (Qfloor (v * inject_Z (Z.of_nat (List.length pool))))) pool 0.

Definition generateSequence (length : Z) (scaleName : string)
    (seed rootNote octaveRange : option Z) : result (list Z) :=
  if (length <? 1) || (256 <? length) then Throw "Length must be 1-256"
  else
    let seed := match seed with Some x => x | None => 42 end in
    let rootNote := match rootNote with Some x => x | None => 60 end in
    let octaveRange := match octaveRange with Some x => x | None => 2 end in
    match getScale scaleName with
    | Throw m => Throw m
    | Ok intervals =>
        let rand := seededRandom seed in
        let pool := notePool intervals rootNote octaveRange in
        if (List.length pool =? 0)%nat
        then Throw "No valid MIDI notes in range for given parameters"
        else Ok (map (pick pool) (draws rand (Z.to_nat length)))
    end.

(** *** midiToNoteName *)

Definition noteNames : list string :=
  ["C"; "C#"; "D"; "D#"; "E"; "F"; "F#"; "G"; "G#"; "A"; "A#"; "B"]%string.

(** A template literal prints an integer in decimal and a missing array
    element as [undefined]; [%] is the remainder with the sign of the
    dividend. *)
Definition midiToNoteName (midi : Z) : string :=
  let octave := midi / 12 - 1 in
  let index := Z.rem midi 12 in
  let name :=
    if index <? 0 then "undefined"%string
    else nth (Z.to_nat index) noteNames "undefined"%string in
  (name ++ NilZero.string_of_int (Z.to_int octave))%string.

(** The MIDI notes, [0] to [127]. *)
Definition midiNotes : list Z := map Z.of_nat (seq 0 128).

End Generator.

(* ================================================================== *)
(** ** scheduler.js *)
(* ================================================================== *)

Module Scheduler.
Import Floats.
Import Number.
Local Open Scope string_scope.
Local Open Scope float_scope.

(** Subdivision multipliers relative to a single beat. *)
Definition SUBDIVISIONS : list (string * float) :=
  [ ("whole", 4); ("half", 2); ("quarter", 1); ("eighth", 0.5);
    ("sixteenth", 0.25); ("triplet_quarter", 2 / 3);
    ("triplet_eighth", 1 / 3); ("dotted_quarter", 1.5);
    ("dotted_eighth", 0.75) ].

(** The property names an object literal inherits from [Object.prototype]:
    eleven functions and the accessor [__proto__]. *)
Definition inherited : list string :=
  [ "constructor"; "__defineGetter__"; "__defineSetter__"; "hasOwnProperty";
    "__lookupGetter__"; "__lookupSetter__"; "isPrototypeOf";
    "propertyIsEnumerable"; "toString"; "valueOf"; "__proto__";
    "toLocaleString" ].

Fixpoint lookup {A : Type} (k : string) (o : list (string * A)) : option A :=
  match o with
  | [] => None
  | (k', v) :: o' => if String.eqb k k' then Some v else lookup k o'
  end.

(** What [SUBDIVISIONS[name]] evaluates to: the multiplier of an own key, a
    member found on the prototype, or [undefined]. *)
Inductive member : Type :=
| Own (multiplier : float)
| Inherited
| Undefined.

Definition property (name : string) : member :=
  match lookup name SUBDIVISIONS with
  | Some multiplier => Own multiplier
  | None =>
      if existsb (String.eqb name) inherited then Inherited else Undefined
  end.

(** [ToNumber] of the operand of [*]: a function, and the prototype
    object, convert to NaN. *)
Definition toNumber (v : member) : float :=
  match v with
  | Own multiplier => multiplier
  | Inherited | Undefined => nan
  end.

Record ScheduledEvent : Type := mkEvent {
  note : float;
  time : float;
  duration : float;
  velocity : float
}.

(** The fields of a [Scheduler] instance ([_startTime] is written once in
    the constructor and never read, so it is left out).  [_nextBeatIndex]
    counts calls; it is kept as the integer it is (whole numbers are exact
    in a double up to [2^53]). *)
Record Scheduler : Type := mkScheduler {
  _bpm : float;
  _beatDurationMs : float;
  _scheduledNotes : list ScheduledEvent;
  _nextBeatIndex : Z
}.

(** [subdivision || 'quarter']: an absent or empty name means a quarter. *)
Definition orQuarter (subdivision : option string) : string :=
  match subdivision with
  | None => "quarter"
  | Some s => if String.eqb s "" then "quarter" else s
  end.

(** *** BPM control *)

(** The arguments are numbers, so [typeof bpm !== 'number'] is false. *)
Definition setBPM (s : Scheduler) (bpm : float) : result Scheduler :=
  if (bpm <? 20) || (300 <? bpm)
  then Throw "BPM must be between 20 and 300"
  else Ok (mkScheduler bpm ((60 / bpm) * 1000)
                       (_scheduledNotes s) (_nextBeatIndex s)).

Definition init : Scheduler := mkScheduler 120 500 [] 0.

Definition new (bpm : option float) : result Scheduler :=
  match bpm with
  | None => Ok init
  | Some b => setBPM init b
  end.

Definition getBPM (s : Scheduler) : float := _bpm s.
Definition getBeatDuration (s : Scheduler) : float := _beatDurationMs s.

Definition getSubdivisionDuration (s : Scheduler) (subdivision : string)
  : result float :=
  let multiplier := property subdivision in
  match multiplier with
  | Undefined => Throw "Unknown subdivision"
  | _ => Ok (_beatDurationMs s * toNumber multiplier)
  end.

(** *** Sorting

    The comparator handed to [Array.prototype.sort]. *)
Definition byTime (a b : ScheduledEvent) : float := time a - time b.

(** The stable sort by that comparator: an element goes behind the
    elements the comparator puts strictly before it, and before the
    others. *)
Fixpoint insert (e : ScheduledEvent) (l : list ScheduledEvent)
  : list ScheduledEvent :=
  match l with
  | [] => [e]
  | x :: xs => if 0 <? byTime e x then x :: insert e xs else e :: x :: xs
  end.

Definition sortByTime (l : list ScheduledEvent) : list ScheduledEvent :=
  fold_right insert [] l.

(** No time of the list is NaN. *)
Definition numbers (l : list ScheduledEvent) : Prop :=
  Forall (fun e => is_nan (time e) = false) l.

(** What ECMAScript fixes of [l.sort(byTime)]: the elements are
    rearranged, and when the comparator is consistent on them, which it is
    when no time is NaN, the result is the stable sort.  With a NaN time
    the order is left to the implementation. *)
Definition conforming (sort : list ScheduledEvent -> list ScheduledEvent)
  : Prop :=
  (forall l, Permutation l (sort l))
  /\ (forall l, numbers l -> sort l = sortByTime l).

Section Runtime.

(** [Array.prototype.sort] with the comparator [byTime], as the runtime
    provides it. *)
Variable sort : list ScheduledEvent -> list ScheduledEvent.

(** *** Note scheduling

    [note] and [time] are numbers, NaN included, so both [typeof] tests
    are false. *)

Definition scheduleNote (s : Scheduler) (note time : float)
    (duration velocity : option float)
  : result (Scheduler * ScheduledEvent) :=
  if (note <? 0) || (127 <? note) then Throw "Invalid MIDI note"
  else if time <? 0 then Throw "Time must be a non-negative number"
  else
    let event :=
      mkEvent note time
              (match duration with Some d => d | None => _beatDurationMs s end)
              (match velocity with Some v => v | None => 100 end) in
    Ok (mkScheduler (_bpm s) (_beatDurationMs s)
                    (sort (_scheduledNotes s ++ [event])%list)
                    (_nextBeatIndex s),
        event).

Definition scheduleAtBeat (s : Scheduler) (note beat : float)
    (subdivision : option string) (velocity : option float)
  : result (Scheduler * ScheduledEvent) :=
  let time := (beat - 1) * _beatDurationMs s in
  let sub := orQuarter subdivision in
  match getSubdivisionDuration s sub with
  | Throw m => Throw m
  | Ok duration => scheduleNote s note time (Some duration) velocity
  end.

(** *** Beat navigation *)

Definition getNextBeat (s : Scheduler) : float * Scheduler :=
  (ofZ (_nextBeatIndex s) * _beatDurationMs s,
   mkScheduler (_bpm s) (_beatDurationMs s) (_scheduledNotes s)
               (_nextBeatIndex s + 1)).

Definition resetBeatCounter (s : Scheduler) : Scheduler :=
  mkScheduler (_bpm s) (_beatDurationMs s) (_scheduledNotes s) 0.

Definition getBeatAt (s : Scheduler) (timeMs : float) : float :=
  Math_floor (timeMs / _beatDurationMs s).

(** *** Quantization *)

Definition quantize (s : Scheduler) (time : float)
    (subdivision : option string) : result float :=
  let sub := orQuarter subdivision in
  match getSubdivisionDuration s sub with
  | Throw m => Throw m
  | Ok gridSize => Ok (Math_round (time / gridSize) * gridSize)
  end.

(** [Array.prototype.map] with a callback that may throw: the first throw
    aborts the whole map. *)
Fixpoint mapResult {A B : Type} (f : A -> result B) (l : list A)
  : result (list B) :=
  match l with
  | [] => Ok []
  | x :: xs =>
      match f x with
      | Throw m => Throw m
      | Ok y => match mapResult f xs with
                | Throw m => Throw m
                | Ok ys => Ok (y :: ys)
                end
      end
  end.

Definition getSchedule (s : Scheduler) : list ScheduledEvent :=
  _scheduledNotes s.

Definition quantizeAll (s : Scheduler) (subdivision : option string)
  : result (Scheduler * list ScheduledEvent) :=
  match mapResult
          (fun event =>
             match quantize s (time event) subdivision with
             | Throw m => Throw m
             | Ok t => Ok (mkEvent (note event) t (duration event)
                                   (velocity event))
             end)
          (_scheduledNotes s) with
  | Throw m => Throw m
  | Ok notes =>
      let s' := mkScheduler (_bpm s) (_beatDurationMs s) (sort notes)
                            (_nextBeatIndex s) in
      Ok (s', getSchedule s')
  end.

(** *** Schedule access *)

Definition getNotesInRange (s : Scheduler) (startMs endMs : float)
  : list ScheduledEvent :=
  filter (fun e => (startMs <=? time e) && (time e <? endMs))
         (_scheduledNotes s).

Definition getTotalDuration (s : Scheduler) : float :=
  match rev (_scheduledNotes s) with
  | [] => 0
  | last :: _ => time last + duration last
  end.

Definition clear (s : Scheduler) : Scheduler :=
  mkScheduler (_bpm s) (_beatDurationMs s) [] 0.

(** *** Sequences of calls

    A call that throws leaves the instance as it was: every method checks
    its arguments before its first assignment. *)

Inductive call : Type :=
| SetBPM (bpm : float)
| ScheduleNote (note time : float) (duration velocity : option float)
| ScheduleAtBeat (note beat : float) (subdivision : option string)
                 (velocity : option float)
| QuantizeAll (subdivision : option string)
| Clear
| GetNextBeat
| ResetBeatCounter.

Definition step (s : Scheduler) (c : call) : Scheduler :=
  match c with
  | SetBPM bpm =>
      match setBPM s bpm with Ok s' => s' | Throw _ => s end
  | ScheduleNote n t d v =>
      match scheduleNote s n t d v with Ok (s', _) => s' | Throw _ => s end
  | ScheduleAtBeat n b sub v =>
      match scheduleAtBeat s n b sub v with Ok (s', _) => s' | Throw _ => s end
  | QuantizeAll sub =>
      match quantizeAll s sub with Ok (s', _) => s' | Throw _ => s end
  | Clear => clear s
  | GetNextBeat => snd (getNextBeat s)
  | ResetBeatCounter => resetBeatCounter s
  end.

Definition run (s : Scheduler) (calls : list call) : Scheduler :=
  fold_left step calls s.

End Runtime.

(** *** Conditions used in the properties *)

(** The beat is what [setBPM] computed from a tempo that passed its
    guard. *)
Definition tempoInv (s : Scheduler) : Prop :=
  _beatDurationMs s = (60 / _bpm s) * 1000
  /\ (_bpm s <? 20) = false /\ (300 <? _bpm s) = false.

(** The schedule is non-decreasing in [time]. *)
Definition notAfter (a b : ScheduledEvent) : Prop :=
  (time a <=? time b) = true.
Definition sortedByTime (l : list ScheduledEvent) : Prop := Sorted notAfter l.

(** What the specification asks of a stored event: a note of [0,127] at a
    time [>= 0] ... *)
Definition eventOk (ev : ScheduledEvent) : Prop :=
  (0 <=? note ev) = true /\ (note ev <=? 127) = true
  /\ (0 <=? time ev) = true.

(** ... with a positive duration and a velocity of [0,127]. *)
Definition extraOk (ev : ScheduledEvent) : Prop :=
  (0 <? duration ev) = true
  /\ (0 <=? velocity ev) = true /\ (velocity ev <=? 127) = true.

(** The duration and velocity a call supplies, when it supplies them, are a
    positive duration and a velocity in [0,127]. *)
Definition suppliedOk (c : call) : Prop :=
  match c with
  | ScheduleNote _ _ d v =>
      (forall x, d = Some x -> (0 <? x) = true)
      /\ (forall x, v = Some x -> (0 <=? x) = true /\ (x <=? 127) = true)
  | ScheduleAtBeat _ _ _ v =>
      forall x, v = Some x -> (0 <=? x) = true /\ (x <=? 127) = true
  | _ => True
  end.

(** The subdivision is one of the nine names of the table (a quarter when
    it is left out). *)
Definition valid (subdivision : option string) : Prop :=
  In (orQuarter subdivision) (map fst SUBDIVISIONS).

(** The subdivision is not a name that the table only inherits. *)
Definition notInherited (subdivision : option string) : Prop :=
  property (orQuarter subdivision) <> Inherited.

(** The call passes numbers, not NaN, for the tempo, the note and the time
    or beat, and no inherited name. *)
Definition plain (c : call) : Prop :=
  match c with
  | SetBPM bpm => is_nan bpm = false
  | ScheduleNote n t _ _ => is_nan n = false /\ is_nan t = false
  | ScheduleAtBeat n b sub _ =>
      is_nan n = false /\ is_nan b = false /\ notInherited sub
  | QuantizeAll sub => notInherited sub
  | _ => True
  end.

End Scheduler.

(* ================================================================== *)
(** ** osc-bridge.js *)
(* ================================================================== *)

Module OscBridge.
Local Open Scope string_scope.

(** The values handed to the formatter, by [typeof]; [VOther] stands for
    every other kind (arrays, objects, [undefined], ...). *)
Inductive value : Type :=
| VNumber (q : Q)
| VString (s : string)
| VBoolean (b : bool)
| VOther.

Record Message : Type := mkMessage {
  address : string;
  typeTag : string;
  msgValue : value;
  timestamp : Z
}.

Record Bundle : Type := mkBundle {
  timetag : Z;
  messages : list Message
}.

Definition startsWithSlash (a : string) : bool :=
  match a with
  | String c _ => Ascii.eqb c "/"%char
  | EmptyString => false
  end.

(** [Number.isInteger]. *)
Definition isInteger (q : Q) : bool := Qeq_bool q (inject_Z (Qfloor q)).

(** [formatMessage(address, value)]; [now] is what [Date.now()] returns. *)
Definition formatMessage (now : Z) (address : string) (v : value)
  : result Message :=
  if negb (startsWithSlash address) then Throw "Invalid OSC address"
  else
    match v with
    | VNumber q =>
        Ok (mkMessage address (if isInteger q then "i" else "f") v now)
    | VString _ => Ok (mkMessage address "s" v now)
    | VBoolean b =>
        Ok (mkMessage address (if b then "T" else "F")
                      (VNumber (if b then 1 else 0)%Q) now)
    | VOther => Throw "Unsupported OSC value type"
    end.

(** [prefix || '/omni']. *)
Definition orOmni (prefix : option string) : string :=
  match prefix with
  | None => "/omni"
  | Some p => if String.eqb p "" then "/omni" else p
  end.

(** The loop of [formatBundle] over [Object.entries(state)]. *)
Fixpoint formatEntries (now : Z) (prefix : string)
    (entries : list (string * value)) : result (list Message) :=
  match entries with
  | [] => Ok []
  | (param, VNumber q) :: rest =>
      match formatMessage now (prefix ++ "/" ++ param) (VNumber q) with
      | Throw m => Throw m
      | Ok msg => match formatEntries now prefix rest with
                  | Throw m => Throw m
                  | Ok msgs => Ok (msg :: msgs)
                  end
      end
  | _ :: rest => formatEntries now prefix rest
  end.

Definition formatBundle (now : Z) (state : list (string * value))
    (prefix : option string) : result Bundle :=
  match formatEntries now (orOmni prefix) state with
  | Throw m => Throw m
  | Ok msgs => Ok (mkBundle now msgs)
  end.

(** *** The bridge *)

Inductive BridgeState : Type :=
| DISCONNECTED
| CONNECTING
| CONNECTED
| ERROR.

Definition BridgeState_eqb (a b : BridgeState) : bool :=
  match a, b with
  | DISCONNECTED, DISCONNECTED | CONNECTING, CONNECTING
  | CONNECTED, CONNECTED | ERROR, ERROR => true
  | _, _ => false
  end.

(** The fields of an [OSCBridge].  The optional [onSend] callback is code of
    the caller; it is taken to be absent. *)
Record OSCBridge : Type := mkBridge {
  host : string;
  port : Z;
  prefix : string;
  state : BridgeState;
  messageCount : Z;
  lastError : option string;
  messageLog : list Message
}.

Record Options : Type := mkOptions {
  optHost : option string;
  optPort : option Z;
  optPrefix : option string
}.

Definition new (options : Options) : OSCBridge :=
  mkBridge
    (match optHost options with
     | Some h => if String.eqb h "" then "127.0.0.1" else h
     | None => "127.0.0.1"
     end)
    (match optPort options with
     | Some p => if (p =? 0)%Z then 57120%Z else p
     | None => 57120%Z
     end)
    (orOmni (optPrefix options))
    DISCONNECTED 0%Z None [].

Definition setState (b : OSCBridge) (st : BridgeState) : OSCBridge :=
  mkBridge (host b) (port b) (prefix b) st (messageCount b) (lastError b)
           (messageLog b).

(** The validation done by [connect]:
    [!this.host || !this.port || this.port < 1 || this.port > 65535]. *)
Definition invalidTarget (b : OSCBridge) : bool :=
  String.eqb (host b) "" || (port b =? 0)%Z || (port b <? 1)%Z
  || (65535 <? port b)%Z.

(** Every method returns, next to its result and the new instance, the
    values it assigned to [this.state], in order. *)
Definition connect (b : OSCBridge) : bool * OSCBridge * list BridgeState :=
  if BridgeState_eqb (state b) CONNECTED then (true, b, [])
  else
    let b1 := setState b CONNECTING in
    if invalidTarget b1 then
      (false,
       mkBridge (host b1) (port b1) (prefix b1) ERROR (messageCount b1)
                (Some "Invalid target") (messageLog b1),
       [CONNECTING; ERROR])
    else (true, setState b1 CONNECTED, [CONNECTING; CONNECTED]).

Definition disconnect (b : OSCBridge) : OSCBridge * list BridgeState :=
  (mkBridge (host b) (port b) (prefix b) DISCONNECTED (messageCount b)
            (lastError b) [],
   [DISCONNECTED]).

(** [send] returns [None] for [null]. *)
Definition send (now : Z) (b : OSCBridge) (param : string) (v : value)
  : result (option Message * OSCBridge) :=
  if negb (BridgeState_eqb (state b) CONNECTED) then Ok (None, b)
  else
    match formatMessage now (prefix b ++ "/" ++ param) v with
    | Throw m => Throw m
    | Ok msg =>
        Ok (Some msg,
            mkBridge (host b) (port b) (prefix b) (state b)
                     (messageCount b + 1)%Z (lastError b)
                     (messageLog b ++ [msg]))
    end.

Definition sendBundle (now : Z) (b : OSCBridge)
    (perfState : list (string * value))
  : result (option Bundle * OSCBridge) :=
  if negb (BridgeState_eqb (state b) CONNECTED) then Ok (None, b)
  else
    match formatBundle now perfState (Some (prefix b)) with
    | Throw m => Throw m
    | Ok bundle =>
        Ok (Some bundle,
            mkBridge (host b) (port b) (prefix b) (state b)
                     (messageCount b + Z.of_nat (List.length (messages bundle)))%Z
                     (lastError b)
                     (messageLog b ++ messages bundle))
    end.

Record Status : Type := mkStatus {
  stState : BridgeState;
  stHost : string;
  stPort : Z;
  stPrefix : string;
  stMessageCount : Z;
  stLastError : option string
}.

Definition getStatus (b : OSCBridge) : Status :=
  mkStatus (state b) (host b) (port b) (prefix b) (messageCount b)
           (lastError b).

(** [messageLog.slice(-count)] with [count = count || 10]. *)
Definition getRecentMessages (b : OSCBridge) (count : option Z)
  : list Message :=
  let count := match count with
               | Some c => if (c =? 0)%Z then 10%Z else c
               | None => 10%Z
               end in
  let len := Z.of_nat (List.length (messageLog b)) in
  let from := if (count <? 0)%Z then Z.min (- count) len
              else Z.max (len - count) 0 in
  skipn (Z.to_nat from) (messageLog b).

(** *** Sequences of calls *)

Inductive call : Type :=
| Connect
| Disconnect
| Send (now : Z) (param : string) (v : value)
| SendBundle (now : Z) (perfState : list (string * value))
| GetStatus
| GetRecentMessages (count : option Z).

(** The instance after a call, and the values the call assigned to
    [this.state].  A call that throws has assigned nothing. *)
Definition step (b : OSCBridge) (c : call) : OSCBridge * list BridgeState :=
  match c with
  | Connect => let '(_, b', w) := connect b in (b', w)
  | Disconnect => disconnect b
  | Send now param v =>
      match send now b param v with
      | Ok (_, b') => (b', [])
      | Throw _ => (b, [])
      end
  | SendBundle now perfState =>
      match sendBundle now b perfState with
      | Ok (_, b') => (b', [])
      | Throw _ => (b, [])
      end
  | GetStatus => (b, [])
  | GetRecentMessages _ => (b, [])
  end.

Fixpoint run (b : OSCBridge) (calls : list call) : OSCBridge :=
  match calls with
  | [] => b
  | c :: cs => run (fst (step b c)) cs
  end.

(** Every value [this.state] takes during the calls, in order, after the
    value it has in [b]. *)
Fixpoint writes (b : OSCBridge) (calls : list call) : list BridgeState :=
  match calls with
  | [] => []
  | c :: cs => snd (step b c) ++ writes (fst (step b c)) cs
  end.

Definition history (b : OSCBridge) (calls : list call) : list BridgeState :=
  state b :: writes b calls.

(** The transitions of the lifecycle as the specification lists them. *)
Definition listed (a b : BridgeState) : bool :=
  match a, b with
  | DISCONNECTED, CONNECTING
  | CONNECTING, CONNECTED
  | CONNECTING, ERROR
  | CONNECTED, DISCONNECTED
  | ERROR, DISCONNECTED => true
  | _, _ => false
  end.

(** Every change of value between two successive entries of [h] satisfies
    [ok]. *)
Fixpoint movesAlong (ok : BridgeState -> BridgeState -> bool)
    (h : list BridgeState) : bool :=
  match h with
  | a :: ((b :: _) as t) =>
      (BridgeState_eqb a b || ok a b) && movesAlong ok t
  | _ => true
  end.

(** The listed transitions and the retry [ERROR -> CONNECTING]. *)
Definition listedOrRetry (a b : BridgeState) : bool :=
  listed a b ||
  match a, b with ERROR, CONNECTING => true | _, _ => false end.

(** *** Conditions used in the properties *)

(** At rest the bridge is never [CONNECTING], and it is in [ERROR] only
    with a target that [connect] rejects. *)
Definition atRest (b : OSCBridge) : Prop :=
  state b <> CONNECTING /\ (state b = ERROR -> invalidTarget b = true).

(** What one call does to [this.state]. *)
Inductive effect (b : OSCBridge) (c : call) (b' : OSCBridge)
    (w : list BridgeState) : Prop :=
| effect_none : w = [] -> state b' = state b -> effect b c b' w
| effect_connect :
    c = Connect -> w = [CONNECTING; state b'] ->
    state b <> CONNECTED ->
    (state b' = CONNECTED \/ state b' = ERROR) ->
    (state b = ERROR -> state b' = ERROR) ->
    effect b c b' w
| effect_disconnect :
    c = Disconnect -> w = [DISCONNECTED] -> state b' = DISCONNECTED ->
    effect b c b' w.

(** *** Shapes used in the further properties *)

(** The entries of a state object that hold a number, in order. *)
Definition numericEntries (st : list (string * value)) : list (string * Q) :=
  flat_map (fun kv => match snd kv with
                      | VNumber q => [(fst kv, q)]
                      | _ => []
                      end) st.

(** A message as [formatMessage] builds them: an address that starts with
    a slash and one of the five type tags, in keeping with the value. *)
Definition wellFormed (m : Message) : Prop :=
  startsWithSlash (address m) = true
  /\ match msgValue m with
     | VNumber q =>
         (typeTag m = "i" /\ isInteger q = true)
         \/ (typeTag m = "f" /\ isInteger q = false)
         \/ (typeTag m = "T" /\ q = 1%Q)
         \/ (typeTag m = "F" /\ q = 0%Q)
     | VString _ => typeTag m = "s"
     | _ => False
     end.

(** What every bridge obtained from the bridge [b0] satisfies. *)
Definition logInvariant (b0 b : OSCBridge) : Prop :=
  host b = host b0 /\ port b = port b0 /\ prefix b = prefix b0
  /\ (state b <> CONNECTED -> messageLog b = [])
  /\ (Z.of_nat (List.length (messageLog b)) <= messageCount b)%Z
  /\ Forall wellFormed (messageLog b)
  /\ (state b = ERROR -> lastError b <> None).

(** [count || 10]. *)
Definition orTen (count : option Z) : Z :=
  match count with
  | Some c => if (c =? 0)%Z then 10%Z else c
  | None => 10%Z
  end.

End OscBridge.

(* ================================================================== *)
(** ** consensus.js *)
(* ================================================================== *)

Module Consensus.
Local Open Scope string_scope.
Local Open Scope R_scope.

(** *** Numbers and objects *)

(** A number: a real, or the NaN that arithmetic on [undefined] yields. *)
Inductive num : Type :=
| Real (r : R)
| NaN.

Definition lift2 (f : R -> R -> R) (a b : num) : num :=
  match a, b with
  | Real x, Real y => Real (f x y)
  | _, _ => NaN
  end.

Definition nadd : num -> num -> num := lift2 Rplus.
Definition nsub : num -> num -> num := lift2 Rminus.
Definition nmul : num -> num -> num := lift2 Rmult.
(** [a / b]; the code divides only by a total weight it has found positive. *)
Definition ndiv : num -> num -> num := lift2 Rdiv.
(** [Math.max(a, b)]: NaN as soon as one argument is. *)
Definition nmax : num -> num -> num := lift2 Rmax.
(** [Math.abs]. *)
Definition nabs (a : num) : num :=
  match a with Real x => Real (Rabs x) | NaN => NaN end.
(** [a > b]: false as soon as one side is NaN. *)
Definition ngt (a b : num) : bool :=
  match a, b with
  | Real x, Real y => if Rlt_dec y x then true else false
  | _, _ => false
  end.

(** A plain object with string keys: the entries in insertion order. *)
Definition obj (A : Type) : Type := list (string * A).

(** [o[k]]; [None] is [undefined]. *)
Fixpoint get {A : Type} (k : string) (o : obj A) : option A :=
  match o with
  | [] => None
  | (k', v) :: o' => if String.eqb k k' then Some v else get k o'
  end.

(** [o[k] = v]: an existing key keeps its place, a new one goes last. *)
Fixpoint set {A : Type} (k : string) (v : A) (o : obj A) : obj A :=
  match o with
  | [] => [(k, v)]
  | (k', v') :: o' =>
      if String.eqb k k' then (k, v) :: o' else (k', v') :: set k v o'
  end.

(** [Map.prototype.delete]. *)
Fixpoint remove {A : Type} (k : string) (o : obj A) : obj A :=
  match o with
  | [] => []
  | (k', v') :: o' =>
      if String.eqb k k' then o' else (k', v') :: remove k o'
  end.

Definition keys {A : Type} (o : obj A) : list string := map fst o.

(** A number read from an object and used in arithmetic. *)
Definition toNumber (x : option num) : num :=
  match x with Some n => n | None => NaN end.

(** What a participant may send as [values]. *)
Inductive jsval : Type :=
| VUndefined
| VNull
| VBoolean (b : bool)
| VNumber (r : R)
| VString (s : string)
| VArray (l : list R)
| VObject (o : obj R).

Definition typeof (v : jsval) : string :=
  match v with
  | VUndefined => "undefined"
  | VNull => "object"
  | VBoolean _ => "boolean"
  | VNumber _ => "number"
  | VString _ => "string"
  | VArray _ => "object"
  | VObject _ => "object"
  end.

(** [v[k]] for a parameter name [k]: a TypeError on [null] and [undefined],
    the entry of a mapping, [undefined] on anything else (parameter names
    are taken not to be array indices or built-in property names). *)
Definition getProp (v : jsval) (k : string) : result (option R) :=
  match v with
  | VUndefined | VNull => Throw "TypeError: Cannot read properties"
  | VObject o => Ok (get k o)
  | _ => Ok None
  end.

(** *** The engine *)

Record Config : Type := mkConfig {
  INPUT_DECAY_WINDOW_MS : Z;
  CONSENSUS_SMOOTHING : R;
  BETA_TEMPORAL : R;
  GAMMA_CONSENSUS : R;
  PARAMETERS : list string
}.

Definition DEFAULT_CONFIG : Config :=
  mkConfig 5000 (15 / 100) (6 / 10) (4 / 10)
           ["mood"; "tempo"; "intensity"; "density"].

Record Input : Type := mkInput {
  timestamp : Z;
  values : jsval
}.

(** An entry of the [overrides] object: the [active] flag and the
    per-parameter overrides live in the same object. *)
Inductive oval : Type :=
| OBool (b : bool)
| ONull
| ONum (r : R).

Record Engine : Type := mkEngine {
  config : Config;
  inputs : obj Input;          (* a Map keyed by user id *)
  state : obj num;
  overrides : obj oval
}.

Definition new (cfg : Config) : Engine :=
  mkEngine cfg []
    (fold_left (fun st p => set p (Real (5 / 10)) st) (PARAMETERS cfg) [])
    (fold_left (fun ov p => set p ONull ov) (PARAMETERS cfg)
               [("active", OBool false)]).

(** [x || Date.now()] on an optional time: absent and [0] are both falsy. *)
Definition orClock (clock : Z) (x : option Z) : Z :=
  match x with
  | None => clock
  | Some t => if (t =? 0)%Z then clock else t
  end.

(** [!userId] for an optional string. *)
Definition falsyId (userId : option string) : bool :=
  match userId with
  | None => true
  | Some u => String.eqb u ""
  end.

(** [clock] is what [Date.now()] returns during the call. *)
Definition recordInput (e : Engine) (clock : Z) (userId : option string)
    (vals : jsval) (ts : option Z) : Engine :=
  if falsyId userId || negb (String.eqb (typeof vals) "object") then e
  else
    match userId with
    | None => e
    | Some u =>
        mkEngine (config e)
                 (set u (mkInput (orClock clock ts) vals) (inputs e))
                 (state e) (overrides e)
    end.

Definition removeInput (e : Engine) (userId : string) : Engine :=
  mkEngine (config e) (remove userId (inputs e)) (state e) (overrides e).

(** The body of the inner [forEach] of [calculateConsensus]: one input's
    contribution to [(weightedSum, totalWeight)]. *)
Definition contribute (e : Engine) (now : Z) (param : string)
    (acc : num * num) (input : Input) : result (num * num) :=
  match getProp (values input) param with
  | Throw m => Throw m
  | Ok None => Ok acc
  | Ok (Some inputValue) =>
      let age := (now - timestamp input)%Z in
      if (age >? INPUT_DECAY_WINDOW_MS (config e))%Z then Ok acc
      else
        let temporalWeight :=
          exp (IZR (- age) / IZR (INPUT_DECAY_WINDOW_MS (config e))
               * BETA_TEMPORAL (config e)) in
        let currentValue := toNumber (get param (state e)) in
        let distance := nabs (nsub (Real inputValue) currentValue) in
        let consensusWeight :=
          nsub (Real 1) (nmul distance (Real (GAMMA_CONSENSUS (config e)))) in
        let finalWeight :=
          nmul (Real temporalWeight) (nmax (Real (1 / 10)) consensusWeight) in
        Ok (nadd (fst acc) (nmul (Real inputValue) finalWeight),
            nadd (snd acc) finalWeight)
  end.

Fixpoint forEachInput (e : Engine) (now : Z) (param : string)
    (acc : num * num) (inputList : list Input) : result (num * num) :=
  match inputList with
  | [] => Ok acc
  | input :: rest =>
      match contribute e now param acc input with
      | Throw m => Throw m
      | Ok acc' => forEachInput e now param acc' rest
      end
  end.

(** The outer [forEach] over the parameters, on [(result, anyResult)]. *)
Fixpoint forEachParam (e : Engine) (now : Z) (inputList : list Input)
    (res : obj num * bool) (params : list string) : result (obj num * bool) :=
  match params with
  | [] => Ok res
  | param :: rest =>
      match forEachInput e now param (Real 0, Real 0) inputList with
      | Throw m => Throw m
      | Ok (weightedSum, totalWeight) =>
          forEachParam e now inputList
            (if ngt totalWeight (Real 0)
             then (set param (ndiv weightedSum totalWeight) (fst res), true)
             else res)
            rest
      end
  end.

(** [None] is [null]. *)
Definition calculateConsensus (e : Engine) (clock : Z) (now : option Z)
  : result (option (obj num)) :=
  let now := orClock clock now in
  let inputList := map snd (inputs e) in
  if (List.length inputList =? 0)%nat then Ok None
  else
    match forEachParam e now inputList ([], false)
                       (PARAMETERS (config e)) with
    | Throw m => Throw m
    | Ok (result, anyResult) => Ok (if anyResult then Some result else None)
    end.

(** Truthiness of an entry of [overrides]. *)
Definition truthy (x : option oval) : bool :=
  match x with
  | Some (OBool b) => b
  | Some (ONum r) => if Req_dec_T r 0 then false else true
  | Some ONull | None => false
  end.

(** [x !== null]. *)
Definition notNull (x : option oval) : bool :=
  match x with
  | Some ONull => false
  | _ => true
  end.

(** The body of the [forEach] of [applyConsensus]. *)
Definition applyEntry (e : Engine) (st : obj num) (entry : string * num)
  : obj num :=
  let '(param, value) := entry in
  if truthy (get "active" (overrides e)) && notNull (get param (overrides e))
  then st
  else
    let current := toNumber (get param st) in
    set param
        (nadd current
              (nmul (nsub value current)
                    (Real (CONSENSUS_SMOOTHING (config e)))))
        st.

Definition getState (e : Engine) : obj num := state e.

Definition applyConsensus (e : Engine) (consensus : option (obj num))
  : Engine * obj num :=
  match consensus with
  | None => (e, getState e)
  | Some c =>
      let e' := mkEngine (config e) (inputs e)
                         (fold_left (applyEntry e) c (state e))
                         (overrides e) in
      (e', getState e')
  end.

Definition includes (param : string) (l : list string) : bool :=
  existsb (String.eqb param) l.

(** [value] is [None] for [null]. *)
Definition setOverride (e : Engine) (param : string) (value : option R)
  : Engine :=
  if negb (includes param (PARAMETERS (config e))) then e
  else
    match value with
    | None =>
        mkEngine (config e) (inputs e) (state e)
                 (set param ONull (overrides e))
    | Some v =>
        mkEngine (config e) (inputs e)
                 (set param (Real v) (state e))
                 (set "active" (OBool true)
                      (set param (ONum v) (overrides e)))
    end.

Definition clearOverrides (e : Engine) : Engine :=
  mkEngine (config e) (inputs e) (state e)
           (fold_left (fun ov p => set p ONull ov) (PARAMETERS (config e))
                      (set "active" (OBool false) (overrides e))).

Definition pruneOldInputs (e : Engine) (clock : Z) (now : option Z)
  : Engine * nat :=
  let now := orClock clock now in
  let old (entry : string * Input) :=
    (now - timestamp (snd entry) >? INPUT_DECAY_WINDOW_MS (config e) * 2)%Z in
  (mkEngine (config e) (filter (fun en => negb (old en)) (inputs e))
            (state e) (overrides e),
   List.length (filter old (inputs e))).

Definition getInputCount (e : Engine) : nat := List.length (inputs e).

Definition reset (e : Engine) : Engine :=
  clearOverrides
    (mkEngine (config e) []
       (fold_left (fun st p => set p (Real (5 / 10)) st)
                  (PARAMETERS (config e)) (state e))
       (overrides e)).

(** One tick of the driver: [applyConsensus(calculateConsensus(now))].  When
    [calculateConsensus] throws, [applyConsensus] is never entered. *)
Definition tick (e : Engine) (clock : Z) (now : option Z) : Engine :=
  match calculateConsensus e clock now with
  | Throw _ => e
  | Ok c => fst (applyConsensus e c)
  end.

(** A recorded payload. *)
Record payload : Type := mkPayload {
  pUser : option string;
  pValues : jsval;
  pTimestamp : option Z;
  pClock : Z
}.

Definition record (e : Engine) (p : payload) : Engine :=
  recordInput e (pClock p) (pUser p) (pValues p) (pTimestamp p).

(** *** The consensus formula as the specification words it *)

(** The value an input defines for a parameter, if any. *)
Definition defines (input : Input) (param : string) : option R :=
  match values input with
  | VObject o => get param o
  | _ => None
  end.

Definition age (now : Z) (input : Input) : Z := (now - timestamp input)%Z.

(** The inputs of [inputList] that qualify for a parameter at [now], each
    with the value it gives the parameter: those that define the parameter
    and whose age is at most the decay window. *)
Definition qualifyingIn (e : Engine) (now : Z) (param : string)
    (inputList : list Input) : list (Input * R) :=
  flat_map
    (fun input =>
       match defines input param with
       | Some v =>
           if (age now input <=? INPUT_DECAY_WINDOW_MS (config e))%Z
           then [(input, v)] else []
       | None => []
       end)
    inputList.

Definition qualifying (e : Engine) (now : Z) (param : string)
  : list (Input * R) :=
  qualifyingIn e now param (map snd (inputs e)).

(** [exp(-(age/window) * beta) * max(0.1, 1 - |v - state[p]| * gamma)]. *)
Definition weight (e : Engine) (now : Z) (param : string) (iv : Input * R)
  : num :=
  nmul
    (Real (exp (- (IZR (age now (fst iv))
                   / IZR (INPUT_DECAY_WINDOW_MS (config e)))
                * BETA_TEMPORAL (config e))))
    (nmax (Real (1 / 10))
          (nsub (Real 1)
                (nmul (nabs (nsub (Real (snd iv))
                                  (toNumber (get param (state e)))))
                      (Real (GAMMA_CONSENSUS (config e)))))).

(** A sum, taken from left to right. *)
Definition nsum (l : list num) : num := fold_left nadd l (Real 0).

(** [sum(value*weight) / sum(weight)] over the qualifying inputs, when
    [sum(weight) > 0]. *)
Definition weightedMean (e : Engine) (now : Z) (param : string)
  : option num :=
  let qs := qualifying e now param in
  let sumVW :=
    nsum (map (fun iv => nmul (Real (snd iv)) (weight e now param iv)) qs) in
  let sumW := nsum (map (weight e now param) qs) in
  if ngt sumW (Real 0) then Some (ndiv sumVW sumW) else None.

(** The entry of a parameter in what [calculateConsensus] returned. *)
Definition valueAt (r : result (option (obj num))) (param : string)
  : option num :=
  match r with
  | Ok (Some res) => get param res
  | _ => None
  end.

(** Data-model conditions: every stored [values] is a mapping, and the
    state holds a real for every recognized parameter. *)
Definition isMapping (v : jsval) : bool :=
  match v with VObject _ => true | _ => false end.

Definition tableOk (e : Engine) : Prop :=
  Forall (fun en => isMapping (values (snd en)) = true) (inputs e).

Definition stateOk (e : Engine) : Prop :=
  Forall (fun p => exists r, get p (state e) = Some (Real r))
         (PARAMETERS (config e)).

(** *** Auxiliary definitions used in the properties *)

(** The two accumulators after the qualifying inputs [qs]. *)
Definition sumsOver (e : Engine) (now : Z) (param : string)
    (acc : num * num) (qs : list (Input * R)) : num * num :=
  (fold_left nadd
     (map (fun iv => nmul (Real (snd iv)) (weight e now param iv)) qs)
     (fst acc),
   fold_left nadd (map (weight e now param) qs) (snd acc)).

Definition isSome {A : Type} (x : option A) : bool :=
  match x with Some _ => true | None => false end.

(** The sum of the weights of the inputs that qualify for a parameter. *)
Definition totalWeight (e : Engine) (now : Z) (param : string) : num :=
  nsum (map (weight e now param) (qualifying e now param)).

(** A real, positive number. *)
Definition positive (x : num) : Prop := exists w, x = Real w /\ 0 < w.

(** An example engine: a new engine in which ["u1"] has
    recorded [{mood: 0.9}] with timestamp 1. *)
Definition oneInput : Engine :=
  recordInput (new DEFAULT_CONFIG) 0 (Some "u1")
              (VObject [("mood", 9 / 10)]) (Some 1%Z).

(** *** Sequences of calls

    The calls the transport layer and its periodic driver make on an
    engine; [Tick] is [applyConsensus(calculateConsensus(now))]. *)

Inductive call : Type :=
| RecordInput (p : payload)
| RemoveInput (userId : string)
| PruneOldInputs (clock : Z) (now : option Z)
| Tick (clock : Z) (now : option Z)
| SetOverride (param : string) (value : option R)
| ClearOverrides
| Reset.

Definition step (e : Engine) (c : call) : Engine :=
  match c with
  | RecordInput p => record e p
  | RemoveInput userId => removeInput e userId
  | PruneOldInputs clock now => fst (pruneOldInputs e clock now)
  | Tick clock now => tick e clock now
  | SetOverride param value => setOverride e param value
  | ClearOverrides => clearOverrides e
  | Reset => reset e
  end.

Definition run (e : Engine) (calls : list call) : Engine :=
  fold_left step calls e.

(** The object has an entry for every recognized parameter. *)
Definition definedFor (params : list string) (st : obj num) : Prop :=
  forall p, In p params -> exists v, get p st = Some v.

(** What the engines obtained from a new one satisfy. *)
Definition engineInvariant (cfg : Config) (e : Engine) : Prop :=
  config e = cfg
  /\ NoDup (keys (inputs e))
  /\ definedFor (PARAMETERS (config e)) (state e)
  /\ Forall (fun en => fst en <> "" /\ typeof (values (snd en)) = "object")
            (inputs e).

End Consensus.

(* ================================================================== *)
(** * Properties *)
(* ================================================================== *)

(** ** Numbers

    The rounding of the doubles, derived from the definitions of
    [SpecFloat]: what the rounding procedure returns, the error of a
    product and of a quotient, the order of the comparisons, the sign of a
    difference, whole numbers and [Math.round]. *)

Module NumberFacts.
Import Floats.
Import Number.
Local Open Scope R_scope.

(** *** Powers of two *)

Lemma pow2_pos (e : Z) : 0 < pow2 e.
Proof. unfold pow2. apply powerRZ_lt. lra. Qed.

Lemma pow2_add (a b : Z) : pow2 (a + b) = pow2 a * pow2 b.
Proof. unfold pow2. apply powerRZ_add. lra. Qed.

Lemma pow2_0 : pow2 0 = 1.
Proof. reflexivity. Qed.

Lemma pow2_succ (a : Z) : pow2 (a + 1) = 2 * pow2 a.
Proof. rewrite pow2_add. unfold pow2 at 2. simpl. lra. Qed.

Lemma pow2_pred (a : Z) : pow2 (a - 1) = pow2 a / 2.
Proof.
  replace a with ((a - 1) + 1)%Z at 2 by lia. rewrite pow2_succ. lra.
Qed.

Lemma pow2_opp (a : Z) : pow2 (- a) = / pow2 a.
Proof.
  assert (H : pow2 (- a) * pow2 a = 1).
  { rewrite <- pow2_add. replace (- a + a)%Z with 0%Z by lia. reflexivity. }
  pose proof (pow2_pos a). apply Rmult_eq_reg_r with (pow2 a); [|lra].
  rewrite H. field. lra.
Qed.

Lemma pow2_IZR (n : Z) : (0 <= n)%Z -> pow2 n = IZR (2 ^ n).
Proof.
  intros H. unfold pow2. rewrite <- (Z2Nat.id n) by assumption.
  rewrite <- pow_powerRZ, <- Zpower_nat_Z.
  induction (Z.to_nat n) as [|k IH]; [reflexivity|].
  rewrite Zpower_nat_succ_r, mult_IZR, <- IH. simpl. reflexivity.
Qed.

Lemma pow2_ge_1 (n : Z) : (0 <= n)%Z -> 1 <= pow2 n.
Proof.
  intros H. rewrite pow2_IZR by assumption. apply IZR_le.
  assert (0 < 2 ^ n)%Z by (apply Z.pow_pos_nonneg; lia). lia.
Qed.

Lemma pow2_le (a b : Z) : (a <= b)%Z -> pow2 a <= pow2 b.
Proof.
  intros H. replace b with (a + (b - a))%Z by lia. rewrite pow2_add.
  pose proof (pow2_pos a). pose proof (pow2_ge_1 (b - a)). 
  assert (1 <= pow2 (b - a)) by (apply pow2_ge_1; lia). nra.
Qed.

Lemma pow2_lt (a b : Z) : (a < b)%Z -> pow2 a < pow2 b.
Proof.
  intros H. replace b with ((a + 1) + (b - a - 1))%Z by lia.
  rewrite pow2_add, pow2_succ.
  pose proof (pow2_pos a).
  assert (1 <= pow2 (b - a - 1)) by (apply pow2_ge_1; lia). nra.
Qed.

(** *** Binary digits *)

Lemma digits2_pos_bounds (m : positive) :
  (2 ^ (Zpos (digits2_pos m) - 1) <= Zpos m < 2 ^ Zpos (digits2_pos m))%Z.
Proof.
  induction m as [p IH|p IH|]; simpl digits2_pos.
  - rewrite Pos2Z.inj_succ.
    replace (Z.succ (Zpos (digits2_pos p)) - 1)%Z
      with (Z.succ (Zpos (digits2_pos p) - 1)) by lia.
    rewrite !Z.pow_succ_r by lia. lia.
  - rewrite Pos2Z.inj_succ.
    replace (Z.succ (Zpos (digits2_pos p)) - 1)%Z
      with (Z.succ (Zpos (digits2_pos p) - 1)) by lia.
    rewrite !Z.pow_succ_r by lia. lia.
  - simpl. lia.
Qed.

Lemma Zdigits2_bounds (m : Z) :
  (0 < m)%Z ->
  (0 < Zdigits2 m)%Z /\ pow2 (Zdigits2 m - 1) <= IZR m < pow2 (Zdigits2 m).
Proof.
  destruct m as [|p|p]; try lia. intros _. simpl Zdigits2.
  pose proof (digits2_pos_bounds p) as [Hlo Hhi].
  split; [lia|]. rewrite !pow2_IZR by lia.
  split; [apply IZR_le | apply IZR_lt]; assumption.
Qed.

Lemma Zdigits2_le (m n : Z) :
  (0 < m)%Z -> IZR m < pow2 n -> (Zdigits2 m <= n)%Z.
Proof.
  intros Hm H. destruct (Zdigits2_bounds m Hm) as (Hd & Hlo & _).
  destruct (Z_le_gt_dec (Zdigits2 m) n) as [|Hgt]; [assumption|].
  assert (pow2 n <= pow2 (Zdigits2 m - 1)) by (apply pow2_le; lia). lra.
Qed.

Lemma Zdigits2_ge (m n : Z) :
  (0 < m)%Z -> pow2 (n - 1) <= IZR m -> (n <= Zdigits2 m)%Z.
Proof.
  intros Hm H. destruct (Zdigits2_bounds m Hm) as (Hd & _ & Hhi).
  destruct (Z_le_gt_dec n (Zdigits2 m)) as [|Hgt]; [assumption|].
  assert (pow2 (Zdigits2 m) <= pow2 (n - 1)) by (apply pow2_le; lia). lra.
Qed.

(** *** Shifting to the right *)

Lemma shr_1_rep (mrs : shr_record) (y : R) :
  rep mrs y -> rep (shr_1 mrs) (y / 2).
Proof.
  destruct mrs as [m r s]. unfold rep, located. simpl shr_m. simpl shr_r.
  simpl shr_s. intros [Hm H].
  destruct m as [|p|p]; [| |lia].
  - destruct r, s; simpl; split; try lia; lra.
  - destruct p as [p|p|].
    + rewrite Pos2Z.inj_xI, plus_IZR, mult_IZR in H.
      destruct r, s; simpl; split; try lia; lra.
    + rewrite Pos2Z.inj_xO, mult_IZR in H.
      destruct r, s; simpl; split; try lia; lra.
    + destruct r, s; simpl; split; try lia; lra.
Qed.

Lemma iter_shr_1_rep (n : positive) :
  forall mrs y,
    rep mrs y -> rep (iter_pos shr_1 n mrs) (y * pow2 (- Zpos n)).
Proof.
  induction n as [n IH|n IH|]; intros mrs y H; simpl iter_pos.
  - apply shr_1_rep in H. apply IH in H. apply IH in H.
    replace (y * pow2 (- Zpos n~1))
      with (y / 2 * pow2 (- Zpos n) * pow2 (- Zpos n)); [exact H|].
    rewrite Pos2Z.inj_xI.
    replace (- (2 * Zpos n + 1))%Z with ((- Zpos n + - Zpos n) - 1)%Z by lia.
    rewrite pow2_pred, pow2_add. lra.
  - apply IH in H. apply IH in H.
    replace (y * pow2 (- Zpos n~0))
      with (y * pow2 (- Zpos n) * pow2 (- Zpos n)); [exact H|].
    rewrite Pos2Z.inj_xO.
    replace (- (2 * Zpos n))%Z with (- Zpos n + - Zpos n)%Z by lia.
    rewrite pow2_add. lra.
  - apply shr_1_rep in H.
    replace (y * pow2 (- Zpos 1)) with (y / 2); [exact H|].
    unfold pow2. simpl. lra.
Qed.

Lemma shr_rep (mrs : shr_record) (e n : Z) (y : R) :
  (0 <= n)%Z -> rep mrs y ->
  rep (fst (shr mrs e n)) (y * pow2 (- n)) /\ snd (shr mrs e n) = (e + n)%Z.
Proof.
  intros Hn H. destruct n as [|p|p]; [| |lia]; cbn [shr fst snd].
  - change (- 0)%Z with 0%Z. rewrite pow2_0, Rmult_1_r.
    split; [assumption | lia].
  - split; [now apply iter_shr_1_rep | reflexivity].
Qed.

Lemma round_nearest_even_rep (mrs : shr_record) (y : R) :
  rep mrs y ->
  let k := round_nearest_even (shr_m mrs) (loc_of_shr_record mrs) in
  (shr_m mrs <= k <= shr_m mrs + 1)%Z /\ Rabs (IZR k - y) <= / 2.
Proof.
  destruct mrs as [m r s]. unfold rep, located. simpl. intros [Hm H].
  destruct r, s; simpl.
  - rewrite plus_IZR. split; [lia|]. apply Rabs_le. lra.
  - destruct (Z.even m); [|rewrite plus_IZR]; (split; [lia|]);
      apply Rabs_le; lra.
  - split; [lia|]. apply Rabs_le. lra.
  - split; [lia|]. apply Rabs_le. lra.
Qed.

Lemma rep_bounds (mrs : shr_record) (y : R) :
  rep mrs y -> (0 <= shr_m mrs)%Z /\ IZR (shr_m mrs) <= y < IZR (shr_m mrs) + 1.
Proof.
  destruct mrs as [m r s]. unfold rep, located. simpl. intros [Hm H].
  split; [assumption|]. destruct r, s; lra.
Qed.

Lemma fexp64_eq (e : Z) : fexp64 e = Z.max (e - 53) (-1074).
Proof. reflexivity. Qed.

Lemma shr_m_of_loc (m : Z) (l : location) : shr_m (shr_record_of_loc m l) = m.
Proof. destruct l as [|[]]; reflexivity. Qed.

Lemma shr_nonpos (mrs : shr_record) (e n : Z) :
  (n <= 0)%Z -> shr mrs e n = (mrs, e).
Proof. destruct n; [reflexivity | lia | reflexivity]. Qed.

Lemma rep_lt_digits (m : Z) (l : location) (y : R) :
  rep (shr_record_of_loc m l) y -> y < pow2 (Zdigits2 m).
Proof.
  intros H. apply rep_bounds in H. rewrite shr_m_of_loc in H.
  destruct H as (Hm & _ & Hy).
  destruct (Z.eq_dec m 0) as [->|Hne].
  - change (Zdigits2 0) with 0%Z. rewrite pow2_0. lra.
  - destruct m as [|p|p]; try lia. simpl Zdigits2.
    pose proof (digits2_pos_bounds p) as [_ Hhi].
    rewrite pow2_IZR by lia.
    assert (IZR (Zpos p) + 1 <= IZR (2 ^ Zpos (digits2_pos p))).
    { rewrite <- plus_IZR. apply IZR_le. lia. }
    lra.
Qed.

Lemma shr_fexp_rep (m e : Z) (l : location) (y : R) :
  rep (shr_record_of_loc m l) y ->
  (e <= fexp64 (Zdigits2 m + e))%Z ->
  rep (fst (shr_fexp prec emax m e l))
      (y * pow2 (e - fexp64 (Zdigits2 m + e)))
  /\ snd (shr_fexp prec emax m e l) = fexp64 (Zdigits2 m + e).
Proof.
  intros H HE. unfold shr_fexp. fold (fexp64 (Zdigits2 m + e)).
  destruct (shr_rep (shr_record_of_loc m l) e
                    (fexp64 (Zdigits2 m + e) - e) y) as [H1 H2];
    [lia | assumption |].
  split.
  - replace (e - fexp64 (Zdigits2 m + e))%Z
      with (- (fexp64 (Zdigits2 m + e) - e))%Z by lia. exact H1.
  - rewrite H2. lia.
Qed.

Lemma pow2_52 : pow2 52 = 4503599627370496.
Proof. now rewrite pow2_IZR by lia. Qed.

Lemma pow2_53 : pow2 53 = 9007199254740992.
Proof. now rewrite pow2_IZR by lia. Qed.

(** The rounding of [binary_round_aux]: for a mantissa [m] at exponent
    [e] that stands for [y * 2^e], the result holds an integer [k] at the
    exponent [E] of the format, with [k] within a half of [y * 2^(e - E)]. *)
Lemma binary_round_aux_correct (s : bool) (m e : Z) (l : location) (y : R) :
  rep (shr_record_of_loc m l) y ->
  (e <= fexp64 (Zdigits2 m + e))%Z ->
  let E := fexp64 (Zdigits2 m + e) in
  let y1 := y * pow2 (e - E) in
  exists k : Z,
    (0 <= k <= 2 ^ 53)%Z
    /\ Rabs (IZR k - y1) <= / 2
    /\ ((-1074 < E)%Z -> pow2 52 <= y1 /\ (2 ^ 52 <= k)%Z)
    /\ ((k = 0%Z /\ binary_round_aux prec emax s m e l = S754_zero s)
        \/ (exists m' e',
              binary_round_aux prec emax s m e l = S754_finite s m' e'
              /\ IZR (Zpos m') * pow2 e' = IZR k * pow2 E
              /\ valid_binary (S754_finite s m' e') = true)
        \/ ((0 < k)%Z
            /\ binary_round_aux prec emax s m e l = S754_infinity s
            /\ pow2 1024 <= IZR k * pow2 E)).
Proof.
  intros Hrep HE E y1.
  destruct (shr_fexp_rep m e l y Hrep HE) as [H1 H2].
  fold E in H1, H2. fold y1 in H1.
  pose proof (rep_bounds _ _ Hrep) as (Hm & Hmy & _).
  rewrite shr_m_of_loc in Hm, Hmy.
  unfold binary_round_aux.
  destruct (shr_fexp prec emax m e l) as [mrs' e'] eqn:Hshr.
  simpl in H1, H2. subst e'.
  pose proof (rep_bounds _ _ H1) as (Hm1 & Hlo1 & Hhi1).
  pose proof (round_nearest_even_rep _ _ H1) as [Hk Hky].
  set (k := round_nearest_even (shr_m mrs') (loc_of_shr_record mrs')) in *.
  assert (HEmin : (-1074 <= E)%Z) by (unfold E; rewrite fexp64_eq; lia).
  assert (HEd : (Zdigits2 m + e - 53 <= E)%Z)
    by (unfold E; rewrite fexp64_eq; lia).
  (* the shifted mantissa has at most 53 digits *)
  assert (Hy1 : y1 < pow2 53).
  { pose proof (rep_lt_digits _ _ _ Hrep) as Hy.
    pose proof (pow2_pos (e - E)).
    apply Rlt_le_trans with (pow2 (Zdigits2 m) * pow2 (e - E)).
    - unfold y1. nra.
    - rewrite <- pow2_add. apply pow2_le. lia. }
  assert (Hm1' : (shr_m mrs' < 2 ^ 53)%Z).
  { apply lt_IZR. rewrite <- pow2_IZR by lia. lra. }
  assert (Hnormal : (-1074 < E)%Z -> pow2 52 <= y1 /\ (2 ^ 52 <= k)%Z).
  { intros Hn.
    assert (HEq : E = (Zdigits2 m + e - 53)%Z)
      by (unfold E in *; rewrite fexp64_eq in *; lia).
    assert (Hmpos : (0 < m)%Z).
    { destruct (Z.eq_dec m 0) as [->|]; [|lia]. simpl in HEq. lia. }
    destruct (Zdigits2_bounds m Hmpos) as (_ & Hdlo & _).
    assert (Hy52 : pow2 52 <= y1).
    { replace 52%Z with ((Zdigits2 m - 1) + (e - E))%Z by lia.
      rewrite pow2_add. pose proof (pow2_pos (e - E)). unfold y1. nra. }
    split; [exact Hy52|].
    assert (2 ^ 52 - 1 < shr_m mrs')%Z.
    { apply lt_IZR. rewrite minus_IZR, <- pow2_IZR by lia. lra. }
    lia. }
  exists k. split; [lia|]. split; [exact Hky|]. split; [exact Hnormal|].
  unfold shr_fexp. cbn [shr_record_of_loc].
  destruct (Z.eq_dec k 0) as [Hk0|Hk0].
  - left. split; [assumption|]. rewrite Hk0. simpl Zdigits2.
    rewrite shr_nonpos by (fold (fexp64 (0 + E)); rewrite fexp64_eq; lia).
    reflexivity.
  - destruct (Z.eq_dec k (2 ^ 53)) as [Hk53|Hk53].
    + right. rewrite Hk53.
      change (Zdigits2 (2 ^ 53)) with 54%Z.
      fold (fexp64 (54 + E)). rewrite fexp64_eq.
      replace (Z.max (54 + E - 53) (-1074) - E)%Z with 1%Z by lia.
      cbn [shr iter_pos shr_1 shr_m].
      change (2 ^ 53)%Z with (Zpos (4503599627370496~0)).
      cbn [shr_1 shr_m orb].
      change (emax - prec)%Z with 971%Z.
      destruct (Z.leb_spec (E + 1) 971) as [Hle|Hgt].
      * left. exists 4503599627370496%positive, (E + 1)%Z.
        split; [reflexivity|]. split.
        -- rewrite pow2_succ. 
           change (Zpos 4503599627370496~0) with (2 * 4503599627370496)%Z.
           rewrite mult_IZR. lra.
        -- unfold valid_binary, bounded, canonical_mantissa.
           change (Zpos (digits2_pos 4503599627370496)) with 53%Z.
           fold (fexp64 (53 + (E + 1))). rewrite fexp64_eq.
           change (emax - prec)%Z with 971%Z.
           apply andb_true_intro. split; [apply Z.eqb_eq | apply Z.leb_le];
             lia.
      * right. split; [lia|]. split; [reflexivity|].
        change (Zpos 4503599627370496~0) with (2 ^ 53)%Z.
        rewrite <- pow2_IZR, <- pow2_add by lia. apply pow2_le. lia.
    + right.
      assert (Hkpos : (0 < k)%Z) by lia.
      assert (Hdk : (Zdigits2 k <= 53)%Z).
      { apply Zdigits2_le; [assumption|]. rewrite pow2_IZR by lia.
        apply IZR_lt. lia. }
      rewrite shr_nonpos
        by (fold (fexp64 (Zdigits2 k + E)); rewrite fexp64_eq; lia).
      cbn [shr_m]. destruct k as [|p|p] eqn:Hkp; try lia.
      change (emax - prec)%Z with 971%Z.
      destruct (Z.leb_spec E 971) as [Hle|Hgt].
      * left. exists p, E. split; [reflexivity|]. split; [reflexivity|].
        unfold valid_binary, bounded, canonical_mantissa.
        fold (fexp64 (Zpos (digits2_pos p) + E)). rewrite fexp64_eq.
        change (emax - prec)%Z with 971%Z.
        apply andb_true_intro. split; [apply Z.eqb_eq | apply Z.leb_le; lia].
        simpl Zdigits2 in Hdk.
        destruct (Z.eq_dec E (-1074)) as [HE0|HE0]; [lia|].
        assert (Hn : (-1074 < E)%Z) by lia.
        destruct (Hnormal Hn) as [_ Hk52].
        assert (53 <= Zdigits2 (Zpos p))%Z.
        { apply Zdigits2_ge; [lia|]. rewrite pow2_IZR by lia.
          apply IZR_le. exact Hk52. }
        simpl Zdigits2 in *. lia.
      * right. split; [lia|]. split; [reflexivity|].
        assert (Hn : (-1074 < E)%Z) by lia.
        destruct (Hnormal Hn) as [_ Hk52].
        apply Rle_trans with (pow2 52 * pow2 972).
        -- rewrite <- pow2_add. apply pow2_le. lia.
        -- assert (pow2 52 <= IZR (Zpos p))
             by (rewrite pow2_IZR by lia; apply IZR_le; exact Hk52).
           assert (pow2 972 <= pow2 E) by (apply pow2_le; lia).
           pose proof (pow2_pos 972). pose proof (pow2_pos 52). nra.
Qed.

Lemma Rabs_le_inv (x a : R) : Rabs x <= a -> - a <= x <= a.
Proof. unfold Rabs. destruct (Rcase_abs x); lra. Qed.

Lemma SF2R_finite (s : bool) (m : positive) (e : Z) :
  SF2R (S754_finite s m e) = sgn s (IZR (Zpos m) * pow2 e).
Proof.
  destruct s; unfold SF2R, sgn, cond_Zopp; [|reflexivity].
  change (- Zpos m)%Z with (Z.opp (Zpos m)). rewrite opp_IZR. lra.
Qed.

Lemma pow2_m1075 : pow2 (-1074) = 2 * pow2 (-1075).
Proof. replace (-1074)%Z with (-1075 + 1)%Z by lia. apply pow2_succ. Qed.

Lemma half_ulp_rel (y1 pE : R) :
  pow2 52 <= y1 -> 0 < pE -> pE / 2 <= pow2 (-53) * (y1 * pE).
Proof.
  intros Hy HpE.
  assert (H : pow2 (-53) * pow2 52 = / 2).
  { rewrite <- pow2_add. change (-53 + 52)%Z with (-1)%Z.
    unfold pow2. simpl. lra. }
  assert (H1 : / 2 <= pow2 (-53) * y1).
  { rewrite <- H. apply Rmult_le_compat_l; [|assumption].
    pose proof (pow2_pos (-53)). lra. }
  replace (pow2 (-53) * (y1 * pE)) with (pow2 (-53) * y1 * pE) by ring.
  nra.
Qed.

(** What [binary_round_aux] returns for the magnitude [X = y * 2^e]
    and the sign [s]. *)
Lemma binary_round_aux_error (s : bool) (m e : Z) (l : location) (y : R) :
  rep (shr_record_of_loc m l) y ->
  (e <= fexp64 (Zdigits2 m + e))%Z ->
  let X := y * pow2 e in
  let r := binary_round_aux prec emax s m e l in
  valid_binary r = true
  /\ ((r = S754_infinity s /\ pow2 1023 <= X)
      \/ (exists V : R,
            SF2R r = sgn s V /\ 0 <= V
            /\ (r = S754_zero s \/ exists m' e', r = S754_finite s m' e')
            /\ Rabs (V - X) <= pow2 (-53) * X + pow2 (-1075)
            /\ (pow2 (-1022) <= X -> Rabs (V - X) <= pow2 (-53) * X)
            /\ (0 < V -> pow2 (-1074) <= V)
            /\ (forall j : Z,
                   X = IZR j * pow2 (fexp64 (Zdigits2 m + e)) -> V = X))).
Proof.
  intros Hrep HE X r.
  destruct (binary_round_aux_correct s m e l y Hrep HE)
    as (k & Hk & Hky & Hnormal & Hres).
  set (E := fexp64 (Zdigits2 m + e)) in *.
  fold r in Hres.
  assert (HEmin : (-1074 <= E)%Z) by (unfold E; rewrite fexp64_eq; lia).
  assert (HX : X = y * pow2 (e - E) * pow2 E).
  { unfold X. rewrite Rmult_assoc, <- pow2_add. f_equal. f_equal. lia. }
  pose proof (pow2_pos E) as HpE.
  pose proof (rep_bounds _ _ Hrep) as (Hm0 & Hmy & _).
  rewrite shr_m_of_loc in Hm0, Hmy.
  assert (Hy0 : 0 <= y) by (apply IZR_le in Hm0; lra).
  assert (Hy1 : 0 <= y * pow2 (e - E))
    by (pose proof (pow2_pos (e - E)); nra).
  (* the error is at most half a unit at the exponent E *)
  assert (Herr : Rabs (IZR k * pow2 E - X) <= pow2 E / 2).
  { rewrite HX, <- Rmult_minus_distr_r, Rabs_mult.
    rewrite (Rabs_pos_eq (pow2 E)) by lra. nra. }
  assert (Hhalf : pow2 E / 2 <= pow2 (-53) * X + pow2 (-1075)
                  /\ (pow2 (-1022) <= X -> pow2 E / 2 <= pow2 (-53) * X)).
  { destruct (Z.eq_dec E (-1074)) as [HE0|HE0].
    - rewrite HE0, pow2_m1075.
      assert (0 <= X) by (rewrite HX; nra).
      pose proof (pow2_pos (-53)). pose proof (pow2_pos (-1075)).
      split; [nra|]. intros HXn.
      replace (-1022)%Z with (53 + -1075)%Z in HXn by lia.
      rewrite pow2_add in HXn.
      assert (pow2 53 * pow2 (-53) = 1)
        by (rewrite <- pow2_add; reflexivity).
      pose proof (pow2_pos 53). nra.
    - destruct Hnormal as [Hy52 _]; [lia|].
      assert (Hrel : pow2 E / 2 <= pow2 (-53) * X)
        by (rewrite HX; now apply half_ulp_rel).
      pose proof (pow2_pos (-1075)). split; [lra | intros _; exact Hrel]. }
  assert (Hvalid : valid_binary r = true).
  { destruct Hres as [[_ ->]|[(m' & e' & -> & _ & Hv)|(_ & -> & _)]];
      [reflexivity | exact Hv | reflexivity]. }
  split; [exact Hvalid|].
  assert (Hexact : forall j : Z, X = IZR j * pow2 E -> IZR k * pow2 E = X).
  { intros j Hj. rewrite Hj. f_equal. f_equal.
    assert (Hyj : y * pow2 (e - E) = IZR j).
    { apply Rmult_eq_reg_r with (pow2 E); [|lra]. now rewrite <- HX. }
    rewrite Hyj in Hky. rewrite <- minus_IZR in Hky.
    apply Rabs_le_inv in Hky.
    assert (-1 < k - j < 1)%Z
      by (split; apply lt_IZR; simpl; lra).
    lia. }
  assert (Hsmall : 0 < IZR k * pow2 E -> pow2 (-1074) <= IZR k * pow2 E).
  { intros Hpos.
    assert (0 < k)%Z.
    { apply lt_IZR. destruct (Rlt_dec 0 (IZR k)); [assumption|]. nra. }
    assert (1 <= IZR k) by (apply IZR_le; lia).
    assert (pow2 (-1074) <= pow2 E) by (apply pow2_le; lia). nra. }
  destruct Hres as [[Hk0 Hr]|[(m' & e' & Hr & Hval & _)|(Hkpos & Hr & Hbig)]].
  - right. exists 0. rewrite Hr. simpl SF2R.
    split; [destruct s; simpl; lra|]. split; [lra|].
    split; [now left|].
    rewrite Hk0, Rmult_0_l in Herr, Hexact. 
    split; [lra|]. split; [intros H; apply Hhalf in H; lra|].
    split; [lra|]. intros j Hj. now apply Hexact with j.
  - right. exists (IZR k * pow2 E). rewrite Hr, SF2R_finite, Hval.
    split; [reflexivity|].
    split; [apply Rmult_le_pos; [apply IZR_le; lia | lra]|].
    split; [right; now exists m', e'|].
    split; [lra|]. split; [intros H; apply Hhalf in H; lra|].
    split; [exact Hsmall | exact Hexact].
  - left. split; [exact Hr|].
    destruct Hnormal as [Hy52 _].
    { destruct (Z_le_gt_dec E (-1074)); [|lia].
      assert (E = (-1074)%Z) by lia. exfalso.
      assert (IZR k <= pow2 53)
        by (rewrite pow2_IZR by lia; apply IZR_le; lia).
      assert (pow2 53 * pow2 E < pow2 1024)
        by (rewrite <- pow2_add; apply pow2_lt; lia).
      nra. }
    assert (Hrel : pow2 E / 2 <= pow2 (-53) * X)
      by (rewrite HX; now apply half_ulp_rel).
    apply Rabs_le_inv in Herr.
    assert (Hle : pow2 1024 <= X * (1 + pow2 (-53))) by lra.
    replace 1024%Z with (1023 + 1)%Z in Hle by lia.
    rewrite pow2_succ in Hle.
    assert (pow2 (-53) <= 1).
    { rewrite <- pow2_0. apply pow2_le. lia. }
    pose proof (pow2_pos 1023). pose proof (pow2_pos (-53)). nra.
Qed.

(** *** Valid doubles *)

Lemma valid_finite_inv (s : bool) (m : positive) (e : Z) :
  valid_binary (S754_finite s m e) = true ->
  (-1074 <= e <= 971)%Z
  /\ (Zdigits2 (Zpos m) <= 53)%Z
  /\ ((-1074 < e)%Z -> Zdigits2 (Zpos m) = 53%Z)
  /\ fexp64 (Zdigits2 (Zpos m) + e) = e.
Proof.
  unfold valid_binary, bounded, canonical_mantissa.
  fold (fexp64 (Zpos (digits2_pos m) + e)).
  change (emax - prec)%Z with 971%Z. simpl Zdigits2.
  intros H. apply andb_prop in H. destruct H as [H1 H2].
  apply Z.eqb_eq in H1. apply Z.leb_le in H2.
  rewrite fexp64_eq in *. lia.
Qed.

Lemma sgn_mult (s1 s2 : bool) (a b : R) :
  sgn s1 a * sgn s2 b = sgn (xorb s1 s2) (a * b).
Proof. destruct s1, s2; simpl; lra. Qed.

Lemma sgn_div (s1 s2 : bool) (a b : R) :
  b <> 0 -> sgn s1 a / sgn s2 b = sgn (xorb s1 s2) (a / b).
Proof. intros Hb. destruct s1, s2; simpl; field; lra. Qed.

Lemma sgn_abs (s : bool) (a : R) : 0 <= a -> Rabs (sgn s a) = a.
Proof.
  intros H. destruct s; simpl; [rewrite Rabs_Ropp|]; now apply Rabs_pos_eq.
Qed.

Lemma sgn_minus (s : bool) (a b : R) :
  Rabs (sgn s a - sgn s b) = Rabs (a - b).
Proof.
  destruct s; simpl; [|reflexivity].
  replace (- a - - b) with (- (a - b)) by lra. apply Rabs_Ropp.
Qed.

Lemma mantissa_pos (m : positive) (e : Z) : 0 < IZR (Zpos m) * pow2 e.
Proof.
  apply Rmult_lt_0_compat; [apply IZR_lt; lia | apply pow2_pos].
Qed.

(** *** Multiplication *)

Lemma Zdigits2_mul (m1 m2 : positive) :
  (Zdigits2 (Zpos m1) + Zdigits2 (Zpos m2) - 1
   <= Zdigits2 (Zpos (m1 * m2)))%Z.
Proof.
  destruct (Zdigits2_bounds (Zpos m1)) as (Hd1 & Hlo1 & _); [lia|].
  destruct (Zdigits2_bounds (Zpos m2)) as (Hd2 & Hlo2 & _); [lia|].
  apply Zdigits2_ge; [lia|].
  rewrite Pos2Z.inj_mul, mult_IZR.
  replace (Zdigits2 (Zpos m1) + Zdigits2 (Zpos m2) - 1 - 1)%Z
    with ((Zdigits2 (Zpos m1) - 1) + (Zdigits2 (Zpos m2) - 1))%Z by lia.
  rewrite pow2_add.
  pose proof (pow2_pos (Zdigits2 (Zpos m1) - 1)).
  pose proof (pow2_pos (Zdigits2 (Zpos m2) - 1)). nra.
Qed.

Lemma SFmul_finite (sx : bool) (mx : positive) (ex : Z)
    (sy : bool) (my : positive) (ey : Z) :
  valid_binary (S754_finite sx mx ex) = true ->
  valid_binary (S754_finite sy my ey) = true ->
  let X := IZR (Zpos mx) * pow2 ex * (IZR (Zpos my) * pow2 ey) in
  let s := xorb sx sy in
  let r := SFmul prec emax (S754_finite sx mx ex) (S754_finite sy my ey) in
  valid_binary r = true
  /\ ((r = S754_infinity s /\ pow2 1023 <= X)
      \/ (exists V : R,
            SF2R r = sgn s V /\ 0 <= V
            /\ (r = S754_zero s \/ exists m' e', r = S754_finite s m' e')
            /\ Rabs (V - X) <= pow2 (-53) * X + pow2 (-1075)
            /\ (pow2 (-1022) <= X -> Rabs (V - X) <= pow2 (-53) * X)
            /\ (0 < V -> pow2 (-1074) <= V)
            /\ (forall j : Z,
                   X = IZR j
                       * pow2 (fexp64 (Zdigits2 (Zpos (mx * my))
                                       + (ex + ey))) ->
                   V = X))).
Proof.
  intros Hvx Hvy X s r.
  destruct (valid_finite_inv _ _ _ Hvx) as (Hex & Hdx & Hnx & _).
  destruct (valid_finite_inv _ _ _ Hvy) as (Hey & Hdy & Hny & _).
  pose proof (Zdigits2_mul mx my) as Hd.
  destruct (Zdigits2_bounds (Zpos mx)) as (Hd1 & _); [lia|].
  destruct (Zdigits2_bounds (Zpos my)) as (Hd2 & _); [lia|].
  assert (HE : (ex + ey <= fexp64 (Zdigits2 (Zpos (mx * my)) + (ex + ey)))%Z).
  { rewrite fexp64_eq.
    destruct (Z_le_gt_dec ex (-1074)) as [H1|H1];
      destruct (Z_le_gt_dec ey (-1074)) as [H2|H2];
      try (assert (Zdigits2 (Zpos mx) = 53%Z) by (apply Hnx; lia));
      try (assert (Zdigits2 (Zpos my) = 53%Z) by (apply Hny; lia));
      lia. }
  assert (Hrep : rep (shr_record_of_loc (Zpos (mx * my)) loc_Exact)
                     (IZR (Zpos (mx * my))))
    by (unfold rep, located; simpl; split; [lia | reflexivity]).
  pose proof (binary_round_aux_error s _ _ _ _ Hrep HE) as H.
  cbv zeta in H.
  replace (IZR (Zpos (mx * my)) * pow2 (ex + ey)) with X in H
    by (unfold X; rewrite Pos2Z.inj_mul, mult_IZR, pow2_add; ring).
  exact H.
Qed.

(** *** Division *)

Lemma new_location_rep (my q r : Z) :
  (0 < my)%Z -> (0 <= q)%Z -> (0 <= r < my)%Z ->
  rep (shr_record_of_loc q (new_location my r)) (IZR q + IZR r / IZR my).
Proof.
  intros Hmy Hq Hr.
  assert (HmyR : 0 < IZR my) by (apply IZR_lt; lia).
  assert (Hr0 : 0 <= IZR r) by (apply IZR_le; lia).
  assert (Hfrac : forall c : R, 
            (IZR r / IZR my < c <-> IZR r < c * IZR my)
            /\ (c < IZR r / IZR my <-> c * IZR my < IZR r)).
  { intros c. unfold Rdiv. split; split; intros H.
    - apply Rmult_lt_reg_r with (/ IZR my);
        [now apply Rinv_0_lt_compat|].
      rewrite Rmult_assoc, Rinv_r by lra. lra.
    - apply Rmult_lt_compat_r with (r := / IZR my) in H;
        [|now apply Rinv_0_lt_compat].
      rewrite Rmult_assoc, Rinv_r in H by lra. lra.
    - apply Rmult_lt_reg_r with (/ IZR my);
        [now apply Rinv_0_lt_compat|].
      rewrite Rmult_assoc, Rinv_r by lra. lra.
    - apply Rmult_lt_compat_r with (r := / IZR my) in H;
        [|now apply Rinv_0_lt_compat].
      rewrite Rmult_assoc, Rinv_r in H by lra. lra. }
  assert (Hlt1 : IZR r / IZR my < 1)
    by (apply (Hfrac 1); rewrite Rmult_1_l; apply IZR_lt; lia).
  assert (Hcases :
    forall c : comparison,
      r <> 0%Z -> (2 * r ?= my)%Z = c ->
      rep (shr_record_of_loc q (loc_Inexact c)) (IZR q + IZR r / IZR my)).
  { intros c Hne Hc. unfold rep.
    assert (0 < IZR r) by (apply IZR_lt; lia).
    assert (0 < IZR r / IZR my)
      by (apply (Hfrac 0); rewrite Rmult_0_l; assumption).
    destruct c; simpl; (split; [assumption|]).
    - apply Z.compare_eq in Hc.
      assert (IZR r / IZR my = / 2).
      { apply Rmult_eq_reg_r with (IZR my); [|lra].
        unfold Rdiv. rewrite Rmult_assoc, Rinv_l by lra.
        rewrite <- Hc, mult_IZR. lra. }
      lra.
    - rewrite Z.compare_lt_iff in Hc. apply IZR_lt in Hc.
      rewrite mult_IZR in Hc.
      assert (IZR r / IZR my < / 2) by (apply Hfrac; lra). lra.
    - rewrite Z.compare_gt_iff in Hc. apply IZR_lt in Hc.
      rewrite mult_IZR in Hc.
      assert (/ 2 < IZR r / IZR my) by (apply Hfrac; lra). lra. }
  assert (Hexact : r = 0%Z ->
            rep (shr_record_of_loc q loc_Exact) (IZR q + IZR r / IZR my)).
  { intros ->. unfold rep, located, Rdiv. simpl. split; [assumption | lra]. }
  unfold new_location. destruct (Z.even my) eqn:Hev.
  - unfold new_location_even.
    destruct (Z.eqb_spec r 0) as [Hr00|Hr00]; [now apply Hexact|].
    now apply Hcases.
  - unfold new_location_odd.
    destruct (Z.eqb_spec r 0) as [Hr00|Hr00]; [now apply Hexact|].
    assert (Hodd : Z.odd my = true) by (rewrite <- Z.negb_even, Hev; auto).
    apply Z.odd_spec in Hodd. destruct Hodd as [j Hj].
    destruct (2 * r + 1 ?= my)%Z eqn:Hc.
    + apply Z.compare_eq in Hc. apply Hcases; [assumption|].
      apply Z.compare_lt_iff. lia.
    + rewrite Z.compare_lt_iff in Hc. apply Hcases; [assumption|].
      apply Z.compare_lt_iff. lia.
    + rewrite Z.compare_gt_iff in Hc. apply Hcases; [assumption|].
      apply Z.compare_gt_iff. lia.
Qed.

Lemma SFdiv_core_binary_rep (mx : positive) (ex : Z) (my : positive)
    (ey : Z) :
  valid_binary (S754_finite false mx ex) = true ->
  valid_binary (S754_finite false my ey) = true ->
  exists q e' l y,
    SFdiv_core_binary prec emax (Zpos mx) ex (Zpos my) ey = (q, e', l)
    /\ rep (shr_record_of_loc q l) y
    /\ y * pow2 e'
       = IZR (Zpos mx) * pow2 ex / (IZR (Zpos my) * pow2 ey)
    /\ (e' <= fexp64 (Zdigits2 q + e'))%Z.
Proof.
  intros Hvx Hvy.
  destruct (valid_finite_inv _ _ _ Hvx) as (Hex & Hdx & Hnx & _).
  destruct (valid_finite_inv _ _ _ Hvy) as (Hey & Hdy & Hny & _).
  destruct (Zdigits2_bounds (Zpos mx)) as (Hd1 & Hlo1 & Hhi1); [lia|].
  destruct (Zdigits2_bounds (Zpos my)) as (Hd2 & Hlo2 & Hhi2); [lia|].
  unfold SFdiv_core_binary.
  set (d1 := Zdigits2 (Zpos mx)) in *. set (d2 := Zdigits2 (Zpos my)) in *.
  fold (fexp64 (d1 + ex - (d2 + ey))).
  set (e' := Z.min (fexp64 (d1 + ex - (d2 + ey))) (ex - ey)).
  set (s := (ex - ey - e')%Z).
  assert (Hs : (0 <= s)%Z) by (unfold s, e'; lia).
  set (m' := match s with
             | Zpos _ => Z.shiftl (Zpos mx) s
             | Z0 => Zpos mx
             | Zneg _ => 0%Z
             end).
  assert (Hm' : m' = (Zpos mx * 2 ^ s)%Z).
  { unfold m'. destruct s as [|p|p] eqn:Hsp; [simpl; lia | | lia].
    rewrite Z.shiftl_mul_pow2 by lia. reflexivity. }
  pose proof (Z_div_mod m' (Zpos my) (eq_refl _)) as Hdm.
  destruct (Z.div_eucl m' (Zpos my)) as [q r]. destruct Hdm as [Hdm Hr].
  assert (Hpow : (0 < 2 ^ s)%Z) by (apply Z.pow_pos_nonneg; lia).
  assert (Hq : (0 <= q)%Z) by nia.
  exists q, e', (new_location (Zpos my) r), (IZR q + IZR r / IZR (Zpos my)).
  split; [reflexivity|].
  split; [apply new_location_rep; lia|].
  assert (HmyR : 0 < IZR (Zpos my)) by (apply IZR_lt; lia).
  split.
  - assert (Hy : IZR q + IZR r / IZR (Zpos my) = IZR m' / IZR (Zpos my)).
    { rewrite Hdm, plus_IZR, mult_IZR. field. lra. }
    rewrite Hy, Hm', mult_IZR, <- pow2_IZR by assumption.
    assert (Hpe : pow2 ex = pow2 s * pow2 e' * pow2 ey)
      by (rewrite <- !pow2_add; f_equal; unfold s; lia).
    rewrite Hpe. pose proof (pow2_pos ey). field. lra.
  - destruct (Z_le_gt_dec e' (-1074)) as [Hle|Hgt].
    + rewrite fexp64_eq. lia.
    + assert (He' : e' = (d1 + ex - (d2 + ey) - 53)%Z)
        by (unfold e' in *; rewrite fexp64_eq in *; lia).
      assert (Hs' : s = (53 + d2 - d1)%Z) by (unfold s; lia).
      assert (Hd1' : d1 = 53%Z \/ (d1 <= 53)%Z) by lia.
      assert (Hq52 : (2 ^ 52 <= q)%Z).
      { assert (Hlo : (2 ^ (52 + d2) <= m')%Z).
        { rewrite Hm'.
          assert (H1 : (2 ^ (d1 - 1) <= Zpos mx)%Z).
          { apply le_IZR. rewrite <- pow2_IZR by lia. exact Hlo1. }
          replace (52 + d2)%Z with ((d1 - 1) + s)%Z by lia.
          rewrite Z.pow_add_r by lia. nia. }
        assert (Hhi : (Zpos my < 2 ^ d2)%Z).
        { apply lt_IZR. rewrite <- pow2_IZR by lia. exact Hhi2. }
        rewrite Z.pow_add_r in Hlo by lia.
        assert (0 < 2 ^ d2)%Z by (apply Z.pow_pos_nonneg; lia).
        assert (2 ^ 52 < q + 1)%Z by nia.
        lia. }
      assert (Hdq : (53 <= Zdigits2 q)%Z).
      { apply Zdigits2_ge; [lia|]. rewrite pow2_IZR by lia.
        apply IZR_le. exact Hq52. }
      rewrite fexp64_eq. lia.
Qed.

Lemma SFdiv_finite (sx : bool) (mx : positive) (ex : Z)
    (sy : bool) (my : positive) (ey : Z) :
  valid_binary (S754_finite sx mx ex) = true ->
  valid_binary (S754_finite sy my ey) = true ->
  let X := IZR (Zpos mx) * pow2 ex / (IZR (Zpos my) * pow2 ey) in
  let s := xorb sx sy in
  let r := SFdiv prec emax (S754_finite sx mx ex) (S754_finite sy my ey) in
  valid_binary r = true
  /\ ((r = S754_infinity s /\ pow2 1023 <= X)
      \/ (exists V : R,
            SF2R r = sgn s V /\ 0 <= V
            /\ (r = S754_zero s \/ exists m' e', r = S754_finite s m' e')
            /\ Rabs (V - X) <= pow2 (-53) * X + pow2 (-1075)
            /\ (pow2 (-1022) <= X -> Rabs (V - X) <= pow2 (-53) * X)
            /\ (0 < V -> pow2 (-1074) <= V))).
Proof.
  intros Hvx Hvy X s r.
  destruct (SFdiv_core_binary_rep mx ex my ey Hvx Hvy)
    as (q & e' & l & y & Hcore & Hrep & Hval & HE).
  pose proof (binary_round_aux_error s _ _ _ _ Hrep HE) as H.
  cbv zeta in H. rewrite Hval in H. fold X in H.
  unfold r, SFdiv. rewrite Hcore.
  destruct H as [Hv [H|(V & H1 & H2 & H3 & H4 & H5 & H6 & _)]].
  - split; [exact Hv | now left].
  - split; [exact Hv|]. right. exists V. tauto.
Qed.

(** *** Comparison *)

Lemma lt_exponent (m1 : positive) (e1 : Z) (m2 : positive) (e2 : Z) :
  valid_binary (S754_finite false m1 e1) = true ->
  valid_binary (S754_finite false m2 e2) = true ->
  (e1 < e2)%Z ->
  IZR (Zpos m1) * pow2 e1 < IZR (Zpos m2) * pow2 e2.
Proof.
  intros Hv1 Hv2 Hlt.
  destruct (valid_finite_inv _ _ _ Hv1) as (He1 & Hd1 & _ & _).
  destruct (valid_finite_inv _ _ _ Hv2) as (He2 & _ & Hn2 & _).
  destruct (Zdigits2_bounds (Zpos m1)) as (_ & _ & Hhi1); [lia|].
  destruct (Zdigits2_bounds (Zpos m2)) as (_ & Hlo2 & _); [lia|].
  rewrite Hn2 in Hlo2 by lia.
  assert (H53 : pow2 (Zdigits2 (Zpos m1)) <= pow2 53) by (apply pow2_le; lia).
  assert (Hp : pow2 53 * pow2 e1 <= pow2 (53 - 1) * pow2 e2).
  { rewrite <- !pow2_add. apply pow2_le. lia. }
  pose proof (pow2_pos e1). pose proof (pow2_pos e2). nra.
Qed.

Lemma compare_mantissas (m1 : positive) (e1 : Z) (m2 : positive) (e2 : Z) :
  valid_binary (S754_finite false m1 e1) = true ->
  valid_binary (S754_finite false m2 e2) = true ->
  let V1 := IZR (Zpos m1) * pow2 e1 in
  let V2 := IZR (Zpos m2) * pow2 e2 in
  ((e1 ?= e2)%Z = Lt /\ V1 < V2)
  \/ ((e1 ?= e2)%Z = Gt /\ V2 < V1)
  \/ ((e1 ?= e2)%Z = Eq
      /\ ((Pos.compare_cont Eq m1 m2 = Lt /\ V1 < V2)
          \/ (Pos.compare_cont Eq m1 m2 = Eq /\ V1 = V2)
          \/ (Pos.compare_cont Eq m1 m2 = Gt /\ V2 < V1))).
Proof.
  intros Hv1 Hv2 V1 V2.
  destruct (Z.compare_spec e1 e2) as [Heq|Hlt|Hgt].
  - right. right. split; [reflexivity|].
    subst e2. change (Pos.compare_cont Eq m1 m2) with (Pos.compare m1 m2).
    pose proof (pow2_pos e1).
    destruct (Pos.compare_spec m1 m2) as [Hm|Hm|Hm].
    + right. left. split; [reflexivity|]. unfold V1, V2. now rewrite Hm.
    + left. split; [reflexivity|].
      assert (IZR (Zpos m1) < IZR (Zpos m2)) by (apply IZR_lt; lia).
      unfold V1, V2. nra.
    + right. right. split; [reflexivity|].
      assert (IZR (Zpos m2) < IZR (Zpos m1)) by (apply IZR_lt; lia).
      unfold V1, V2. nra.
  - left. split; [reflexivity|]. now apply lt_exponent.
  - right. left. split; [reflexivity|]. now apply lt_exponent.
Qed.

Lemma valid_sign (s s' : bool) (m : positive) (e : Z) :
  valid_binary (S754_finite s m e) = valid_binary (S754_finite s' m e).
Proof. reflexivity. Qed.

(** [SFcompare] decides [below] and [same]. *)
Lemma SFcompare_spec (a b : spec_float) :
  valid_binary a = true -> valid_binary b = true ->
  notNaN a -> notNaN b ->
  (SFcompare a b = Some Lt /\ below a b)
  \/ (SFcompare a b = Some Eq /\ same a b)
  \/ (SFcompare a b = Some Gt /\ below b a).
Proof.
  intros Hva Hvb Ha Hb.
  destruct a as [sa|sa| |sa ma ea]; try contradiction;
    destruct b as [sb|sb| |sb mb eb]; try contradiction;
    unfold below, same; cbn [SFcompare rank]; rewrite ?SF2R_finite;
    cbn [SF2R].
  - right. left. tauto.
  - destruct sb; [right; right | left]; split; auto; lia.
  - pose proof (mantissa_pos mb eb).
    destruct sb; cbn [sgn]; [right; right | left]; split; auto; right;
      split; auto; lra.
  - destruct sa; [left | right; right]; split; auto; lia.
  - destruct sa, sb; [right; left | left | right; right | right; left];
      split; auto; lia.
  - destruct sa; [left | right; right]; split; auto; lia.
  - pose proof (mantissa_pos ma ea).
    destruct sa; cbn [sgn]; [left | right; right]; split; auto; right;
      split; auto; lra.
  - destruct sb; [right; right | left]; split; auto; lia.
  - pose proof (mantissa_pos ma ea). pose proof (mantissa_pos mb eb).
    rewrite (valid_sign sa false) in Hva. rewrite (valid_sign sb false) in Hvb.
    destruct (compare_mantissas ma ea mb eb Hva Hvb)
      as [[Hc H']|[[Hc H']|[Hc [[Hp H']|[[Hp H']|[Hp H']]]]]];
      destruct sa, sb; cbn [sgn]; rewrite ?Hc, ?Hp; cbn [CompOpp];
      first [ left; split; [reflexivity|]; right; split; [reflexivity|]; lra
            | right; left; split; [reflexivity|]; split; [reflexivity|]; lra
            | right; right; split; [reflexivity|]; right;
              split; [reflexivity|]; lra ].
Qed.

Lemma below_irrefl (a b : spec_float) : below a b -> ~ same a b.
Proof. unfold below, same. intros [H|[H1 H2]] [H3 H4]; [lia | lra]. Qed.

Lemma below_asym (a b : spec_float) : below a b -> ~ below b a.
Proof. unfold below. intros [H|[H1 H2]] [H3|[H3 H4]]; try lia; lra. Qed.

Lemma SFltb_below (a b : spec_float) :
  valid_binary a = true -> valid_binary b = true ->
  notNaN a -> notNaN b ->
  (SFltb a b = true <-> below a b).
Proof.
  intros Hva Hvb Ha Hb. unfold SFltb.
  destruct (SFcompare_spec a b Hva Hvb Ha Hb) as [[-> H]|[[-> H]|[-> H]]].
  - tauto.
  - split; [discriminate|]. intros H'. now apply below_irrefl in H'.
  - split; [discriminate|]. intros H'. now apply below_asym in H'.
Qed.

Lemma SFleb_not_below (a b : spec_float) :
  valid_binary a = true -> valid_binary b = true ->
  notNaN a -> notNaN b ->
  (SFleb a b = true <-> ~ below b a).
Proof.
  intros Hva Hvb Ha Hb. unfold SFleb.
  destruct (SFcompare_spec a b Hva Hvb Ha Hb) as [[-> H]|[[-> H]|[-> H]]].
  - split; [|reflexivity]. intros _. now apply below_asym.
  - split; [|reflexivity]. intros _ H'. apply below_irrefl in H'.
    apply H'. destruct H as [H1 H2]. split; auto.
  - split; [discriminate | tauto].
Qed.

Lemma SFeqb_same (a b : spec_float) :
  valid_binary a = true -> valid_binary b = true ->
  notNaN a -> notNaN b ->
  (SFeqb a b = true <-> same a b).
Proof.
  intros Hva Hvb Ha Hb. unfold SFeqb.
  destruct (SFcompare_spec a b Hva Hvb Ha Hb) as [[-> H]|[[-> H]|[-> H]]].
  - split; [discriminate|]. intros H'. now apply below_irrefl in H.
  - tauto.
  - split; [discriminate|]. intros [H1 H2]. apply below_irrefl in H.
    exfalso. apply H. split; auto.
Qed.

Lemma SFcompare_nan_l (b : spec_float) : SFcompare S754_nan b = None.
Proof. reflexivity. Qed.

Lemma SFcompare_nan_r (a : spec_float) : SFcompare a S754_nan = None.
Proof. destruct a; reflexivity. Qed.

(** *** Alignment and [binary_round] *)

Lemma iter_xO (m d : positive) :
  Zpos (Pos.iter xO m d) = (Zpos m * 2 ^ Zpos d)%Z.
Proof.
  apply (Pos.iter_ind _ xO m
           (fun p a => Zpos a = (Zpos m * 2 ^ Zpos p)%Z)).
  - simpl. lia.
  - intros p a IH. rewrite Pos2Z.inj_xO, IH, Pos2Z.inj_succ.
    rewrite Z.pow_succ_r by lia. lia.
Qed.

Lemma Zdigits2_shift (m : positive) (k : Z) :
  (0 <= k)%Z ->
  Zdigits2 (Zpos m * 2 ^ k) = (Zdigits2 (Zpos m) + k)%Z.
Proof.
  intros Hk.
  destruct (Zdigits2_bounds (Zpos m)) as (Hd & Hlo & Hhi); [lia|].
  assert (Hpos : (0 < Zpos m * 2 ^ k)%Z).
  { assert (0 < 2 ^ k)%Z by (apply Z.pow_pos_nonneg; lia). lia. }
  pose proof (pow2_pos k).
  apply Z.le_antisymm.
  - apply Zdigits2_le; [assumption|].
    rewrite mult_IZR, <- pow2_IZR, pow2_add by assumption. nra.
  - apply Zdigits2_ge; [assumption|].
    rewrite mult_IZR, <- pow2_IZR by assumption.
    replace (Zdigits2 (Zpos m) + k - 1)%Z
      with ((Zdigits2 (Zpos m) - 1) + k)%Z by lia.
    rewrite pow2_add. nra.
Qed.

Lemma shl_align_spec (m : positive) (e e' : Z) :
  exists m',
    shl_align m e e' = (m', Z.min e e')
    /\ Zpos m' = (Zpos m * 2 ^ (e - Z.min e e'))%Z.
Proof.
  unfold shl_align. destruct (e' - e)%Z as [|p|p] eqn:Hd.
  - exists m. replace (Z.min e e') with e by lia.
    rewrite Z.sub_diag. split; [reflexivity | simpl; lia].
  - exists m. replace (Z.min e e') with e by lia.
    rewrite Z.sub_diag. split; [reflexivity | simpl; lia].
  - exists (Pos.iter xO m p). replace (Z.min e e') with e' by lia.
    split; [reflexivity|]. rewrite iter_xO. f_equal. f_equal. lia.
Qed.

Lemma shl_align_value (m m' : positive) (e e'' : Z) :
  (e'' <= e)%Z -> Zpos m' = (Zpos m * 2 ^ (e - e''))%Z ->
  IZR (Zpos m') * pow2 e'' = IZR (Zpos m) * pow2 e
  /\ (Zdigits2 (Zpos m') + e'' = Zdigits2 (Zpos m) + e)%Z.
Proof.
  intros Hle Hm. rewrite Hm. split.
  - rewrite mult_IZR, <- pow2_IZR by lia.
    rewrite Rmult_assoc, <- pow2_add. f_equal. f_equal. lia.
  - rewrite Zdigits2_shift by lia. lia.
Qed.

(** [binary_round]: the rounding of [m * 2^e], for any exponent. *)
Lemma binary_round_error (s : bool) (m : positive) (e : Z) :
  let X := IZR (Zpos m) * pow2 e in
  let r := binary_round prec emax s m e in
  valid_binary r = true
  /\ ((r = S754_infinity s /\ pow2 1023 <= X)
      \/ (exists V : R,
            SF2R r = sgn s V /\ 0 <= V
            /\ (r = S754_zero s \/ exists m' e', r = S754_finite s m' e')
            /\ Rabs (V - X) <= pow2 (-53) * X + pow2 (-1075)
            /\ (pow2 (-1022) <= X -> Rabs (V - X) <= pow2 (-53) * X)
            /\ (0 < V -> pow2 (-1074) <= V)
            /\ (forall j : Z,
                   X = IZR j * pow2 (fexp64 (Zdigits2 (Zpos m) + e)) ->
                   V = X))).
Proof.
  intros X r. unfold r, binary_round.
  fold (fexp64 (Zpos (digits2_pos m) + e)).
  change (Zpos (digits2_pos m)) with (Zdigits2 (Zpos m)).
  set (F := fexp64 (Zdigits2 (Zpos m) + e)).
  destruct (shl_align_spec m e F) as (m' & -> & Hm').
  destruct (shl_align_value m m' e (Z.min e F)) as [Hval Hdig];
    [lia | assumption |].
  assert (HE : (Z.min e F
                <= fexp64 (Zdigits2 (Zpos m') + Z.min e F))%Z)
    by (rewrite Hdig; fold F; lia).
  assert (Hrep : rep (shr_record_of_loc (Zpos m') loc_Exact)
                     (IZR (Zpos m')))
    by (unfold rep, located; simpl; split; [lia | reflexivity]).
  pose proof (binary_round_aux_error s _ _ _ _ Hrep HE) as H.
  cbv zeta in H. rewrite Hval, Hdig in H. fold X in H. fold F in H.
  exact H.
Qed.

(** A rounded multiple of [2^-1074] is not zero. *)
Lemma binary_round_nonzero (s : bool) (m : positive) (e : Z) :
  (-1074 <= e)%Z ->
  binary_round prec emax s m e = S754_infinity s
  \/ exists m' e', binary_round prec emax s m e = S754_finite s m' e'.
Proof.
  intros He.
  destruct (binary_round_error s m e)
    as [_ [[H _]|(V & HV & HV0 & Hform & Herr & _)]]; [now left|].
  destruct Hform as [Hz|Hf]; [|now right]. exfalso.
  rewrite Hz in HV. simpl in HV.
  assert (HV' : V = 0) by (destruct s; simpl in HV; lra).
  rewrite HV' in Herr.
  assert (HX : pow2 (-1074) <= IZR (Zpos m) * pow2 e).
  { assert (1 <= IZR (Zpos m)) by (apply IZR_le; lia).
    assert (pow2 (-1074) <= pow2 e) by (apply pow2_le; lia).
    pose proof (pow2_pos (-1074)). nra. }
  apply Rabs_le_inv in Herr.
  rewrite pow2_m1075 in HX.
  assert (pow2 (-53) <= / 4).
  { replace (/ 4) with (pow2 (-2)) by (unfold pow2; simpl; lra).
    apply pow2_le. lia. }
  pose proof (pow2_pos (-1075)). pose proof (pow2_pos (-53)).
  pose proof (mantissa_pos m e). nra.
Qed.

(** *** The sign of a difference *)

Lemma cond_Zopp_IZR (s : bool) (m : Z) : IZR (cond_Zopp s m) = sgn s (IZR m).
Proof. destruct s; simpl; [apply opp_IZR | reflexivity]. Qed.

(** [a - b] is negative, zero or positive as [a] is below, the same as
    or above [b]; the difference of two infinities of one sign is NaN. *)
Lemma SFsub_sign (a b : spec_float) :
  valid_binary a = true -> valid_binary b = true ->
  notNaN a -> notNaN b ->
  SFltb (SFsub prec emax a b) SFzero = SFltb a b
  /\ SFltb SFzero (SFsub prec emax a b) = SFltb b a.
Proof.
  intros Hva Hvb Ha Hb.
  destruct a as [sa|sa| |sa ma ea]; try contradiction;
    destruct b as [sb|sb| |sb mb eb]; try contradiction;
    try (destruct sa, sb; split; reflexivity);
    try (destruct sa; split; reflexivity);
    try (destruct sb; split; reflexivity).
  (* two finite doubles *)
  destruct (valid_finite_inv _ _ _ Hva) as (Hea & _).
  destruct (valid_finite_inv _ _ _ Hvb) as (Heb & _).
  cbn [SFsub]. set (ez := Z.min ea eb).
  destruct (shl_align_spec ma ea ez) as (ma' & -> & Hma').
  destruct (shl_align_spec mb eb ez) as (mb' & -> & Hmb').
  cbn [fst].
  replace (Z.min ea ez) with ez in Hma' by (unfold ez; lia).
  replace (Z.min eb ez) with ez in Hmb' by (unfold ez; lia).
  destruct (shl_align_value ma ma' ea ez) as [Hvala _];
    [unfold ez; lia | assumption |].
  destruct (shl_align_value mb mb' eb ez) as [Hvalb _];
    [unfold ez; lia | assumption |].
  set (D := (cond_Zopp sa (Zpos ma') - cond_Zopp sb (Zpos mb'))%Z).
  assert (HD : IZR D * pow2 ez
               = SF2R (S754_finite sa ma ea) - SF2R (S754_finite sb mb eb)).
  { unfold D. rewrite minus_IZR, !cond_Zopp_IZR, !SF2R_finite.
    rewrite <- Hvala, <- Hvalb. destruct sa, sb; simpl; lra. }
  pose proof (pow2_pos ez) as Hpz.
  assert (Hlt : SFltb (S754_finite sa ma ea) (S754_finite sb mb eb) = true
                <-> (D < 0)%Z).
  { rewrite SFltb_below by (auto; exact I). unfold below. cbn [rank].
    split.
    - intros [H|[_ H]]; [lia|]. apply lt_IZR. simpl. nra.
    - intros H. right. split; [reflexivity|]. apply IZR_lt in H. nra. }
  assert (Hgt : SFltb (S754_finite sb mb eb) (S754_finite sa ma ea) = true
                <-> (0 < D)%Z).
  { rewrite SFltb_below by (auto; exact I). unfold below. cbn [rank].
    split.
    - intros [H|[_ H]]; [lia|]. apply lt_IZR. simpl. nra.
    - intros H. right. split; [reflexivity|]. apply IZR_lt in H. nra. }
  assert (Hez : (-1074 <= ez)%Z) by (unfold ez; lia).
  destruct D as [|p|p] eqn:HDp; cbn [binary_normalize].
  - split.
    + destruct (SFltb (S754_finite sa ma ea) (S754_finite sb mb eb));
        [|reflexivity]. assert (0 < 0)%Z by (now apply Hlt). lia.
    + destruct (SFltb (S754_finite sb mb eb) (S754_finite sa ma ea));
        [|reflexivity]. assert (0 < 0)%Z by (now apply Hgt). lia.
  - assert (H1 : SFltb (S754_finite sa ma ea) (S754_finite sb mb eb) = false).
    { destruct (SFltb (S754_finite sa ma ea) (S754_finite sb mb eb));
        [|reflexivity]. assert (Zpos p < 0)%Z by (now apply Hlt). lia. }
    assert (H2 : SFltb (S754_finite sb mb eb) (S754_finite sa ma ea) = true)
      by (apply Hgt; lia).
    rewrite H1, H2.
    destruct (binary_round_nonzero false p ez Hez) as [->|(m' & e' & ->)];
      split; reflexivity.
  - assert (H1 : SFltb (S754_finite sa ma ea) (S754_finite sb mb eb) = true)
      by (apply Hlt; lia).
    assert (H2 : SFltb (S754_finite sb mb eb) (S754_finite sa ma ea) = false).
    { destruct (SFltb (S754_finite sb mb eb) (S754_finite sa ma ea));
        [|reflexivity]. assert (0 < Zneg p)%Z by (now apply Hgt). lia. }
    rewrite H1, H2.
    destruct (binary_round_nonzero true p ez Hez) as [->|(m' & e' & ->)];
      split; reflexivity.
Qed.

Lemma SFeqb_refl (a : spec_float) :
  valid_binary a = true -> notNaN a -> SFeqb a a = true.
Proof.
  intros Hv Ha. apply SFeqb_same; auto. split; reflexivity.
Qed.

Lemma is_nan_spec (x : float) : is_nan x = true <-> Prim2SF x = S754_nan.
Proof.
  unfold is_nan. rewrite eqb_spec. split.
  - intros H. destruct (Prim2SF x) eqn:E; try reflexivity; exfalso;
      rewrite SFeqb_refl in H; try discriminate; try exact I;
      rewrite <- E; apply Prim2SF_valid.
  - intros ->. reflexivity.
Qed.

Lemma is_nan_false (x : float) : is_nan x = false <-> notNaN (Prim2SF x).
Proof.
  split.
  - intros H. destruct (Prim2SF x) eqn:E; try exact I.
    apply is_nan_spec in E. congruence.
  - intros H. destruct (is_nan x) eqn:E; [|reflexivity].
    apply is_nan_spec in E. rewrite E in H. contradiction.
Qed.

Lemma Fin_notNaN (x : float) : Fin x -> is_nan x = false.
Proof.
  unfold Fin. intros H. apply is_nan_false.
  destruct (Prim2SF x); try contradiction; exact I.
Qed.

Lemma Fin_rank (x : float) : Fin x -> rank (Prim2SF x) = 0%Z.
Proof. unfold Fin. destruct (Prim2SF x); try contradiction; reflexivity. Qed.

Lemma rank_Fin (x : float) :
  is_nan x = false -> rank (Prim2SF x) = 0%Z -> Fin x.
Proof.
  intros Hn Hr. apply is_nan_false in Hn. unfold Fin.
  destruct (Prim2SF x) as [s|[]| |s m e]; try exact I; try contradiction;
    discriminate.
Qed.

Lemma ltb_true (x y : float) :
  (x <? y)%float = true ->
  is_nan x = false /\ is_nan y = false /\ below (Prim2SF x) (Prim2SF y).
Proof.
  rewrite ltb_spec. intros H.
  assert (Hx : notNaN (Prim2SF x)).
  { destruct (Prim2SF x); try exact I. discriminate. }
  assert (Hy : notNaN (Prim2SF y)).
  { destruct (Prim2SF y); try exact I.
    unfold SFltb in H. rewrite SFcompare_nan_r in H. discriminate. }
  split; [now apply is_nan_false|]. split; [now apply is_nan_false|].
  apply SFltb_below; auto using Prim2SF_valid.
Qed.

Lemma ltb_false (x y : float) :
  is_nan x = false -> is_nan y = false ->
  (x <? y)%float = false -> ~ below (Prim2SF x) (Prim2SF y).
Proof.
  intros Hx Hy H Hb. apply is_nan_false in Hx, Hy.
  apply SFltb_below in Hb; auto using Prim2SF_valid.
  rewrite <- ltb_spec in Hb. congruence.
Qed.

Lemma below_ltb (x y : float) :
  is_nan x = false -> is_nan y = false ->
  below (Prim2SF x) (Prim2SF y) -> (x <? y)%float = true.
Proof.
  intros Hx Hy Hb. apply is_nan_false in Hx, Hy. rewrite ltb_spec.
  apply SFltb_below; auto using Prim2SF_valid.
Qed.

Lemma leb_true (x y : float) :
  (x <=? y)%float = true ->
  is_nan x = false /\ is_nan y = false /\ ~ below (Prim2SF y) (Prim2SF x).
Proof.
  rewrite leb_spec. intros H.
  assert (Hx : notNaN (Prim2SF x)).
  { destruct (Prim2SF x); try exact I. discriminate. }
  assert (Hy : notNaN (Prim2SF y)).
  { destruct (Prim2SF y); try exact I.
    unfold SFleb in H. rewrite SFcompare_nan_r in H. discriminate. }
  split; [now apply is_nan_false|]. split; [now apply is_nan_false|].
  apply SFleb_not_below; auto using Prim2SF_valid.
Qed.

Lemma not_below_leb (x y : float) :
  is_nan x = false -> is_nan y = false ->
  ~ below (Prim2SF y) (Prim2SF x) -> (x <=? y)%float = true.
Proof.
  intros Hx Hy Hb. apply is_nan_false in Hx, Hy. rewrite leb_spec.
  apply SFleb_not_below; auto using Prim2SF_valid.
Qed.

(** A comparison with a NaN is false. *)
Lemma ltb_nan (x y : float) :
  is_nan x = true \/ is_nan y = true -> (x <? y)%float = false.
Proof.
  intros H. destruct (x <? y)%float eqn:E; [|reflexivity].
  apply ltb_true in E. destruct E as (? & ? & _), H; congruence.
Qed.

Lemma leb_nan (x y : float) :
  is_nan x = true \/ is_nan y = true -> (x <=? y)%float = false.
Proof.
  intros H. destruct (x <=? y)%float eqn:E; [|reflexivity].
  apply leb_true in E. destruct E as (? & ? & _), H; congruence.
Qed.

(** On numbers, [a < b] is the negation of [b <= a]. *)
Lemma ltb_negb_leb (x y : float) :
  is_nan x = false -> is_nan y = false ->
  (x <? y)%float = negb (y <=? x)%float.
Proof.
  intros Hx Hy.
  destruct (x <? y)%float eqn:E1, (y <=? x)%float eqn:E2; try reflexivity.
  - apply ltb_true in E1. apply leb_true in E2. tauto.
  - exfalso. apply (ltb_false _ _ Hx Hy) in E1.
    apply (not_below_leb y x Hy Hx) in E1. congruence.
Qed.

Lemma below_trans (a b c : spec_float) : below a b -> below b c -> below a c.
Proof.
  unfold below. intros [H1|[H1 H1']] [H2|[H2 H2']]; try (left; lia).
  right. split; [lia | lra].
Qed.

Lemma not_below_trans (a b c : spec_float) :
  ~ below b a -> ~ below c b -> ~ below c a.
Proof.
  unfold below. intros H1 H2 H3.
  destruct (Z_lt_ge_dec (rank b) (rank a)) as [H|H]; [apply H1; now left|].
  destruct (Z_lt_ge_dec (rank c) (rank b)) as [H'|H']; [apply H2; now left|].
  destruct H3 as [H3|[H3 H3']]; [lia|].
  destruct (Rlt_dec (SF2R b) (SF2R a)) as [Hr|Hr];
    [apply H1; right; split; [lia | assumption]|].
  destruct (Rlt_dec (SF2R c) (SF2R b)) as [Hr'|Hr'];
    [apply H2; right; split; [lia | assumption]|].
  lra.
Qed.

Lemma leb_trans (x y z : float) :
  (x <=? y)%float = true -> (y <=? z)%float = true -> (x <=? z)%float = true.
Proof.
  intros H1 H2. apply leb_true in H1, H2.
  destruct H1 as (Hx & Hy & H1), H2 as (_ & Hz & H2).
  apply not_below_leb; auto. eapply not_below_trans; eauto.
Qed.

Lemma leb_total (x y : float) :
  is_nan x = false -> is_nan y = false ->
  (x <=? y)%float = true \/ (y <=? x)%float = true.
Proof.
  intros Hx Hy. destruct (x <=? y)%float eqn:E; [now left|]. right.
  apply not_below_leb; auto. intros Hb.
  assert (~ below (Prim2SF y) (Prim2SF x)) by now apply below_asym.
  apply (not_below_leb x y Hx Hy) in H. congruence.
Qed.

(** *** Finite doubles as reals *)

Lemma Fin_ltb (x y : float) :
  Fin x -> Fin y -> ((x <? y)%float = true <-> B2R x < B2R y).
Proof.
  intros Hx Hy. pose proof (Fin_rank x Hx). pose proof (Fin_rank y Hy).
  pose proof (Fin_notNaN x Hx). pose proof (Fin_notNaN y Hy).
  unfold B2R. split.
  - intros H'. apply ltb_true in H'. destruct H' as (_ & _ & [Hb|[_ Hb]]);
      [lia | assumption].
  - intros H'. apply below_ltb; auto. right. split; [lia | assumption].
Qed.

Lemma Fin_leb (x y : float) :
  Fin x -> Fin y -> ((x <=? y)%float = true <-> B2R x <= B2R y).
Proof.
  intros Hx Hy. pose proof (Fin_rank x Hx). pose proof (Fin_rank y Hy).
  pose proof (Fin_notNaN x Hx). pose proof (Fin_notNaN y Hy).
  unfold B2R. split.
  - intros H'. apply leb_true in H'. destruct H' as (_ & _ & Hb).
    destruct (Rle_dec (SF2R (Prim2SF x)) (SF2R (Prim2SF y))); [assumption|].
    exfalso. apply Hb. right. split; [lia | lra].
  - intros H'. apply not_below_leb; auto. intros [Hb|[_ Hb]]; [lia | lra].
Qed.

(** A number between two finite doubles is finite. *)
Lemma between_Fin (a x b : float) :
  Fin a -> Fin b ->
  is_nan x = false -> (x <? a)%float = false -> (b <? x)%float = false ->
  Fin x /\ B2R a <= B2R x <= B2R b.
Proof.
  intros Ha Hb Hx H1 H2.
  pose proof (Fin_rank a Ha) as Hra. pose proof (Fin_rank b Hb) as Hrb.
  apply ltb_false in H1; auto using Fin_notNaN.
  apply ltb_false in H2; auto using Fin_notNaN.
  unfold below in H1, H2.
  assert (Hr : rank (Prim2SF x) = 0%Z).
  { destruct (Z.lt_trichotomy (rank (Prim2SF x)) 0) as [H|[H|H]];
      [exfalso; apply H1; left; lia | assumption
      | exfalso; apply H2; left; lia]. }
  split; [now apply rank_Fin|]. unfold B2R. split.
  - destruct (Rle_dec (SF2R (Prim2SF a)) (SF2R (Prim2SF x))); [assumption|].
    exfalso. apply H1. right. split; [lia | lra].
  - destruct (Rle_dec (SF2R (Prim2SF x)) (SF2R (Prim2SF b))); [assumption|].
    exfalso. apply H2. right. split; [lia | lra].
Qed.

(** *** Products and quotients of finite doubles *)

Lemma rounded_exact (P : R) : rounded P P.
Proof.
  unfold rounded. replace (P - P) with 0 by lra. rewrite Rabs_R0.
  pose proof (Rabs_pos P). pose proof (pow2_pos (-53)).
  pose proof (pow2_pos (-1075)). repeat split; try lra; intros; nra.
Qed.

Lemma rounded_sgn (s : bool) (X V : R) :
  0 < X -> 0 <= V ->
  Rabs (V - X) <= pow2 (-53) * X + pow2 (-1075) ->
  (pow2 (-1022) <= X -> Rabs (V - X) <= pow2 (-53) * X) ->
  rounded (sgn s X) (sgn s V).
Proof.
  intros HX HV H1 H2. unfold rounded.
  rewrite sgn_minus, sgn_abs by lra.
  repeat split; auto; destruct s; simpl; lra.
Qed.

Theorem mul_correct (x y : float) :
  Fin x -> Fin y ->
  Rabs (B2R x * B2R y) < pow2 1023 ->
  Fin (x * y) /\ rounded (B2R x * B2R y) (B2R (x * y)).
Proof.
  unfold Fin, B2R. rewrite mul_spec. unfold SF64mul.
  pose proof (Prim2SF_valid x) as Hvx. pose proof (Prim2SF_valid y) as Hvy.
  destruct (Prim2SF x) as [sx| | |sx mx ex]; try contradiction;
    destruct (Prim2SF y) as [sy| | |sy my ey]; try contradiction;
    intros _ _ Hb;
    try (cbn [SFmul SF2R]; split; [exact I|];
         rewrite ?Rmult_0_l, ?Rmult_0_r; apply rounded_exact).
  destruct (SFmul_finite sx mx ex sy my ey Hvx Hvy)
    as [_ [[_ Hinf]|(V & HV & HV0 & Hform & H1 & H2 & _)]].
  - exfalso. rewrite !SF2R_finite, sgn_mult in Hb.
    pose proof (mantissa_pos mx ex). pose proof (mantissa_pos my ey).
    rewrite sgn_abs in Hb by nra. lra.
  - split; [destruct Hform as [->|(m' & e' & ->)]; exact I|].
    rewrite HV, !SF2R_finite, sgn_mult.
    pose proof (mantissa_pos mx ex). pose proof (mantissa_pos my ey).
    apply rounded_sgn; auto. nra.
Qed.

Theorem div_correct (x y : float) :
  Fin x -> Fin y -> B2R y <> 0 ->
  Rabs (B2R x / B2R y) < pow2 1023 ->
  Fin (x / y) /\ rounded (B2R x / B2R y) (B2R (x / y)).
Proof.
  unfold Fin, B2R. rewrite div_spec. unfold SF64div.
  pose proof (Prim2SF_valid x) as Hvx. pose proof (Prim2SF_valid y) as Hvy.
  destruct (Prim2SF x) as [sx| | |sx mx ex]; try contradiction;
    destruct (Prim2SF y) as [sy| | |sy my ey]; try contradiction;
    intros _ _ Hy0 Hb;
    try (exfalso; apply Hy0; reflexivity);
    try (cbn [SFdiv SF2R]; split; [exact I|];
         unfold Rdiv; rewrite ?Rmult_0_l; apply rounded_exact).
  pose proof (mantissa_pos mx ex). pose proof (mantissa_pos my ey).
  assert (HX : 0 < IZR (Zpos mx) * pow2 ex / (IZR (Zpos my) * pow2 ey))
    by (apply Rdiv_lt_0_compat; assumption).
  destruct (SFdiv_finite sx mx ex sy my ey Hvx Hvy)
    as [_ [[_ Hinf]|(V & HV & HV0 & Hform & H1 & H2 & _)]].
  - exfalso. rewrite !SF2R_finite, sgn_div in Hb by lra.
    rewrite sgn_abs in Hb by lra. lra.
  - split; [destruct Hform as [->|(m' & e' & ->)]; exact I|].
    rewrite HV, !SF2R_finite, sgn_div by lra.
    apply rounded_sgn; auto.
Qed.

(** *** NaN *)

Lemma Prim2SF_nan : Prim2SF nan = S754_nan.
Proof. reflexivity. Qed.

Lemma is_nan_eq (x : float) : is_nan x = true -> x = nan.
Proof.
  intros H. apply is_nan_spec in H. apply Prim2SF_inj.
  now rewrite H, Prim2SF_nan.
Qed.

Lemma mul_nan_l (y : float) : (nan * y)%float = nan.
Proof. apply Prim2SF_inj. rewrite mul_spec, Prim2SF_nan. reflexivity. Qed.

Lemma mul_nan_r (x : float) : (x * nan)%float = nan.
Proof.
  apply Prim2SF_inj. rewrite mul_spec, Prim2SF_nan.
  unfold SF64mul. destruct (Prim2SF x); reflexivity.
Qed.

Lemma div_nan_l (y : float) : (nan / y)%float = nan.
Proof. apply Prim2SF_inj. rewrite div_spec, Prim2SF_nan. reflexivity. Qed.

Lemma div_nan_r (x : float) : (x / nan)%float = nan.
Proof.
  apply Prim2SF_inj. rewrite div_spec, Prim2SF_nan.
  unfold SF64div. destruct (Prim2SF x); reflexivity.
Qed.

Lemma sub_nan_l (y : float) : (nan - y)%float = nan.
Proof. apply Prim2SF_inj. rewrite sub_spec, Prim2SF_nan. reflexivity. Qed.

Lemma sub_nan_r (x : float) : (x - nan)%float = nan.
Proof.
  apply Prim2SF_inj. rewrite sub_spec, Prim2SF_nan.
  unfold SF64sub. destruct (Prim2SF x); reflexivity.
Qed.

Lemma Math_round_nan : Math_round nan = nan.
Proof. reflexivity. Qed.

(** *** The sign of a difference *)

Lemma Prim2SF_zero : Prim2SF zero = SFzero.
Proof. reflexivity. Qed.

(** For two numbers [a - b] compares with 0 as [a] compares with [b]. *)
Theorem sub_sign (a b : float) :
  is_nan a = false -> is_nan b = false ->
  (a - b <? 0)%float = (a <? b)%float
  /\ (0 <? a - b)%float = (b <? a)%float.
Proof.
  intros Ha Hb. apply is_nan_false in Ha, Hb.
  rewrite !ltb_spec, sub_spec.
  change (Prim2SF 0) with SFzero.
  apply SFsub_sign; auto using Prim2SF_valid.
Qed.

(** *** Whole numbers *)

Lemma Prim2SF_ofZ (z : Z) :
  Prim2SF (ofZ z) = binary_normalize prec emax z 0 false.
Proof.
  unfold ofZ. apply Prim2SF_SF2Prim.
  destruct z as [|p|p]; [reflexivity | |]; cbn [binary_normalize];
    apply binary_round_error.
Qed.

Lemma pow2_neg_IZR (k : Z) : (0 <= k)%Z -> pow2 (- k) = / IZR (2 ^ k).
Proof. intros H. now rewrite pow2_opp, pow2_IZR. Qed.

Lemma binary_round_exact (s : bool) (p : positive) :
  (Zpos p <= 2 ^ 53)%Z ->
  exists m e,
    binary_round prec emax s p 0 = S754_finite s m e
    /\ SF2R (S754_finite s m e) = sgn s (IZR (Zpos p)).
Proof.
  intros Hp.
  assert (HpR : IZR (Zpos p) <= pow2 53)
    by (rewrite pow2_IZR by lia; now apply IZR_le).
  assert (H1 : 1 <= IZR (Zpos p)) by (apply IZR_le; lia).
  destruct (binary_round_error s p 0)
    as [_ [[_ Hinf]|(V & HV & HV0 & Hform & _ & _ & _ & Hex)]].
  - exfalso. rewrite pow2_0, Rmult_1_r in Hinf.
    assert (pow2 53 < pow2 1023) by (apply pow2_lt; lia). lra.
  - rewrite pow2_0, Rmult_1_r in Hex.
    assert (HVx : V = IZR (Zpos p)).
    { destruct (Zdigits2_bounds (Zpos p)) as (Hd & Hlo & Hhi); [lia|].
      assert (Hd54 : (Zdigits2 (Zpos p) <= 54)%Z).
      { apply Zdigits2_le; [lia|].
        assert (pow2 53 < pow2 54) by (apply pow2_lt; lia). lra. }
      rewrite Z.add_0_r, fexp64_eq in Hex.
      destruct (Z_le_gt_dec (Zdigits2 (Zpos p)) 53) as [Hle|Hgt].
      - apply (Hex (Zpos p * 2 ^ (53 - Zdigits2 (Zpos p)))%Z).
        replace (Z.max (Zdigits2 (Zpos p) - 53) (-1074))
          with (- (53 - Zdigits2 (Zpos p)))%Z by lia.
        rewrite mult_IZR, <- pow2_IZR, Rmult_assoc, <- pow2_add by lia.
        replace (53 - Zdigits2 (Zpos p) + - (53 - Zdigits2 (Zpos p)))%Z
          with 0%Z by lia. rewrite pow2_0. lra.
      - assert (Hd' : Zdigits2 (Zpos p) = 54%Z) by lia.
        rewrite Hd' in Hlo. change (54 - 1)%Z with 53%Z in Hlo.
        apply (Hex (2 ^ 52)%Z). rewrite Hd'.
        change (Z.max (54 - 53) (-1074)) with 1%Z.
        rewrite <- pow2_IZR, <- pow2_add by lia.
        change (52 + 1)%Z with 53%Z. lra. }
    destruct Hform as [Hz|(m & e & Hf)].
    + exfalso. rewrite Hz in HV. simpl in HV. destruct s; simpl in HV; lra.
    + exists m, e. split; [assumption|]. rewrite <- Hf, HV, HVx. reflexivity.
Qed.

Theorem ofZ_correct (z : Z) :
  (Z.abs z <= 2 ^ 53)%Z -> Fin (ofZ z) /\ B2R (ofZ z) = IZR z.
Proof.
  intros Hz. unfold Fin, B2R. rewrite Prim2SF_ofZ.
  destruct z as [|p|p]; cbn [binary_normalize].
  - split; [exact I | reflexivity].
  - destruct (binary_round_exact false p) as (m & e & -> & HR); [lia|].
    split; [exact I | exact HR].
  - destruct (binary_round_exact true p) as (m & e & -> & HR); [lia|].
    split; [exact I|]. rewrite HR. simpl.
    change (Zneg p) with (- Zpos p)%Z. now rewrite opp_IZR.
Qed.

(** *** Math.round *)

Lemma finite_magnitude (x : float) (s : bool) (m : positive) (e : Z) :
  Prim2SF x = S754_finite s m e -> (0 <= e)%Z -> pow2 52 <= Rabs (B2R x).
Proof.
  intros Hx He. unfold B2R. rewrite Hx, SF2R_finite.
  pose proof (mantissa_pos m e). rewrite sgn_abs by lra.
  pose proof (Prim2SF_valid x) as Hv. rewrite Hx in Hv.
  destruct (valid_finite_inv _ _ _ Hv) as (_ & _ & Hn & _).
  destruct (Zdigits2_bounds (Zpos m)) as (_ & Hlo & _); [lia|].
  rewrite Hn in Hlo by lia. change (53 - 1)%Z with 52%Z in Hlo.
  assert (1 <= pow2 e) by (apply pow2_ge_1; lia).
  pose proof (pow2_pos 52). nra.
Qed.

(** [Math.round] of a double below [2^52] in magnitude: the whole number
    [N = floor(x + 1/2)], as a double; a zero result keeps the sign of
    [x]. *)
Theorem Math_round_correct (x : float) :
  Fin x -> Rabs (B2R x) < pow2 52 ->
  exists N : Z,
    IZR N <= B2R x + / 2 < IZR N + 1
    /\ (N <> 0%Z -> Math_round x = ofZ N)
    /\ (N = 0%Z -> exists s, Prim2SF (Math_round x) = S754_zero s).
Proof.
  intros Hfin Hb. unfold Fin in Hfin. unfold Math_round.
  destruct (Prim2SF x) as [s| | |s m e] eqn:Hx; try contradiction.
  - exists 0%Z. unfold B2R. rewrite Hx. simpl SF2R.
    split; [lra|]. split; [intros H; now contradiction H|].
    intros _. exists s. first [exact Hx | reflexivity].
  - destruct (Z.leb_spec 0 e) as [He|He].
    + exfalso. pose proof (finite_magnitude x s m e Hx He). lra.
    + set (k := (- e)%Z). set (z := cond_Zopp s (Zpos m)).
      set (n := Z.shiftr (2 * z + 2 ^ k) (k + 1)).
      assert (Hk : (0 < k)%Z) by (unfold k; lia).
      assert (Hn : n = ((2 * z + 2 ^ k) / 2 ^ (k + 1))%Z)
        by (unfold n; apply Z.shiftr_div_pow2; lia).
      assert (Hp : (0 < 2 ^ (k + 1))%Z) by (apply Z.pow_pos_nonneg; lia).
      assert (Hlo : (2 ^ (k + 1) * n <= 2 * z + 2 ^ k)%Z)
        by (rewrite Hn; apply Z.mul_div_le; lia).
      assert (Hhi : (2 * z + 2 ^ k < 2 ^ (k + 1) * (n + 1))%Z).
      { rewrite Hn. apply (Z.mul_succ_div_gt (2 * z + 2 ^ k) (2 ^ (k + 1))).
        lia. }
      rewrite Z.pow_add_r, Z.pow_1_r in Hlo, Hhi by lia.
      assert (Hval : B2R x = IZR z / IZR (2 ^ k)).
      { unfold B2R. rewrite Hx. unfold SF2R. fold z.
        replace e with (- k)%Z by (unfold k; lia).
        rewrite pow2_neg_IZR by lia. reflexivity. }
      assert (Hpk : 0 < IZR (2 ^ k))
        by (apply IZR_lt; apply Z.pow_pos_nonneg; lia).
      exists n. split; [|split].
      * rewrite Hval. apply IZR_le in Hlo. apply IZR_lt in Hhi.
        rewrite !mult_IZR, !plus_IZR, ?mult_IZR in Hlo, Hhi.
        simpl (IZR 2) in Hlo, Hhi. simpl (IZR 1) in Hhi.
        assert (Hz : IZR z = IZR z / IZR (2 ^ k) * IZR (2 ^ k))
          by (field; lra).
        rewrite ?plus_IZR in Hhi. rewrite Hz in Hlo, Hhi.
        set (q := IZR z / IZR (2 ^ k)) in *. split.
        -- apply Rnot_lt_le. intros Hc.
           assert (0 < IZR (2 ^ k) * (IZR n - q - / 2))
             by (apply Rmult_lt_0_compat; lra). lra.
        -- apply Rnot_le_lt. intros Hc.
           assert (0 <= IZR (2 ^ k) * (q + / 2 - (IZR n + 1)))
             by (apply Rmult_le_pos; lra). lra.
      * intros Hn0. apply Z.eqb_neq in Hn0. now rewrite Hn0.
      * intros Hn0. rewrite Hn0. simpl. exists s. now destruct s.
Qed.

End NumberFacts.

(** Literals, and bounds through one product or quotient. *)

Module NumberBounds.
Import Floats.
Import Number NumberFacts.
Local Open Scope R_scope.

(** *** Literals and bounds *)

Lemma ofZ_literal (z : Z) (c : float) :
  ofZ z = c -> (Z.abs z <= 2 ^ 53)%Z -> Fin c /\ B2R c = IZR z.
Proof. intros <-. apply ofZ_correct. Qed.

Lemma fraction_literal (c : float) (m : positive) (k : Z) :
  Prim2SF c = S754_finite false m (- k) -> (0 <= k)%Z ->
  Fin c /\ B2R c = IZR (Zpos m) / IZR (2 ^ k).
Proof.
  intros H Hk. unfold Fin, B2R. rewrite H, SF2R_finite.
  split; [exact I|]. cbn [sgn]. now rewrite pow2_neg_IZR.
Qed.

Lemma u_bounds : 0 < pow2 (-53) <= / 9007199254740992.
Proof.
  split; [apply pow2_pos|]. change (-53)%Z with (- (53))%Z.
  rewrite pow2_neg_IZR by lia. change (2 ^ 53)%Z with 9007199254740992%Z.
  lra.
Qed.

Lemma eta_bounds : 0 < pow2 (-1075) <= / 1267650600228229401496703205376.
Proof.
  split; [apply pow2_pos|].
  apply Rle_trans with (pow2 (- (100))); [apply pow2_le; lia|].
  rewrite pow2_neg_IZR by lia.
  change (2 ^ 100)%Z with 1267650600228229401496703205376%Z. lra.
Qed.

Lemma normal_bound : pow2 (-1022) <= / 1024.
Proof.
  apply Rle_trans with (pow2 (- (10))); [apply pow2_le; lia|].
  rewrite pow2_neg_IZR by lia. change (2 ^ 10)%Z with 1024%Z. lra.
Qed.

Lemma huge_bound : 1267650600228229401496703205376 < pow2 1023.
Proof.
  apply Rle_lt_trans with (pow2 100); [|apply pow2_lt; lia].
  rewrite pow2_IZR by lia.
  change (2 ^ 100)%Z with 1267650600228229401496703205376%Z. lra.
Qed.

Lemma Fin_finite_pos (x : float) :
  Fin x -> 0 < B2R x -> exists m e, Prim2SF x = S754_finite false m e.
Proof.
  unfold Fin, B2R. destruct (Prim2SF x) as [s| | |s m e]; try contradiction.
  - simpl. lra.
  - intros _ H. rewrite SF2R_finite in H. pose proof (mantissa_pos m e).
    destruct s; simpl in H; [lra|]. now exists m, e.
Qed.

Lemma between_scaled (P v L H u : R) :
  P * (1 - u) <= v <= P * (1 + u) ->
  L <= P -> P <= H -> 0 <= u <= 1 ->
  L * (1 - u) <= v <= H * (1 + u).
Proof. intros. split; nra. Qed.

(** One rounding of a positive value in the normal range. *)
Lemma rounded_pos (P v : R) :
  rounded P v -> / 1024 <= P ->
  P * (1 - pow2 (-53)) <= v <= P * (1 + pow2 (-53)).
Proof.
  intros (_ & H & _ & _) HP. pose proof normal_bound.
  rewrite Rabs_pos_eq in H by lra.
  assert (H' : Rabs (v - P) <= pow2 (-53) * P) by (apply H; lra).
  apply Rabs_le_inv in H'. lra.
Qed.

(** The product of two positive finite doubles within bounds. *)
Lemma mul_bounds (x y : float) (lx hx ly hy : R) :
  Fin x -> Fin y ->
  0 < lx <= B2R x -> B2R x <= hx -> 0 < ly <= B2R y -> B2R y <= hy ->
  / 1024 <= lx * ly -> hx * hy <= 1267650600228229401496703205376 ->
  Fin (x * y)
  /\ rounded (B2R x * B2R y) (B2R (x * y))
  /\ lx * ly * (1 - pow2 (-53)) <= B2R (x * y)
     <= hx * hy * (1 + pow2 (-53)).
Proof.
  intros Hx Hy [Hlx Hx1] Hx2 [Hly Hy1] Hy2 Hlo Hhi.
  pose proof huge_bound. pose proof u_bounds as [Hu0 Hu1].
  assert (HP1 : lx * ly <= B2R x * B2R y) by nra.
  assert (HP2 : B2R x * B2R y <= hx * hy) by nra.
  destruct (mul_correct x y Hx Hy) as [Hf Hr].
  { rewrite Rabs_pos_eq by nra. lra. }
  split; [exact Hf|]. split; [exact Hr|].
  apply rounded_pos in Hr; [|lra].
  apply between_scaled with (1 := Hr); lra.
Qed.

Lemma div_bounds (x y : float) (lx hx ly hy : R) :
  Fin x -> Fin y ->
  0 < lx <= B2R x -> B2R x <= hx -> 0 < ly <= B2R y -> B2R y <= hy ->
  / 1024 <= lx / hy -> hx / ly <= 1267650600228229401496703205376 ->
  Fin (x / y)
  /\ rounded (B2R x / B2R y) (B2R (x / y))
  /\ lx / hy * (1 - pow2 (-53)) <= B2R (x / y)
     <= hx / ly * (1 + pow2 (-53)).
Proof.
  intros Hx Hy [Hlx Hx1] Hx2 [Hly Hy1] Hy2 Hlo Hhi.
  pose proof huge_bound. pose proof u_bounds as [Hu0 Hu1].
  assert (HP1 : lx / hy <= B2R x / B2R y).
  { unfold Rdiv. apply Rmult_le_compat; try lra.
    - apply Rlt_le, Rinv_0_lt_compat. lra.
    - apply Rinv_le_contravar; lra. }
  assert (HP2 : B2R x / B2R y <= hx / ly).
  { unfold Rdiv. apply Rmult_le_compat; try lra.
    - apply Rlt_le, Rinv_0_lt_compat. lra.
    - apply Rinv_le_contravar; lra. }
  assert (Hl0 : 0 < lx / hy) by (apply Rdiv_lt_0_compat; lra).
  destruct (div_correct x y Hx Hy) as [Hf Hr].
  { lra. }
  { rewrite Rabs_pos_eq by lra. lra. }
  split; [exact Hf|]. split; [exact Hr|].
  apply rounded_pos in Hr; [|lra].
  apply between_scaled with (1 := Hr); lra.
Qed.

End NumberBounds.

(** Signs and NaN through the operations. *)

Module NumberSigns.
Import Floats.
Import Number NumberFacts NumberBounds.
Local Open Scope float_scope.

(** *** Signs and NaN through the operations *)

Lemma leb0_nonneg (x : float) : (0 <=? x) = true <-> nonneg (Prim2SF x).
Proof.
  rewrite leb_spec. change (Prim2SF 0) with (S754_zero false).
  destruct (Prim2SF x) as [s|s| |s m e]; try destruct s; simpl;
    intuition discriminate.
Qed.

Lemma nonneg_notNaN (x : float) : nonneg (Prim2SF x) -> is_nan x = false.
Proof.
  intros H. apply is_nan_false. destruct (Prim2SF x); try exact I.
  contradiction.
Qed.

Lemma binary_round_form (s : bool) (m : positive) (e : Z) :
  binary_round prec emax s m e = S754_infinity s
  \/ binary_round prec emax s m e = S754_zero s
  \/ exists m' e', binary_round prec emax s m e = S754_finite s m' e'.
Proof.
  destruct (binary_round_error s m e) as [_ [[H _]|(V & _ & _ & H & _)]];
    tauto.
Qed.

Lemma SFmul_form (sx : bool) (mx : positive) (ex : Z)
    (sy : bool) (my : positive) (ey : Z) :
  valid_binary (S754_finite sx mx ex) = true ->
  valid_binary (S754_finite sy my ey) = true ->
  let r := SFmul prec emax (S754_finite sx mx ex) (S754_finite sy my ey) in
  r = S754_infinity (xorb sx sy)
  \/ r = S754_zero (xorb sx sy)
  \/ exists m' e', r = S754_finite (xorb sx sy) m' e'.
Proof.
  intros Hx Hy r.
  destruct (SFmul_finite sx mx ex sy my ey Hx Hy)
    as [_ [[H _]|(V & _ & _ & H & _)]]; tauto.
Qed.

Lemma SFdiv_form (sx : bool) (mx : positive) (ex : Z)
    (sy : bool) (my : positive) (ey : Z) :
  valid_binary (S754_finite sx mx ex) = true ->
  valid_binary (S754_finite sy my ey) = true ->
  let r := SFdiv prec emax (S754_finite sx mx ex) (S754_finite sy my ey) in
  r = S754_infinity (xorb sx sy)
  \/ r = S754_zero (xorb sx sy)
  \/ exists m' e', r = S754_finite (xorb sx sy) m' e'.
Proof.
  intros Hx Hy r.
  destruct (SFdiv_finite sx mx ex sy my ey Hx Hy)
    as [_ [[H _]|(V & _ & _ & H & _)]]; tauto.
Qed.

(** A quotient of a double [>= 0] by a positive finite one is [>= 0]. *)
Lemma div_nonneg (t g : float) :
  (0 <=? t) = true -> Fin g -> (0 < B2R g)%R -> (0 <=? t / g) = true.
Proof.
  intros Ht Hg Hpos. apply leb0_nonneg in Ht. apply leb0_nonneg.
  destruct (Fin_finite_pos g Hg Hpos) as (mg & eg & Eg).
  pose proof (Prim2SF_valid t) as Hvt. pose proof (Prim2SF_valid g) as Hvg.
  rewrite div_spec. unfold SF64div. rewrite Eg in *.
  destruct (Prim2SF t) as [s|s| |s m e]; try contradiction.
  - exact I.
  - destruct s; [contradiction | exact I].
  - destruct s; [contradiction|].
    destruct (SFdiv_form false m e false mg eg Hvt Hvg)
      as [H|[H|(m' & e' & H)]]; rewrite H; exact I.
Qed.

Lemma mul_nonneg (a g : float) :
  (0 <=? a) = true -> Fin g -> (0 < B2R g)%R -> (0 <=? a * g) = true.
Proof.
  intros Ha Hg Hpos. apply leb0_nonneg in Ha. apply leb0_nonneg.
  destruct (Fin_finite_pos g Hg Hpos) as (mg & eg & Eg).
  pose proof (Prim2SF_valid a) as Hva. pose proof (Prim2SF_valid g) as Hvg.
  rewrite mul_spec. unfold SF64mul. rewrite Eg in *.
  destruct (Prim2SF a) as [s|s| |s m e]; try contradiction.
  - exact I.
  - destruct s; [contradiction | exact I].
  - destruct s; [contradiction|].
    destruct (SFmul_form false m e false mg eg Hva Hvg)
      as [H|[H|(m' & e' & H)]]; rewrite H; exact I.
Qed.

Lemma ofZ_nonneg (n : Z) : (0 <= n)%Z -> nonneg (Prim2SF (ofZ n)).
Proof.
  intros Hn. rewrite Prim2SF_ofZ. destruct n as [|p|p]; [exact I | | lia].
  cbn [binary_normalize].
  destruct (binary_round_form false p 0) as [H|[H|(m' & e' & H)]];
    rewrite H; exact I.
Qed.

Lemma Math_round_nonneg (x : float) :
  (0 <=? x) = true -> (0 <=? Math_round x) = true.
Proof.
  intros Hx. apply leb0_nonneg in Hx. apply leb0_nonneg.
  unfold Math_round. destruct (Prim2SF x) as [s|s| |s m e] eqn:E;
    try (rewrite E; exact Hx).
  destruct s; [contradiction|].
  destruct (0 <=? e)%Z; [rewrite E; exact I|]. cbn [cond_Zopp].
  destruct (Z.eqb_spec (Z.shiftr (2 * Zpos m + 2 ^ (- e)) (- e + 1)) 0)
    as [_|_]; [exact I|].
  apply ofZ_nonneg. apply Z.shiftr_nonneg.
  pose proof (Z.pow_nonneg 2 (- e)). lia.
Qed.

(** A difference with a finite double, and a product with a positive
    finite double, of a number are numbers. *)
Lemma sub_notNaN (a b : float) :
  is_nan a = false -> Fin b -> is_nan (a - b) = false.
Proof.
  intros Ha Hb. apply is_nan_false in Ha. apply is_nan_false.
  unfold Fin in Hb. rewrite sub_spec. unfold SF64sub.
  destruct (Prim2SF a) as [sa|sa| |sa ma ea]; try contradiction;
    destruct (Prim2SF b) as [sb|sb| |sb mb eb]; try contradiction;
    try (destruct sa, sb; exact I); try exact I.
  cbn [SFsub]. cbv zeta.
  destruct (cond_Zopp sa _ - cond_Zopp sb _)%Z as [|p|p];
    cbn [binary_normalize]; [exact I | |].
  - destruct (binary_round_form false p (Z.min ea eb))
      as [H|[H|(m' & e' & H)]]; rewrite H; exact I.
  - destruct (binary_round_form true p (Z.min ea eb))
      as [H|[H|(m' & e' & H)]]; rewrite H; exact I.
Qed.

Lemma mul_notNaN (a g : float) :
  is_nan a = false -> Fin g -> (0 < B2R g)%R -> is_nan (a * g) = false.
Proof.
  intros Ha Hg Hpos. apply is_nan_false in Ha. apply is_nan_false.
  destruct (Fin_finite_pos g Hg Hpos) as (mg & eg & Eg).
  pose proof (Prim2SF_valid a) as Hva. pose proof (Prim2SF_valid g) as Hvg.
  rewrite mul_spec. unfold SF64mul. rewrite Eg in *.
  destruct (Prim2SF a) as [s|s| |s m e]; try contradiction; try exact I.
  destruct (SFmul_form s m e false mg eg Hva Hvg)
    as [H|[H|(m' & e' & H)]]; rewrite H; exact I.
Qed.

(** For numbers, [x < y] is false exactly when [y <= x]. *)
Lemma ltb_false_leb (x y : float) :
  is_nan x = false -> is_nan y = false ->
  (x <? y) = false -> (y <=? x) = true.
Proof.
  intros Hx Hy H. rewrite (ltb_negb_leb _ _ Hx Hy) in H.
  now apply negb_false_iff in H.
Qed.

Lemma leb_ltb_false (x y : float) :
  (y <=? x) = true -> (x <? y) = false.
Proof.
  intros H. pose proof (leb_true _ _ H) as (Hy & Hx & _).
  rewrite (ltb_negb_leb _ _ Hx Hy), H. reflexivity.
Qed.

Lemma Fin_pos_ltb (g : float) : Fin g -> (0 < B2R g)%R -> (0 <? g) = true.
Proof.
  intros Hg Hpos. destruct (Fin_finite_pos g Hg Hpos) as (mg & eg & Eg).
  rewrite ltb_spec, Eg. reflexivity.
Qed.

End NumberSigns.

(** ** Generator *)

Module GeneratorFacts.
Import Generator.
Local Open Scope Z_scope.

Lemma toInt32_period (x m : Z) : toInt32 (x + m * 2 ^ 32) = toInt32 x.
Proof.
  unfold toInt32.
  replace (x + m * 2 ^ 32 + 2 ^ 31) with (x + 2 ^ 31 + m * 2 ^ 32) by ring.
  now rewrite Z_mod_plus_full.
Qed.

Lemma clampMidi_midi (n : Z) : midi (clampMidi n).
Proof. unfold midi, clampMidi. lia. Qed.

Lemma motif_length (current : list Z) (i : nat) :
  List.length (motif current i) = 3%nat.
Proof. reflexivity. Qed.

Lemma flat_map_motif_length (current : list Z) (positions : list nat) :
  List.length (flat_map (motif current) positions)
  = (3 * List.length positions)%nat.
Proof.
  induction positions as [|i rest IH]; simpl; [reflexivity|].
  rewrite IH. lia.
Qed.

Lemma expand_length (current : list Z) :
  List.length (expand current) = (3 * List.length current)%nat.
Proof.
  unfold expand. now rewrite flat_map_motif_length, length_seq.
Qed.

Lemma passes_length (d : nat) :
  forall current,
    List.length (passes d current) = (3 ^ d * List.length current)%nat.
Proof.
  induction d as [|d IH]; intros current; simpl passes.
  - simpl. lia.
  - rewrite IH, expand_length. rewrite Nat.pow_succ_r'. lia.
Qed.

Lemma motif_midi (current : list Z) (i : nat) :
  Forall midi current -> (i < List.length current)%nat ->
  Forall midi (motif current i).
Proof.
  intros Hall Hi.
  assert (Hn : midi (nth i current 0)).
  { rewrite Forall_forall in Hall. apply Hall, nth_In, Hi. }
  unfold motif. cbv zeta.
  repeat apply Forall_cons; auto using clampMidi_midi.
Qed.

Lemma expand_midi (current : list Z) :
  Forall midi current -> Forall midi (expand current).
Proof.
  intros Hall. unfold expand. apply Forall_flat_map.
  rewrite Forall_forall. intros i Hi.
  apply in_seq in Hi. apply motif_midi; [assumption | lia].
Qed.

Lemma passes_midi (d : nat) :
  forall current, Forall midi current -> Forall midi (passes d current).
Proof.
  induction d as [|d IH]; intros current Hall; simpl; auto using expand_midi.
Qed.

(** C5, as amended: for every sequence and every depth [>= 0],
    [applyRecursion] returns a sequence of length [|seq| * 3^depth]; depth 0
    returns the sequence unchanged; and when every note of the input lies
    in [0,127], so does every note of the result (the notes of the input
    are copied into the result unclamped). *)
Theorem applyRecursion_growth_and_range (sequence : list Z) (depth : Z) :
  0 <= depth ->
  exists out,
    applyRecursion sequence depth = Ok out
    /\ Z.of_nat (List.length out) = Z.of_nat (List.length sequence) * 3 ^ depth
    /\ (depth = 0 -> out = sequence)
    /\ (Forall midi sequence -> Forall midi out).
Proof.
  intros Hd. unfold applyRecursion.
  destruct (depth <? 0) eqn:Hneg; [lia|].
  destruct (depth =? 0) eqn:Hz.
  - apply Z.eqb_eq in Hz. subst depth. exists sequence.
    repeat split; auto. simpl. lia.
  - apply Z.eqb_neq in Hz. exists (passes (Z.to_nat depth) sequence).
    split; [reflexivity|]. split; [|split].
    + rewrite passes_length, Nat2Z.inj_mul, Nat2Z.inj_pow, Z2Nat.id by lia.
      simpl Z.of_nat. ring.
    + intros H0. contradiction.
    + apply passes_midi.
Qed.

Lemma applyRecursion_growth_and_range_witness :
  0 <= 2
  /\ exists out,
       applyRecursion [60; 64; 67] 2 = Ok out
       /\ Z.of_nat (List.length out) = Z.of_nat (List.length [60; 64; 67]) * 3 ^ 2
       /\ (2 = 0 -> out = [60; 64; 67])
       /\ (Forall midi [60; 64; 67] -> Forall midi out).
Proof.
  split; [lia | apply (applyRecursion_growth_and_range [60; 64; 67] 2); lia].
Defined.

(** C5 as stated fails: a note outside [0,127] in the input is copied to
    the output. *)
Lemma applyRecursion_range_counterexample :
  exists out,
    applyRecursion [200] 1 = Ok out
    /\ List.length out = 3%nat
    /\ ~ Forall midi out.
Proof.
  exists [200; 127; 200]. repeat split.
  intros H. inversion H as [|x l Hx _]. unfold midi in Hx. lia.
Qed.

(** C10: [seededRandom] keeps the low 32 bits of its seed only: the
    generators made from [s] and from [s + 2^32] (and from any seed congruent
    to [s] modulo [2^32]) produce the same value at every position. *)
Theorem seededRandom_low_32_bits (s : Z) :
  (forall k, output (seededRandom (s + 2 ^ 32)) k = output (seededRandom s) k)
  /\ (forall n, draws (seededRandom (s + 2 ^ 32)) n = draws (seededRandom s) n)
  /\ (forall m k, output (seededRandom (s + m * 2 ^ 32)) k
                  = output (seededRandom s) k).
Proof.
  assert (H : forall m, seededRandom (s + m * 2 ^ 32) = seededRandom s)
    by (intros m; apply toInt32_period).
  pose proof (H 1) as H1. rewrite Z.mul_1_l in H1.
  repeat split; intros; now rewrite ?H1, ?H.
Qed.

End GeneratorFacts.

(** ** Scheduler *)

(** The stable sort by the comparator, and what a conforming sort gives
    when no time is NaN. *)

Module SchedulerSorting.
Import Floats.
Import Number NumberFacts Scheduler.
Local Open Scope float_scope.

(** *** Sorting *)

Lemma insert_In (e x : ScheduledEvent) (l : list ScheduledEvent) :
  In x (insert e l) <-> x = e \/ In x l.
Proof.
  induction l as [|y l IH]; simpl.
  - intuition.
  - destruct (0 <? byTime e y); simpl; rewrite ?IH; intuition.
Qed.

Lemma Permutation_insert (e : ScheduledEvent) (l : list ScheduledEvent) :
  Permutation (e :: l) (insert e l).
Proof.
  induction l as [|y l IH]; simpl; [reflexivity|].
  destruct (0 <? byTime e y); [|reflexivity].
  rewrite perm_swap. now constructor.
Qed.

Lemma Permutation_sortByTime (l : list ScheduledEvent) :
  Permutation l (sortByTime l).
Proof.
  induction l as [|y l IH]; simpl; [constructor|].
  rewrite <- Permutation_insert. now constructor.
Qed.

Lemma sortByTime_conforming : conforming sortByTime.
Proof. split; [apply Permutation_sortByTime | reflexivity]. Qed.

Lemma numbers_Permutation (l l' : list ScheduledEvent) :
  Permutation l l' -> numbers l -> numbers l'.
Proof. unfold numbers. intros H. now rewrite H. Qed.

(** On numbers the comparator is positive exactly when its second
    argument is the earlier one. *)
Lemma byTime_positive (a b : ScheduledEvent) :
  is_nan (time a) = false -> is_nan (time b) = false ->
  (0 <? byTime a b) = (time b <? time a).
Proof. intros Ha Hb. unfold byTime. now apply sub_sign. Qed.

Lemma ltb_notAfter (a b : ScheduledEvent) :
  (time a <? time b) = true -> notAfter a b.
Proof.
  intros H. unfold notAfter. apply ltb_true in H.
  destruct H as (Ha & Hb & H). apply not_below_leb; auto.
  now apply below_asym.
Qed.

Lemma not_ltb_notAfter (a b : ScheduledEvent) :
  is_nan (time a) = false -> is_nan (time b) = false ->
  (time b <? time a) = false -> notAfter a b.
Proof.
  intros Ha Hb H. unfold notAfter.
  rewrite (ltb_negb_leb _ _ Hb Ha) in H. now apply negb_false_iff in H.
Qed.

Lemma insert_HdRel (e a : ScheduledEvent) (l : list ScheduledEvent) :
  notAfter a e -> HdRel notAfter a l -> HdRel notAfter a (insert e l).
Proof.
  intros Hae Hl. destruct l as [|y l]; simpl.
  - now constructor.
  - destruct (0 <? byTime e y); constructor; auto. now inversion Hl.
Qed.

Lemma insert_sorted (e : ScheduledEvent) (l : list ScheduledEvent) :
  is_nan (time e) = false -> numbers l ->
  sortedByTime l -> sortedByTime (insert e l).
Proof.
  unfold sortedByTime. intros He.
  induction l as [|y l IH]; intros Hn Hs; simpl.
  - repeat constructor.
  - inversion Hs as [|? ? Hsl Hhd]; subst.
    inversion Hn as [|? ? Hy Hnl]; subst.
    rewrite (byTime_positive e y He Hy).
    destruct (time y <? time e) eqn:Hlt.
    + constructor; [now apply IH|].
      apply insert_HdRel; [|assumption]. now apply ltb_notAfter.
    + constructor; [assumption|]. constructor.
      now apply not_ltb_notAfter.
Qed.

Lemma sortByTime_sorted (l : list ScheduledEvent) :
  numbers l -> sortedByTime (sortByTime l).
Proof.
  induction l as [|y l IH]; simpl; intros Hn.
  - constructor.
  - inversion Hn; subst. apply insert_sorted; auto.
    apply (numbers_Permutation l); [apply Permutation_sortByTime | assumption].
Qed.

Section Sorts.
Variable sort : list ScheduledEvent -> list ScheduledEvent.
Hypothesis Hsort : conforming sort.

(** A sort whose result holds no NaN time has sorted. *)
Lemma sort_sorted (l : list ScheduledEvent) :
  numbers (sort l) -> sortedByTime (sort l).
Proof.
  destruct Hsort as [Hperm Hstable]. intros Hn.
  assert (Hl : numbers l)
    by (apply (numbers_Permutation (sort l));
        [symmetry; apply Hperm | exact Hn]).
  rewrite (Hstable l Hl). now apply sortByTime_sorted.
Qed.

Lemma step_sorted (s : Scheduler) (c : call) :
  (numbers (getSchedule s) -> sortedByTime (getSchedule s)) ->
  numbers (getSchedule (step sort s c)) ->
  sortedByTime (getSchedule (step sort s c)).
Proof.
  intros Hs. destruct c as [bpm|n t d v|n b sub v|sub| | |]; simpl.
  - unfold setBPM. destruct (_ || _); assumption.
  - unfold scheduleNote.
    destruct (_ || _); [assumption|].
    destruct (t <? 0); [assumption|]. apply sort_sorted.
  - unfold scheduleAtBeat.
    destruct (getSubdivisionDuration s (orQuarter sub)); [|assumption].
    unfold scheduleNote.
    destruct (_ || _); [assumption|].
    destruct (_ <? 0); [assumption|]. apply sort_sorted.
  - unfold quantizeAll. destruct (mapResult _ _); [|assumption].
    apply sort_sorted.
  - intros _. constructor.
  - assumption.
  - assumption.
Qed.

Lemma run_sorted (calls : list call) :
  forall s,
    (numbers (getSchedule s) -> sortedByTime (getSchedule s)) ->
    numbers (getSchedule (run sort s calls)) ->
    sortedByTime (getSchedule (run sort s calls)).
Proof.
  unfold run.
  induction calls as [|c calls IH]; intros s Hs; simpl; [assumption|].
  apply IH. now apply step_sorted.
Qed.

End Sorts.

Lemma new_empty (bpm : option float) (s : Scheduler) :
  new bpm = Ok s -> getSchedule s = [].
Proof.
  destruct bpm as [b|]; simpl.
  - unfold setBPM. destruct (_ || _); [discriminate|].
    intros H. now injection H as <-.
  - intros H. now injection H as <-.
Qed.

(** A list of two that holds a NaN time is not non-decreasing, in either
    order. *)
Lemma nan_unsorted (a b : ScheduledEvent) (l : list ScheduledEvent) :
  is_nan (time a) = true -> Permutation l [a; b] -> ~ sortedByTime l.
Proof.
  intros Ha Hp Hs.
  assert (Hl : l = [a; b] \/ l = [b; a]).
  { apply Permutation_sym, Permutation_length_2_inv in Hp. tauto. }
  destruct Hl as [-> | ->]; inversion Hs as [|? ? _ Hhd]; subst;
    inversion Hhd as [|? ? Hab]; subst; unfold notAfter in Hab;
    apply leb_true in Hab; destruct Hab as (? & ? & _); congruence.
Qed.

End SchedulerSorting.

(** The range of the tempo, of the beat and of the subdivision
    durations. *)

Module SchedulerTempo.
Import Floats.
Import Number NumberFacts NumberBounds Scheduler.
Local Open Scope float_scope.

(** *** The tempo and the grid *)

Lemma lit20 : Fin 20 /\ B2R 20 = 20%R.
Proof. apply (ofZ_literal 20); [reflexivity | lia]. Qed.

Lemma lit60 : Fin 60 /\ B2R 60 = 60%R.
Proof. apply (ofZ_literal 60); [reflexivity | lia]. Qed.

Lemma lit300 : Fin 300 /\ B2R 300 = 300%R.
Proof. apply (ofZ_literal 300); [reflexivity | lia]. Qed.

Lemma lit1000 : Fin 1000 /\ B2R 1000 = 1000%R.
Proof. apply (ofZ_literal 1000); [reflexivity | lia]. Qed.

Lemma lit0 : Fin 0 /\ B2R 0 = 0%R.
Proof. apply (ofZ_literal 0); [reflexivity | lia]. Qed.

Lemma lit2p53 : Fin 9007199254740992 /\ B2R 9007199254740992 = pow2 53.
Proof.
  rewrite pow2_IZR by lia.
  apply (ofZ_literal (2 ^ 53)); [reflexivity | lia].
Qed.

Lemma tempo_range (bpm : float) :
  is_nan bpm = false -> (bpm <? 20) = false -> (300 <? bpm) = false ->
  Fin bpm /\ (20 <= B2R bpm <= 300)%R.
Proof.
  intros Hn H1 H2. destruct lit20 as [F20 R20], lit300 as [F300 R300].
  destruct (between_Fin 20 bpm 300 F20 F300 Hn H1 H2) as [Hf Hb].
  rewrite R20, R300 in Hb. tauto.
Qed.

Lemma beat_bounds (bpm : float) :
  is_nan bpm = false -> (bpm <? 20) = false -> (300 <? bpm) = false ->
  Fin ((60 / bpm) * 1000)
  /\ (199 <= B2R ((60 / bpm) * 1000) <= 3001)%R.
Proof.
  intros Hn H1 H2.
  destruct (tempo_range bpm Hn H1 H2) as [Hf Hb].
  destruct lit60 as [F60 R60], lit1000 as [F1000 R1000].
  pose proof u_bounds as [Hu0 Hu1].
  destruct (div_bounds 60 bpm 60 60 20 300) as (Hf1 & _ & Hb1);
    try rewrite R60; auto; try lra.
  destruct (mul_bounds (60 / bpm) 1000 (1999 / 10000) (30001 / 10000)
                        1000 1000)
    as (Hf2 & _ & Hb2); try rewrite R1000; auto; try lra.
  split; [exact Hf2|]. lra.
Qed.

Lemma multipliers :
  Forall (fun km : string * float =>
            Fin (snd km) /\ (/ 4 <= B2R (snd km) <= 4)%R) SUBDIVISIONS.
Proof.
  unfold SUBDIVISIONS. repeat apply Forall_cons; try apply Forall_nil;
    cbn [snd].
  - destruct (ofZ_literal 4 4) as [H1 H2]; [reflexivity | lia |].
    rewrite H2. split; [assumption | lra].
  - destruct (ofZ_literal 2 2) as [H1 H2]; [reflexivity | lia |].
    rewrite H2. split; [assumption | lra].
  - destruct (ofZ_literal 1 1) as [H1 H2]; [reflexivity | lia |].
    rewrite H2. split; [assumption | lra].
  - destruct (fraction_literal 0.5 4503599627370496 53) as [H1 H2];
      [reflexivity | lia |]. rewrite H2.
    change (2 ^ 53)%Z with 9007199254740992%Z. split; [assumption | lra].
  - destruct (fraction_literal 0.25 4503599627370496 54) as [H1 H2];
      [reflexivity | lia |]. rewrite H2.
    change (2 ^ 54)%Z with 18014398509481984%Z. split; [assumption | lra].
  - destruct (fraction_literal (2 / 3) 6004799503160661 53) as [H1 H2];
      [reflexivity | lia |]. rewrite H2.
    change (2 ^ 53)%Z with 9007199254740992%Z. split; [assumption | lra].
  - destruct (fraction_literal (1 / 3) 6004799503160661 54) as [H1 H2];
      [reflexivity | lia |]. rewrite H2.
    change (2 ^ 54)%Z with 18014398509481984%Z. split; [assumption | lra].
  - destruct (fraction_literal 1.5 6755399441055744 52) as [H1 H2];
      [reflexivity | lia |]. rewrite H2.
    change (2 ^ 52)%Z with 4503599627370496%Z. split; [assumption | lra].
  - destruct (fraction_literal 0.75 6755399441055744 53) as [H1 H2];
      [reflexivity | lia |]. rewrite H2.
    change (2 ^ 53)%Z with 9007199254740992%Z. split; [assumption | lra].
Qed.

Lemma lookup_In {A : Type} (k : string) (o : list (string * A)) (v : A) :
  lookup k o = Some v -> In (k, v) o.
Proof.
  induction o as [|[k' v'] o IH]; simpl; [discriminate|].
  destruct (String.eqb_spec k k') as [->|Hne].
  - intros H. injection H as <-. now left.
  - intros H. right. now apply IH.
Qed.

Lemma grid_bounds (bpm multiplier : float) (name : string) :
  is_nan bpm = false -> (bpm <? 20) = false -> (300 <? bpm) = false ->
  lookup name SUBDIVISIONS = Some multiplier ->
  Fin ((60 / bpm) * 1000 * multiplier)
  /\ (40 <= B2R ((60 / bpm) * 1000 * multiplier) <= 13000)%R.
Proof.
  intros Hn H1 H2 Hm.
  destruct (beat_bounds bpm Hn H1 H2) as [Hf Hb].
  apply lookup_In in Hm. pose proof multipliers as Hall.
  rewrite Forall_forall in Hall. destruct (Hall _ Hm) as [Hfm Hbm].
  cbn [snd] in Hfm, Hbm. pose proof u_bounds as [Hu0 Hu1].
  destruct (mul_bounds ((60 / bpm) * 1000) multiplier 199 3001 (/ 4) 4)
    as (Hf2 & _ & Hb2); auto; try lra.
  split; [exact Hf2|]. lra.
Qed.

End SchedulerTempo.

(** A second quantization returns what the first returned. *)

Module SchedulerRounding.
Import Floats.
Import Number NumberFacts NumberBounds Scheduler SchedulerTempo.
Local Open Scope float_scope.

(** *** Quantization *)

Lemma Math_round_zero (x : float) (s : bool) :
  Prim2SF x = S754_zero s -> Math_round x = x.
Proof. unfold Math_round. now intros ->. Qed.

(** A zero stays the same zero through [* g], [/ g] and [Math.round] for
    a positive finite [g]. *)
Lemma zero_fixed (z g : float) (s : bool) (mg : positive) (eg : Z) :
  Prim2SF z = S754_zero s -> Prim2SF g = S754_finite false mg eg ->
  Math_round (z * g / g) * g = z * g.
Proof.
  intros Hz Hg.
  assert (Hq : Prim2SF (z * g) = S754_zero s)
    by (rewrite mul_spec, Hz, Hg; now destruct s).
  assert (Ha : Prim2SF (z * g / g) = S754_zero s)
    by (rewrite div_spec, Hq, Hg; now destruct s).
  rewrite (Math_round_zero _ s Ha). apply Prim2SF_inj.
  rewrite mul_spec, Ha, Hg, Hq. now destruct s.
Qed.

Local Open Scope R_scope.

(** The quotient of two finite doubles, the divisor at least 40: the
    error of the one rounding. *)
Lemma quotient_error (T G A : R) :
  rounded (T / G) A -> 0 <= T -> 40 <= G ->
  0 <= A /\ Rabs (A - T / G) <= pow2 (-53) * (T / G) + pow2 (-1075).
Proof.
  intros (H1 & _ & H3 & _) HT HG.
  assert (0 <= T / G) by (apply Rmult_le_pos; [lra|];
                          apply Rlt_le, Rinv_0_lt_compat; lra).
  rewrite (Rabs_pos_eq (T / G)) in H1 by assumption.
  split; [now apply H3 | exact H1].
Qed.

(** The second pass: the quotient of the rounded product [N * G] by [G]
    is within a quarter of [N]. *)
Lemma second_pass (G N Q A2 : R) :
  40 <= G -> 1 <= N <= 281474976710657 ->
  N * G * (1 - pow2 (-53)) <= Q <= N * G * (1 + pow2 (-53)) ->
  Q / G * (1 - pow2 (-53)) <= A2 <= Q / G * (1 + pow2 (-53)) ->
  N - / 4 < A2 < N + / 4.
Proof.
  intros HG HN HQ HA. pose proof u_bounds as [Hu0 Hu1].
  set (u := pow2 (-53)) in *.
  assert (HX : N * (1 - u) <= Q / G <= N * (1 + u)).
  { assert (HGi : 0 < / G) by (apply Rinv_0_lt_compat; lra).
    assert (E1 : N * G * (1 - u) * / G = N * (1 - u)) by (field; lra).
    assert (E2 : N * G * (1 + u) * / G = N * (1 + u)) by (field; lra).
    unfold Rdiv. rewrite <- E1, <- E2.
    split; apply Rmult_le_compat_r; lra. }
  set (X := Q / G) in *.
  assert (Hu2 : u <= / 9007199254740992) by exact Hu1.
  assert (HNu : N * u <= / 16).
  { apply Rle_trans with (281474976710657 * / 9007199254740992); [|lra].
    apply Rmult_le_compat; lra. }
  assert (Hlo : N * (1 - u) * (1 - u) <= A2) by nra.
  assert (Hhi : A2 <= N * (1 + u) * (1 + u)) by nra.
  assert (Huu : N * u * u <= / 16) by nra.
  split; nra.
Qed.

(** [N <= A + 1/2 < N + 1] for two reals within a quarter of the same
    whole number. *)
Lemma same_round (N N2 : Z) (A2 : R) :
  IZR N - / 4 < A2 < IZR N + / 4 ->
  IZR N2 <= A2 + / 2 < IZR N2 + 1 -> N2 = N.
Proof.
  intros H1 H2.
  assert (N2 < N + 1)%Z by (apply lt_IZR; rewrite plus_IZR; simpl; lra).
  assert (N - 1 < N2)%Z by (apply lt_IZR; rewrite minus_IZR; simpl; lra).
  lia.
Qed.

(** Quantizing twice: for a grid step [g] between 40 and 13000 ms and a
    time between 0 and [2^53] ms the second pass returns the result of the
    first. *)
Lemma quantize_fixed (g t : float) :
  Fin g -> 40 <= B2R g <= 13000 ->
  Fin t -> 0 <= B2R t <= pow2 53 ->
  (Math_round (Math_round (t / g) * g / g) * g
   = Math_round (t / g) * g)%float.
Proof.
  intros Hg HG Ht HT.
  pose proof u_bounds as [Hu0 Hu1]. pose proof eta_bounds as [He0 He1].
  pose proof huge_bound as Hhuge. rewrite pow2_53 in HT.
  destruct (Fin_finite_pos g Hg) as (mg & eg & Hgsf); [lra|].
  assert (HTG : 0 <= B2R t / B2R g <= 225179981368525).
  { assert (0 < / B2R g <= / 40).
    { split; [apply Rinv_0_lt_compat; lra|].
      apply Rinv_le_contravar; lra. }
    unfold Rdiv. split; [apply Rmult_le_pos; lra|].
    apply Rle_trans with (9007199254740992 * / 40); [|lra].
    apply Rmult_le_compat; lra. }
  destruct (div_correct t g Ht Hg) as [Hfa Hra].
  { lra. }
  { rewrite Rabs_pos_eq by lra. lra. }
  destruct (quotient_error _ _ _ Hra) as [HA0 HAe]; [lra | lra |].
  apply Rabs_le_inv in HAe.
  assert (HA : B2R (t / g) <= 225179981368526) by nra.
  destruct (Math_round_correct (t / g) Hfa) as (N & HN & Hnz & Hz).
  { rewrite Rabs_pos_eq, pow2_52 by assumption. lra. }
  destruct (Z.eq_dec N 0) as [HN0|HN0].
  - destruct (Hz HN0) as [s Hs]. now apply zero_fixed with s mg eg.
  - rewrite (Hnz HN0).
    assert (HNpos : (1 <= N)%Z).
    { assert (-1 < N)%Z by (apply lt_IZR; simpl; lra). lia. }
    assert (HNR : 1 <= IZR N <= 281474976710657).
    { split; [apply IZR_le; lia | lra]. }
    destruct (ofZ_correct N) as [Hfn HnR].
    { assert (N <= 2 ^ 53)%Z by (apply le_IZR; simpl; lra). lia. }
    destruct (mul_bounds (ofZ N) g 1 281474976710657 40 13000)
      as (Hfq & Hrq & _); rewrite ?HnR; auto; try lra.
    rewrite HnR in Hrq.
    assert (HP : 40 <= IZR N * B2R g) by nra.
    apply rounded_pos in Hrq; [|lra].
    set (Q := B2R (ofZ N * g)) in *.
    assert (HQ : 39 <= Q <= 3659174697238541000 * 2).
    { assert (IZR N * B2R g <= 281474976710657 * 13000)
        by (apply Rmult_le_compat; lra).
      split; nra. }
    destruct (div_bounds (ofZ N * g) g 39 (3659174697238541000 * 2) 40 13000)
      as (Hfa2 & Hra2 & _); auto; try (fold Q; lra).
    fold Q in Hra2.
    assert (HQG : / 1024 <= Q / B2R g).
    { assert (/ 13000 <= / B2R g) by (apply Rinv_le_contravar; lra).
      unfold Rdiv. apply Rle_trans with (39 * / 13000); [lra|].
      apply Rmult_le_compat; lra. }
    apply rounded_pos in Hra2; [|exact HQG].
    pose proof (second_pass (B2R g) (IZR N) Q _ (proj1 HG) HNR Hrq Hra2)
      as Hnear.
    destruct (Math_round_correct (ofZ N * g / g) Hfa2) as (N2 & HN2 & Hnz2 & _).
    { rewrite pow2_52. apply Rabs_def1; lra. }
    assert (HN2N : N2 = N) by (apply (same_round N N2 _ Hnear HN2)).
    rewrite Hnz2 by (rewrite HN2N; assumption). now rewrite HN2N.
Qed.

End SchedulerRounding.

(** The distance from a time to its quantization. *)

Module SchedulerGrid.
Import Floats.
Import Number NumberFacts NumberBounds Scheduler.
Import SchedulerTempo SchedulerRounding.
Local Open Scope R_scope.

Lemma u_value : pow2 (-53) = / 9007199254740992.
Proof.
  change (-53)%Z with (- (53))%Z. rewrite pow2_neg_IZR by lia.
  reflexivity.
Qed.

Lemma pow2_m51 : pow2 (-51) = / 2251799813685248.
Proof.
  change (-51)%Z with (- (51))%Z. rewrite pow2_neg_IZR by lia.
  reflexivity.
Qed.

(** How far the rounded grid line [Q] of index [N] is from [T]. *)
Lemma near_grid (T G A N Q eta : R) :
  0 <= T -> 40 <= G -> 0 <= A -> 0 <= N ->
  0 <= eta <= / 1267650600228229401496703205376 ->
  Rabs (A - T / G) <= / 9007199254740992 * (T / G) + eta ->
  N <= A + / 2 < N + 1 ->
  Rabs (Q - N * G) <= / 9007199254740992 * (N * G) ->
  Rabs (Q - T) <= G / 2 + / 2251799813685248 * (T + G).
Proof.
  intros HT HG HA HN Heta H1 H2 H3.
  assert (HX : T / G * G = T) by (field; lra).
  set (X := T / G) in *.
  assert (HX0 : 0 <= X).
  { unfold X. apply Rmult_le_pos; [lra|].
    apply Rlt_le, Rinv_0_lt_compat. lra. }
  apply Rabs_le_inv in H1. apply Rabs_le_inv in H3.
  set (NG := N * G) in *.
  assert (HAG1 : A * G - T <= / 9007199254740992 * T + eta * G) by nra.
  assert (HAG2 : - (/ 9007199254740992 * T + eta * G) <= A * G - T) by nra.
  assert (HNG1 : NG <= A * G + G / 2) by (unfold NG; nra).
  assert (HNG2 : A * G + G / 2 <= NG + G) by (unfold NG; nra).
  assert (HeG : 0 <= eta * G <= / 1267650600228229401496703205376 * G)
    by (split; nra).
  assert (HNG0 : 0 <= NG) by (unfold NG; nra).
  apply Rabs_le. split; lra.
Qed.

(** Quantization lands within half a grid step of the time, up to the
    rounding of the three operations. *)
Lemma quantize_near (g t : float) :
  Fin g -> 40 <= B2R g <= 13000 ->
  Fin t -> 0 <= B2R t <= pow2 53 ->
  Fin (Math_round (t / g) * g)
  /\ Rabs (B2R (Math_round (t / g) * g) - B2R t)
     <= B2R g / 2 + pow2 (-51) * (B2R t + B2R g).
Proof.
  intros Hg HG Ht HT.
  pose proof eta_bounds as [He0 He1].
  pose proof huge_bound as Hhuge. rewrite pow2_53 in HT.
  rewrite pow2_m51.
  destruct (Fin_finite_pos g Hg) as (mg & eg & Hgsf); [lra|].
  assert (HTG : 0 <= B2R t / B2R g <= 225179981368525).
  { assert (0 < / B2R g <= / 40).
    { split; [apply Rinv_0_lt_compat; lra|].
      apply Rinv_le_contravar; lra. }
    unfold Rdiv. split; [apply Rmult_le_pos; lra|].
    apply Rle_trans with (9007199254740992 * / 40); [|lra].
    apply Rmult_le_compat; lra. }
  destruct (div_correct t g Ht Hg) as [Hfa Hra].
  { lra. }
  { rewrite Rabs_pos_eq by lra. lra. }
  destruct (quotient_error _ _ _ Hra) as [HA0 HAe]; [lra | lra |].
  rewrite u_value in HAe.
  assert (HA : B2R (t / g) <= 225179981368526)
    by (apply Rabs_le_inv in HAe; nra).
  destruct (Math_round_correct (t / g) Hfa) as (N & HN & Hnz & Hz).
  { rewrite Rabs_pos_eq, pow2_52 by assumption. lra. }
  destruct (Z.eq_dec N 0) as [HN0|HN0].
  - destruct (Hz HN0) as [s Hs].
    assert (Hq : Prim2SF (Math_round (t / g) * g) = S754_zero s)
      by (rewrite mul_spec, Hs, Hgsf; now destruct s).
    split; [unfold Fin; now rewrite Hq|].
    assert (HQ0 : B2R (Math_round (t / g) * g) = 0)
      by (unfold B2R; now rewrite Hq).
    rewrite HQ0. rewrite HN0 in HN.
    apply (near_grid (B2R t) (B2R g) (B2R (t / g)) 0 0 (pow2 (-1075)));
      try lra.
    rewrite Rmult_0_l, Rminus_0_r, Rabs_R0. lra.
  - rewrite (Hnz HN0).
    assert (HNpos : (1 <= N)%Z).
    { assert (-1 < N)%Z by (apply lt_IZR; simpl; lra). lia. }
    assert (HNR : 1 <= IZR N <= 281474976710657).
    { split; [apply IZR_le; lia | lra]. }
    destruct (ofZ_correct N) as [Hfn HnR].
    { assert (N <= 2 ^ 53)%Z by (apply le_IZR; simpl; lra). lia. }
    pose proof u_bounds as [Hu0 Hu1].
    destruct (mul_bounds (ofZ N) g 1 281474976710657 40 13000)
      as (Hfq & Hrq & _); rewrite ?HnR; auto; try lra.
    rewrite HnR in Hrq. split; [exact Hfq|].
    assert (HP : 40 <= IZR N * B2R g) by nra.
    destruct Hrq as (_ & Hrel & _ & _).
    rewrite Rabs_pos_eq in Hrel by lra.
    pose proof normal_bound.
    assert (Hrel' : Rabs (B2R (ofZ N * g) - IZR N * B2R g)
                    <= pow2 (-53) * (IZR N * B2R g)) by (apply Hrel; lra).
    rewrite u_value in Hrel'.
    apply (near_grid (B2R t) (B2R g) (B2R (t / g)) (IZR N) _ (pow2 (-1075)));
      try lra; assumption.
Qed.

End SchedulerGrid.

(** What holds of every scheduler obtained from a new one. *)

Module SchedulerReach.
Import Floats.
Import Number NumberFacts NumberBounds Scheduler.
Import SchedulerSorting SchedulerTempo SchedulerRounding SchedulerGrid.
Local Open Scope float_scope.

(** *** The tempo of a reachable scheduler *)

Lemma setBPM_tempoInv (s s' : Scheduler) (bpm : float) :
  setBPM s bpm = Ok s' -> tempoInv s'.
Proof.
  unfold setBPM. destruct (bpm <? 20) eqn:H1; [discriminate|].
  destruct (300 <? bpm) eqn:H2; [discriminate|]. cbn [orb].
  intros H. injection H as <-. unfold tempoInv. cbn. auto.
Qed.

Lemma init_tempoInv : tempoInv init.
Proof. unfold tempoInv, init. cbn. repeat split; reflexivity. Qed.

Lemma new_tempoInv (bpm : option float) (s : Scheduler) :
  new bpm = Ok s -> tempoInv s.
Proof.
  destruct bpm as [b|]; simpl.
  - apply setBPM_tempoInv.
  - intros H. injection H as <-. apply init_tempoInv.
Qed.

Section Reach.
Variable sort : list ScheduledEvent -> list ScheduledEvent.

Lemma scheduleNote_tempo (s s' : Scheduler) (n t : float)
    (d v : option float) (ev : ScheduledEvent) :
  scheduleNote sort s n t d v = Ok (s', ev) ->
  _bpm s' = _bpm s /\ _beatDurationMs s' = _beatDurationMs s.
Proof.
  unfold scheduleNote. destruct (_ || _); [discriminate|].
  destruct (t <? 0); [discriminate|].
  intros H. injection H as <- _. split; reflexivity.
Qed.

Lemma step_tempo (s : Scheduler) (c : call) :
  (exists bpm, c = SetBPM bpm /\ setBPM s bpm = Ok (step sort s c))
  \/ (_bpm (step sort s c) = _bpm s
      /\ _beatDurationMs (step sort s c) = _beatDurationMs s).
Proof.
  destruct c as [bpm|n t d v|n b sub v|sub| | |]; cbn [step].
  - destruct (setBPM s bpm) as [s'|m] eqn:E; [left; eauto | right; auto].
  - right. destruct (scheduleNote sort s n t d v) as [[s' ev]|m] eqn:E;
      [|auto]. eapply scheduleNote_tempo; eauto.
  - right. unfold scheduleAtBeat.
    destruct (getSubdivisionDuration s (orQuarter sub)); [|auto].
    destruct (scheduleNote sort s n _ _ v) as [[s' ev]|m] eqn:E; [|auto].
    eapply scheduleNote_tempo; eauto.
  - right. unfold quantizeAll. destruct (mapResult _ _); auto.
  - right. auto.
  - right. auto.
  - right. auto.
Qed.

Lemma step_tempoInv (s : Scheduler) (c : call) :
  tempoInv s -> tempoInv (step sort s c).
Proof.
  intros Hs. destruct (step_tempo s c) as [(bpm & _ & H)|[H1 H2]].
  - eapply setBPM_tempoInv; eauto.
  - unfold tempoInv in *. now rewrite H1, H2.
Qed.

Lemma run_tempoInv (calls : list call) :
  forall s, tempoInv s -> tempoInv (run sort s calls).
Proof.
  unfold run. induction calls as [|c calls IH]; intros s Hs; simpl;
    [assumption|]. apply IH. now apply step_tempoInv.
Qed.

Lemma reachable_tempo (bpm : option float) (s0 : Scheduler)
    (calls : list call) :
  new bpm = Ok s0 -> tempoInv (run sort s0 calls).
Proof. intros H. apply run_tempoInv. eapply new_tempoInv; eauto. Qed.

End Reach.

(** *** The grid *)

Lemma In_lookup {A : Type} (k : string) (o : list (string * A)) :
  In k (map fst o) -> exists v, lookup k o = Some v.
Proof.
  induction o as [|[k' v'] o IH]; simpl; [contradiction|].
  destruct (String.eqb_spec k k') as [->|Hne]; [eauto|].
  intros [H|H]; [congruence | auto].
Qed.

(** With a tempo that is a number, a named subdivision has a duration
    between 40 and 13000 ms. *)
Lemma tempo_grid (s : Scheduler) (name : string) :
  tempoInv s -> is_nan (_bpm s) = false ->
  In name (map fst SUBDIVISIONS) ->
  exists g,
    getSubdivisionDuration s name = Ok g
    /\ Fin g /\ (40 <= B2R g <= 13000)%R.
Proof.
  intros (Hbeat & H1 & H2) Hn Hin.
  destruct (In_lookup _ _ Hin) as [m Hm].
  unfold getSubdivisionDuration, property. rewrite Hm. cbn [toNumber].
  eexists. split; [reflexivity|]. rewrite Hbeat.
  now apply (grid_bounds _ _ name).
Qed.

(** A time between 0 and [2^53]. *)
Lemma time_range (t : float) :
  (0 <=? t) = true -> (t <=? 9007199254740992) = true ->
  Fin t /\ (0 <= B2R t <= pow2 53)%R.
Proof.
  intros H0 H1. destruct lit0 as [F0 R0], lit2p53 as [F1 R1].
  pose proof (leb_true _ _ H0) as (_ & Hn & _).
  destruct (between_Fin 0 t 9007199254740992 F0 F1 Hn) as [Hf Hb].
  - rewrite (ltb_negb_leb _ _ Hn (Fin_notNaN _ F0)), H0. reflexivity.
  - rewrite (ltb_negb_leb _ _ (Fin_notNaN _ F1) Hn), H1. reflexivity.
  - rewrite R0, R1 in Hb. tauto.
Qed.

End SchedulerReach.

(** Quantization, the order of the schedule and the stored events. *)

Module SchedulerFacts.
Import Floats.
Import Number NumberFacts NumberBounds NumberSigns Scheduler.
Import SchedulerSorting SchedulerTempo SchedulerRounding SchedulerGrid.
Import SchedulerReach.
Local Open Scope float_scope.

(** *** Quantization (C6) *)

(** C6, as amended: on a scheduler obtained from a new one by any calls and
    whose tempo is a number, for one of the nine subdivision names and a time
    [t] with [0 <= t <= 2^53], [quantize] returns a number [q] that a second
    [quantize] returns unchanged, and [q] is within half the subdivision's
    duration [g] of [t], up to a rounding error of [2^-51 * (t + g)]. *)
Theorem quantize_idempotent
    (sort : list ScheduledEvent -> list ScheduledEvent)
    (bpm : option float) (s0 : Scheduler) (calls : list call) (t : float)
    (subdivision : option string) :
  new bpm = Ok s0 ->
  is_nan (getBPM (run sort s0 calls)) = false ->
  valid subdivision ->
  (0 <=? t) = true -> (t <=? 9007199254740992) = true ->
  exists g q,
    getSubdivisionDuration (run sort s0 calls) (orQuarter subdivision) = Ok g
    /\ quantize (run sort s0 calls) t subdivision = Ok q
    /\ quantize (run sort s0 calls) q subdivision = Ok q
    /\ Fin q
    /\ (Rabs (B2R q - B2R t)
        <= B2R g / 2 + pow2 (-51) * (B2R t + B2R g))%R.
Proof.
  intros Hnew Hn Hsub H0 H1.
  pose proof (reachable_tempo sort bpm s0 calls Hnew) as Hinv.
  destruct (tempo_grid _ _ Hinv Hn Hsub) as (g & Hg & Hfg & Hbg).
  destruct (time_range t H0 H1) as [Hft Hbt].
  destruct (quantize_near g t Hfg Hbg Hft Hbt) as [Hfq Hnear].
  exists g, (Math_round (t / g) * g).
  split; [exact Hg|]. unfold quantize. rewrite Hg.
  split; [reflexivity|]. split; [|split; assumption].
  f_equal. now apply quantize_fixed.
Qed.

Lemma quantize_idempotent_witness :
  new None = Ok init
  /\ is_nan (getBPM (run sortByTime init [SetBPM 90])) = false
  /\ valid (Some "triplet_eighth"%string)
  /\ (0 <=? 2500) = true /\ (2500 <=? 9007199254740992) = true
  /\ exists g q,
       getSubdivisionDuration (run sortByTime init [SetBPM 90])
                              (orQuarter (Some "triplet_eighth"%string))
       = Ok g
       /\ quantize (run sortByTime init [SetBPM 90]) 2500
                   (Some "triplet_eighth"%string) = Ok q
       /\ quantize (run sortByTime init [SetBPM 90]) q
                   (Some "triplet_eighth"%string) = Ok q
       /\ Fin q
       /\ (Rabs (B2R q - B2R 2500)
           <= B2R g / 2 + pow2 (-51) * (B2R 2500 + B2R g))%R.
Proof.
  split; [reflexivity|]. split; [reflexivity|].
  split; [unfold valid; simpl; tauto|].
  split; [reflexivity|]. split; [reflexivity|].
  apply (quantize_idempotent sortByTime None init [SetBPM 90] 2500
           (Some "triplet_eighth"%string));
    [reflexivity | reflexivity | unfold valid; simpl; tauto
     | reflexivity | reflexivity].
Defined.

(** C6 as stated fails: at 90 BPM the time [1028 * 2^51] ms is quantized to
    a number that a second [quantize] moves, the product of the rounded
    quotient and the beat being rounded again. *)
Lemma quantize_idempotent_counterexample :
  exists s q q',
    new (Some 90) = Ok s
    /\ valid (Some "quarter"%string)
    /\ (0 <=? ofZ (1028 * 2 ^ 51)) = true
    /\ quantize s (ofZ (1028 * 2 ^ 51)) (Some "quarter"%string) = Ok q
    /\ quantize s q (Some "quarter"%string) = Ok q'
    /\ (q' =? q) = false.
Proof.
  eexists. eexists. eexists.
  split; [reflexivity|]. split; [unfold valid; simpl; tauto|].
  split; [reflexivity|]. split; [reflexivity|].
  split; [reflexivity|]. reflexivity.
Qed.

(** *** The schedule stays sorted (C7) *)

(** C7: for every sort that conforms to ECMAScript, after any sequence of
    calls on a new scheduler the schedule is non-decreasing in [time] when
    it holds no NaN time.  [scheduleNote(61, NaN)] is the defect: the guard
    of the time lets NaN pass, the event is stored, and after
    [scheduleNote(62, 100)] the schedule is not non-decreasing in any
    order. *)
Theorem schedule_sorted_unless_NaN
    (sort : list ScheduledEvent -> list ScheduledEvent) :
  conforming sort ->
  (forall (bpm : option float) (s0 : Scheduler) (calls : list call),
      new bpm = Ok s0 ->
      numbers (getSchedule (run sort s0 calls)) ->
      sortedByTime (getSchedule (run sort s0 calls)))
  /\ (exists s1 ev,
         scheduleNote sort init 61 nan None None = Ok (s1, ev)
         /\ In ev (getSchedule s1) /\ is_nan (time ev) = true)
  /\ ~ sortedByTime
         (getSchedule (run sort init [ScheduleNote 61 nan None None;
                                      ScheduleNote 62 100 None None])).
Proof.
  intros Hsort. split; [|split].
  - intros bpm s0 calls Hnew. apply run_sorted; [assumption|].
    intros _. rewrite (new_empty _ _ Hnew). constructor.
  - eexists. eexists. split; [reflexivity|]. split; [|reflexivity].
    unfold getSchedule. cbn [_scheduledNotes].
    destruct Hsort as [Hperm _].
    apply (Permutation_in _ (Hperm _)). now left.
  - destruct Hsort as [Hperm _].
    apply (nan_unsorted (mkEvent 61 nan 500 100) (mkEvent 62 100 500 100));
      [reflexivity|].
    unfold run. cbn [fold_left step]. unfold getSchedule.
    change (scheduleNote sort init 61 nan None None)
      with (Ok (mkScheduler 120 500 (sort [mkEvent 61 nan 500 100]) 0,
                mkEvent 61 nan 500 100)).
    cbv iota.
    change (scheduleNote sort _ 62 100 None None)
      with (Ok (mkScheduler 120 500
                  (sort (sort [mkEvent 61 nan 500 100]
                         ++ [mkEvent 62 100 500 100])%list) 0,
                mkEvent 62 100 500 100)).
    cbv iota. cbn [_scheduledNotes].
    rewrite <- (Hperm (sort _ ++ _)%list).
    rewrite <- (Hperm [mkEvent 61 nan 500 100]). reflexivity.
Qed.

Lemma schedule_sorted_unless_NaN_witness :
  conforming sortByTime
  /\ (forall (bpm : option float) (s0 : Scheduler) (calls : list call),
         new bpm = Ok s0 ->
         numbers (getSchedule (run sortByTime s0 calls)) ->
         sortedByTime (getSchedule (run sortByTime s0 calls)))
  /\ (exists s1 ev,
         scheduleNote sortByTime init 61 nan None None = Ok (s1, ev)
         /\ In ev (getSchedule s1) /\ is_nan (time ev) = true)
  /\ ~ sortedByTime
         (getSchedule (run sortByTime init
                           [ScheduleNote 61 nan None None;
                            ScheduleNote 62 100 None None])).
Proof.
  split; [exact sortByTime_conforming|].
  apply (schedule_sorted_unless_NaN sortByTime). exact sortByTime_conforming.
Defined.

(** *** What is stored (C8) *)

Lemma beat_facts (s : Scheduler) :
  tempoInv s -> is_nan (_bpm s) = false ->
  Fin (_beatDurationMs s) /\ (199 <= B2R (_beatDurationMs s) <= 3001)%R.
Proof.
  intros (Hbeat & H1 & H2) Hn. rewrite Hbeat. now apply beat_bounds.
Qed.

Lemma property_Own (name : string) (m : float) :
  property name = Own m -> lookup name SUBDIVISIONS = Some m.
Proof.
  unfold property. destruct (lookup name SUBDIVISIONS) as [m'|].
  - intros H. now injection H as ->.
  - destruct (existsb _ _); discriminate.
Qed.

(** A subdivision duration that is returned for a name that is not
    inherited is that of one of the nine names. *)
Lemma subdivision_facts (s : Scheduler) (name : string) (g : float) :
  tempoInv s -> is_nan (_bpm s) = false ->
  property name <> Inherited ->
  getSubdivisionDuration s name = Ok g ->
  Fin g /\ (40 <= B2R g <= 13000)%R.
Proof.
  intros (Hbeat & H1 & H2) Hn Hname. unfold getSubdivisionDuration.
  destruct (property name) as [m| |] eqn:E; [|contradiction|discriminate].
  apply property_Own in E. intros H. injection H as <-. cbn [toNumber].
  rewrite Hbeat. now apply (grid_bounds _ _ name).
Qed.

Lemma guard_note (n : float) :
  is_nan n = false -> (n <? 0) || (127 <? n) = false ->
  (0 <=? n) = true /\ (n <=? 127) = true.
Proof.
  intros Hn H. apply orb_false_iff in H. destruct H as [H1 H2].
  split; apply ltb_false_leb; auto.
Qed.

Lemma guard_time (t : float) :
  is_nan t = false -> (t <? 0) = false -> (0 <=? t) = true.
Proof. intros Hn H. now apply ltb_false_leb. Qed.

Lemma mapResult_Forall {A B : Type} (f : A -> result B) (P : A -> Prop)
    (Q : B -> Prop) :
  (forall x y, P x -> f x = Ok y -> Q y) ->
  forall l l', Forall P l -> mapResult f l = Ok l' -> Forall Q l'.
Proof.
  intros Hf. induction l as [|x l IH]; intros l' Hl; simpl.
  - intros H. injection H as <-. constructor.
  - inversion Hl as [|? ? Hx Hl']; subst.
    destruct (f x) as [y|m] eqn:Ey; [|discriminate].
    destruct (mapResult f l) as [ys|m]; [|discriminate].
    intros H. injection H as <-. constructor; eauto.
Qed.

Section Stored.
Variable sort : list ScheduledEvent -> list ScheduledEvent.
Hypothesis Hsort : conforming sort.

Lemma Forall_sort (P : ScheduledEvent -> Prop) (l : list ScheduledEvent) :
  Forall P l -> Forall P (sort l).
Proof.
  destruct Hsort as [Hperm _]. intros H.
  apply (Permutation_Forall (Hperm l) H).
Qed.

(** What [scheduleNote] stores when it returns. *)
Lemma scheduleNote_inv (s s' : Scheduler) (n t : float)
    (d v : option float) (ev : ScheduledEvent) :
  scheduleNote sort s n t d v = Ok (s', ev) ->
  (n <? 0) || (127 <? n) = false /\ (t <? 0) = false
  /\ ev = mkEvent n t
            (match d with Some x => x | None => _beatDurationMs s end)
            (match v with Some x => x | None => 100 end)
  /\ s' = mkScheduler (_bpm s) (_beatDurationMs s)
                      (sort (_scheduledNotes s ++ [ev])%list)
                      (_nextBeatIndex s).
Proof.
  unfold scheduleNote. destruct (_ || _); [discriminate|].
  destruct (t <? 0); [discriminate|].
  intros H. injection H as <- <-. auto.
Qed.

(** The condition kept by every plain call: the tempo is a number, with
    its beat, and the stored notes and times are in range. *)
Lemma step_keeps (s : Scheduler) (c : call) :
  tempoInv s -> is_nan (_bpm s) = false ->
  Forall eventOk (getSchedule s) ->
  plain c ->
  (tempoInv (step sort s c) /\ is_nan (_bpm (step sort s c)) = false
   /\ Forall eventOk (getSchedule (step sort s c)))
  /\ (suppliedOk c -> Forall extraOk (getSchedule s) ->
      Forall extraOk (getSchedule (step sort s c))).
Proof.
  intros Hinv Hn Hev Hc.
  pose proof (step_tempoInv sort s c Hinv) as Hinv'.
  destruct (beat_facts s Hinv Hn) as [Hfb Hbb].
  assert (Hbeat : (0 <? _beatDurationMs s) = true)
    by (apply Fin_pos_ltb; [assumption | lra]).
  unfold getSchedule in *.
  destruct c as [bpm|n t d v|n b sub v|sub| | |]; cbn [step plain suppliedOk]
    in *.
  - unfold setBPM in *. destruct (_ || _); cbn [_bpm _scheduledNotes]; auto.
  - destruct (scheduleNote sort s n t d v) as [[s' ev]|m] eqn:E; [|auto].
    destruct (scheduleNote_inv _ _ _ _ _ _ _ E) as (Hg1 & Hg2 & -> & ->).
    cbn [_bpm _scheduledNotes]. destruct Hc as [Hnn Hnt].
    destruct (guard_note n Hnn Hg1) as [Hn0 Hn1].
    pose proof (guard_time t Hnt Hg2) as Ht0.
    split; [split; [assumption|split; [assumption|]]|].
    + apply Forall_sort, Forall_app. split; [assumption|].
      constructor; [|constructor]. unfold eventOk. cbn. auto.
    + intros [Hd Hv] Hex. apply Forall_sort, Forall_app.
      split; [assumption|]. constructor; [|constructor].
      unfold extraOk. cbn [duration velocity]. split.
      * destruct d as [x|]; [now apply Hd | assumption].
      * destruct v as [x|]; [now apply Hv | split; reflexivity].
  - unfold scheduleAtBeat in *.
    destruct (getSubdivisionDuration s (orQuarter sub)) as [g|m] eqn:Eg;
      [|auto].
    destruct (scheduleNote sort s n _ (Some g) v) as [[s' ev]|m] eqn:E;
      [|auto].
    destruct (scheduleNote_inv _ _ _ _ _ _ _ E) as (Hg1 & Hg2 & -> & ->).
    cbn [_bpm _scheduledNotes]. destruct Hc as (Hnn & Hnb & Hsub).
    destruct (subdivision_facts s _ g Hinv Hn Hsub Eg) as [Hfg Hbg].
    destruct (guard_note n Hnn Hg1) as [Hn0 Hn1].
    assert (Hnt : is_nan ((b - 1) * _beatDurationMs s) = false).
    { apply mul_notNaN; [|assumption|lra].
      apply sub_notNaN; [assumption|].
      apply (ofZ_literal 1 1); [reflexivity | lia]. }
    pose proof (guard_time _ Hnt Hg2) as Ht0.
    split; [split; [assumption|split; [assumption|]]|].
    + apply Forall_sort, Forall_app. split; [assumption|].
      constructor; [|constructor]. unfold eventOk. cbn. auto.
    + intros Hv Hex. apply Forall_sort, Forall_app.
      split; [assumption|]. constructor; [|constructor].
      unfold extraOk. cbn [duration velocity]. split.
      * apply Fin_pos_ltb; [assumption | lra].
      * destruct v as [x|]; [now apply Hv | split; reflexivity].
  - unfold quantizeAll in *.
    destruct (mapResult _ (_scheduledNotes s)) as [notes|m] eqn:E; [|auto].
    cbn [_bpm _scheduledNotes].
    split; [split; [assumption|split; [assumption|]]|].
    + apply Forall_sort.
      apply (mapResult_Forall _ eventOk eventOk) with (3 := E);
        [|assumption].
      intros x y (Hx0 & Hx1 & Hxt). unfold quantize.
      destruct (getSubdivisionDuration s (orQuarter sub)) as [g|m] eqn:Eg;
        [|discriminate].
      destruct (subdivision_facts s _ g Hinv Hn Hc Eg) as [Hfg Hbg].
      intros H. injection H as <-. unfold eventOk. cbn.
      split; [assumption|]. split; [assumption|].
      apply mul_nonneg; [|assumption|lra].
      apply Math_round_nonneg. apply div_nonneg; [assumption|assumption|lra].
    + intros _ Hex. apply Forall_sort.
      apply (mapResult_Forall _ extraOk extraOk) with (3 := E);
        [|assumption].
      intros x y Hx. destruct (quantize s (time x) sub); [|discriminate].
      intros H. injection H as <-. exact Hx.
  - cbn. split; [split; [assumption|split; [assumption|constructor]]|].
    intros _ _. constructor.
  - cbn. auto.
  - cbn. auto.
Qed.

Lemma run_keeps (calls : list call) :
  forall s,
    tempoInv s -> is_nan (_bpm s) = false ->
    Forall eventOk (getSchedule s) ->
    Forall plain calls ->
    Forall eventOk (getSchedule (run sort s calls))
    /\ (Forall suppliedOk calls -> Forall extraOk (getSchedule s) ->
        Forall extraOk (getSchedule (run sort s calls))).
Proof.
  unfold run. induction calls as [|c calls IH]; intros s Hinv Hn Hev Hp;
    simpl; [auto|].
  inversion Hp as [|? ? Hc Hp']; subst.
  destruct (step_keeps s c Hinv Hn Hev Hc) as [(H1 & H2 & H3) H4].
  destruct (IH _ H1 H2 H3 Hp') as [H5 H6].
  split; [assumption|]. intros Hs Hex.
  inversion Hs as [|? ? Hsc Hs']; subst. auto.
Qed.

End Stored.

(** C8, as amended: on a new scheduler whose tempo is a number, after any
    sequence of calls that pass numbers (not NaN) for tempo, note, time and
    beat and no subdivision name inherited from [Object.prototype], every
    stored event has a note in [0,127] and a time [>= 0]; duration and
    velocity are stored as supplied, so that every stored event has a
    duration [> 0] and a velocity in [0,127] when each call that supplies a
    duration supplies a positive one and each call that supplies a velocity
    supplies one in [0,127]. *)
Theorem stored_events_range
    (sort : list ScheduledEvent -> list ScheduledEvent)
    (bpm : option float) (s0 : Scheduler) (calls : list call) :
  conforming sort ->
  new bpm = Ok s0 -> is_nan (getBPM s0) = false ->
  Forall plain calls ->
  Forall eventOk (getSchedule (run sort s0 calls))
  /\ (Forall suppliedOk calls ->
      Forall extraOk (getSchedule (run sort s0 calls))).
Proof.
  intros Hsort Hnew Hn Hp.
  assert (Hempty : getSchedule s0 = []) by (eapply new_empty; eauto).
  destruct (run_keeps sort Hsort calls s0) as [H1 H2]; auto.
  - eapply new_tempoInv; eauto.
  - rewrite Hempty. constructor.
  - split; [assumption|]. intros Hs. apply H2; [assumption|].
    rewrite Hempty. constructor.
Qed.

Lemma stored_events_range_witness :
  conforming sortByTime
  /\ new (Some 90) = Ok (mkScheduler 90 ((60 / 90) * 1000) [] 0)
  /\ is_nan (getBPM (mkScheduler 90 ((60 / 90) * 1000) [] 0)) = false
  /\ Forall plain [ScheduleNote 60 0 None None;
                   ScheduleAtBeat 64 3 (Some "eighth"%string) (Some 90);
                   ScheduleNote 67 250 (Some 125) None;
                   QuantizeAll None]
  /\ Forall eventOk
       (getSchedule
          (run sortByTime (mkScheduler 90 ((60 / 90) * 1000) [] 0)
               [ScheduleNote 60 0 None None;
                ScheduleAtBeat 64 3 (Some "eighth"%string) (Some 90);
                ScheduleNote 67 250 (Some 125) None;
                QuantizeAll None]))
  /\ (Forall suppliedOk [ScheduleNote 60 0 None None;
                         ScheduleAtBeat 64 3 (Some "eighth"%string) (Some 90);
                         ScheduleNote 67 250 (Some 125) None;
                         QuantizeAll None] ->
      Forall extraOk
        (getSchedule
           (run sortByTime (mkScheduler 90 ((60 / 90) * 1000) [] 0)
                [ScheduleNote 60 0 None None;
                 ScheduleAtBeat 64 3 (Some "eighth"%string) (Some 90);
                 ScheduleNote 67 250 (Some 125) None;
                 QuantizeAll None]))).
Proof.
  assert (Hp : Forall plain [ScheduleNote 60 0 None None;
                   ScheduleAtBeat 64 3 (Some "eighth"%string) (Some 90);
                   ScheduleNote 67 250 (Some 125) None;
                   QuantizeAll None]).
  { repeat constructor; discriminate. }
  split; [exact sortByTime_conforming|]. split; [reflexivity|].
  split; [reflexivity|]. split; [exact Hp|].
  apply (stored_events_range sortByTime (Some 90));
    [exact sortByTime_conforming | reflexivity | reflexivity | exact Hp].
Defined.

(** C8 as stated fails: [scheduleNote(60, 0, -5, 999)] returns without
    error and stores the duration [-5] and the velocity [999]. *)
Lemma stored_events_range_counterexample :
  exists s' ev,
    scheduleNote sortByTime init 60 0 (Some (-5)) (Some 999) = Ok (s', ev)
    /\ In ev (getSchedule s')
    /\ duration ev = (-5) /\ velocity ev = 999
    /\ (0 <? duration ev) = false /\ (velocity ev <=? 127) = false.
Proof.
  eexists. eexists. split; [reflexivity|].
  split; [now left|]. repeat split; reflexivity.
Qed.

End SchedulerFacts.

(** ** Protocol bridge *)

Module OscBridgeFacts.
Import OscBridge.

Lemma new_atRest (options : Options) : atRest (new options).
Proof. split; simpl; discriminate. Qed.

Lemma BridgeState_eqb_eq (a b : BridgeState) :
  BridgeState_eqb a b = true <-> a = b.
Proof. destruct a, b; simpl; split; congruence. Qed.

Lemma connect_cases (b : OSCBridge) :
  (state b = CONNECTED /\ connect b = (true, b, []))
  \/ (state b <> CONNECTED /\ invalidTarget b = true
      /\ exists b', connect b = (false, b', [CONNECTING; ERROR])
                    /\ state b' = ERROR /\ invalidTarget b' = true)
  \/ (state b <> CONNECTED /\ invalidTarget b = false
      /\ exists b', connect b = (true, b', [CONNECTING; CONNECTED])
                    /\ state b' = CONNECTED).
Proof.
  unfold connect.
  destruct (BridgeState_eqb (state b) CONNECTED) eqn:Hc.
  - left. apply BridgeState_eqb_eq in Hc. now split.
  - right.
    assert (Hn : state b <> CONNECTED)
      by (intros H; apply BridgeState_eqb_eq in H; congruence).
    change (invalidTarget (setState b CONNECTING)) with (invalidTarget b).
    destruct (invalidTarget b) eqn:Hinv.
    + left. repeat split; try assumption.
      eexists. split; [reflexivity|]. split; [reflexivity | exact Hinv].
    + right. repeat split; try assumption.
      eexists. split; reflexivity.
Qed.

Lemma step_effect (b : OSCBridge) (c : call) :
  atRest b ->
  atRest (fst (step b c)) /\ effect b c (fst (step b c)) (snd (step b c)).
Proof.
  intros [Hrest Herr]. destruct c as [| |now param v|now perf| |]; simpl.
  - destruct (connect_cases b)
      as [[Hc ->] | [(Hn & Hinv & b' & -> & Hst' & Hinv')
                    | (Hn & Hinv & b' & -> & Hst')]]; simpl.
    + split; [now split | now apply effect_none].
    + split; [split; [rewrite Hst'; discriminate | auto]|].
      apply effect_connect; rewrite ?Hst'; auto.
    + split; [split; rewrite Hst'; discriminate|].
      apply effect_connect; rewrite ?Hst'; auto.
      intros He. specialize (Herr He). congruence.
  - split; [split; simpl; discriminate|].
    now apply effect_disconnect.
  - unfold send. destruct (BridgeState_eqb (state b) CONNECTED) eqn:Hc; simpl.
    + destruct (formatMessage _ _ _); simpl;
        (split; [now split | now apply effect_none]).
    + split; [now split | now apply effect_none].
  - unfold sendBundle.
    destruct (BridgeState_eqb (state b) CONNECTED) eqn:Hc; simpl.
    + destruct (formatBundle _ _ _); simpl;
        (split; [now split | now apply effect_none]).
    + split; [now split | now apply effect_none].
  - split; [now split | now apply effect_none].
  - split; [now split | now apply effect_none].
Qed.

Lemma run_atRest (calls : list call) :
  forall b, atRest b -> atRest (run b calls).
Proof.
  induction calls as [|c cs IH]; intros b Hb; simpl; [assumption|].
  apply IH, step_effect, Hb.
Qed.

Lemma movesAlong_cons (ok : BridgeState -> BridgeState -> bool)
    (a b : BridgeState) (t : list BridgeState) :
  movesAlong ok (a :: b :: t)
  = (BridgeState_eqb a b || ok a b) && movesAlong ok (b :: t).
Proof. reflexivity. Qed.

Lemma history_moves (calls : list call) :
  forall b, atRest b -> movesAlong listedOrRetry (history b calls) = true.
Proof.
  unfold history.
  induction calls as [|c cs IH]; intros b Hb; [reflexivity|].
  destruct (step_effect b c Hb) as [Hb' Heff].
  specialize (IH _ Hb'). cbn [writes].
  destruct Hb as [Hrest _].
  destruct Heff as [-> Hsame
                   | _ -> Hnc Hend Herr
                   | _ -> Hend].
  - rewrite <- Hsame. exact IH.
  - cbn [app]. rewrite !movesAlong_cons, IH.
    destruct (state b); try contradiction;
      destruct Hend as [-> | ->]; reflexivity.
  - cbn [app]. rewrite <- Hend at 1. rewrite movesAlong_cons, IH, Hend.
    destruct (state b); try contradiction; reflexivity.
Qed.

(** C9, as amended: over every sequence of calls on a new bridge the
    connection state moves only along [DISCONNECTED -> CONNECTING],
    [CONNECTING -> CONNECTED], [CONNECTING -> ERROR],
    [CONNECTED/ERROR -> DISCONNECTED] and the retry [ERROR -> CONNECTING];
    a call other than [disconnect] made in [ERROR] returns with the state
    in [ERROR] again ([connect] goes through [CONNECTING] and fails on the
    same target); and [connect()] while [CONNECTED] assigns nothing and
    returns true. *)
Theorem lifecycle_transitions (options : Options) (calls : list call) :
  movesAlong listedOrRetry (history (new options) calls) = true
  /\ (forall c, state (run (new options) calls) = ERROR -> c <> Disconnect ->
                state (fst (step (run (new options) calls) c)) = ERROR)
  /\ (state (run (new options) calls) = CONNECTED ->
      connect (run (new options) calls)
      = (true, run (new options) calls, [])).
Proof.
  pose proof (new_atRest options) as H0.
  split; [now apply history_moves|]. split.
  - intros c Herr Hc.
    destruct (step_effect _ c (run_atRest calls _ H0)) as [_ Heff].
    destruct Heff as [_ Hsame | _ _ _ _ Hkeep | Hd _ _].
    + now rewrite Hsame.
    + now apply Hkeep.
    + contradiction.
  - intros Hc. unfold connect. now rewrite Hc.
Qed.

(** C9 as stated fails: on a bridge whose port is invalid, a second
    [connect()] takes the state from [ERROR] to [CONNECTING], which is not
    one of the listed transitions. *)
Lemma lifecycle_transitions_counterexample :
  history (new (mkOptions None (Some (-1)%Z) None)) [Connect; Connect]
  = [DISCONNECTED; CONNECTING; ERROR; CONNECTING; ERROR]
  /\ listed ERROR CONNECTING = false
  /\ movesAlong listed
       (history (new (mkOptions None (Some (-1)%Z) None)) [Connect; Connect])
     = false.
Proof. repeat split. Qed.

End OscBridgeFacts.

(** ** Consensus engine *)

Module ConsensusFacts.
Import Consensus.
Local Open Scope string_scope.
Local Open Scope R_scope.

(** *** Objects *)

Section Objects.
Context {A : Type}.

Lemma get_set_same (k : string) (v : A) (o : obj A) :
  get k (set k v o) = Some v.
Proof.
  induction o as [|[k' v'] o IH]; simpl.
  - now rewrite String.eqb_refl.
  - destruct (String.eqb k k') eqn:E; simpl; rewrite ?E, ?String.eqb_refl;
      auto.
Qed.

Lemma get_set_other (k k' : string) (v : A) (o : obj A) :
  k <> k' -> get k (set k' v o) = get k o.
Proof.
  intros Hne. induction o as [|[k'' v''] o IH]; simpl.
  - now apply String.eqb_neq in Hne as ->.
  - destruct (String.eqb k' k'') eqn:E; simpl.
    + apply String.eqb_eq in E. subst k''.
      now apply String.eqb_neq in Hne as ->.
    + now rewrite IH.
Qed.

Lemma get_In_keys (k : string) (v : A) (o : obj A) :
  get k o = Some v -> In k (keys o).
Proof.
  induction o as [|[k' v'] o IH]; simpl; [discriminate|].
  destruct (String.eqb k k') eqn:E.
  - apply String.eqb_eq in E. now left.
  - intros H. right. now apply IH.
Qed.

End Objects.

Lemma includes_In (p : string) (l : list string) :
  includes p l = true <-> In p l.
Proof.
  unfold includes. rewrite existsb_exists. split.
  - intros [x [Hin Heq]]. apply String.eqb_eq in Heq. now subst.
  - intros Hin. exists p. split; [assumption | apply String.eqb_refl].
Qed.

(** *** recordInput *)

Lemma recordInput_guard (e : Engine) (clock : Z) (userId : option string)
    (vals : jsval) (ts : option Z) :
  falsyId userId = true \/ typeof vals <> "object" ->
  recordInput e clock userId vals ts = e.
Proof.
  unfold recordInput. intros [H | H].
  - now rewrite H.
  - apply String.eqb_neq in H. rewrite H. simpl. now rewrite orb_true_r.
Qed.

(** C1, evaluated on the code.  The guard of [recordInput] makes the call
    a no-op when the participant id is falsy or [typeof values] is not
    ["object"]; but [typeof null] is ["object"], so [recordInput("u1", null,
    1000)] on a new engine records an entry, and [calculateConsensus(1000)]
    then throws on reading a property of [null]. *)
Theorem recordInput_null_values_recorded (clock : Z) :
  (forall e userId vals ts,
      falsyId userId = true \/ typeof vals <> "object" ->
      recordInput e clock userId vals ts = e)
  /\ inputs (recordInput (new DEFAULT_CONFIG) clock (Some "u1") VNull
                         (Some 1000%Z))
     = [("u1", mkInput 1000 VNull)]
  /\ getInputCount (recordInput (new DEFAULT_CONFIG) clock (Some "u1") VNull
                                (Some 1000%Z)) = 1%nat
  /\ calculateConsensus
       (recordInput (new DEFAULT_CONFIG) clock (Some "u1") VNull
                    (Some 1000%Z))
       clock (Some 1000%Z)
     = Throw "TypeError: Cannot read properties".
Proof.
  split; [intros; now apply recordInput_guard|].
  repeat split.
Qed.

(** *** calculateConsensus computes the weighted mean *)

Lemma ngt_zero_zero : ngt (Real 0) (Real 0) = false.
Proof. simpl. destruct (Rlt_dec 0 0) as [H|H]; [lra | reflexivity]. Qed.

Lemma temporal_exponent (a w beta : R) : - a / w * beta = - (a / w) * beta.
Proof. unfold Rdiv. ring. Qed.

Lemma sumsOver_app (e : Engine) (now : Z) (param : string)
    (acc : num * num) (q1 q2 : list (Input * R)) :
  sumsOver e now param acc (q1 ++ q2)%list
  = sumsOver e now param (sumsOver e now param acc q1) q2.
Proof. unfold sumsOver. simpl. now rewrite !map_app, !fold_left_app. Qed.

Lemma contribute_mapping (e : Engine) (now : Z) (param : string)
    (acc : num * num) (input : Input) :
  isMapping (values input) = true ->
  contribute e now param acc input
  = Ok (sumsOver e now param acc (qualifyingIn e now param [input])).
Proof.
  unfold contribute, qualifyingIn, defines, age. simpl flat_map.
  destruct (values input) as [| | | | | |o]; try discriminate. intros _.
  simpl getProp. destruct (get param o) as [v|]; [|now destruct acc].
  rewrite Z.gtb_ltb, Z.ltb_antisym.
  destruct (now - timestamp input <=? INPUT_DECAY_WINDOW_MS (config e))%Z;
    simpl; [|now destruct acc].
  unfold sumsOver, weight, age. simpl.
  now rewrite opp_IZR, temporal_exponent.
Qed.

Lemma forEachInput_sums (e : Engine) (now : Z) (param : string)
    (inputList : list Input) :
  Forall (fun input => isMapping (values input) = true) inputList ->
  forall acc,
    forEachInput e now param acc inputList
    = Ok (sumsOver e now param acc (qualifyingIn e now param inputList)).
Proof.
  induction 1 as [|input rest Hin Hrest IH]; intros acc.
  - now destruct acc.
  - simpl forEachInput. rewrite (contribute_mapping _ _ _ _ _ Hin), IH.
    assert (Hsplit : qualifyingIn e now param (input :: rest)
                     = (qualifyingIn e now param [input]
                        ++ qualifyingIn e now param rest)%list)
      by (unfold qualifyingIn; simpl; now rewrite app_nil_r).
    now rewrite Hsplit, sumsOver_app.
Qed.

Lemma tableOk_inputList (e : Engine) :
  tableOk e ->
  Forall (fun input => isMapping (values input) = true) (map snd (inputs e)).
Proof.
  unfold tableOk. rewrite !Forall_forall. intros H input Hin.
  apply in_map_iff in Hin. destruct Hin as [en [<- Hen]]. now apply H.
Qed.

(** The outer loop: each listed parameter with a mean gets it as its entry;
    the other entries are left as they were. *)
Lemma forEachParam_spec (e : Engine) (now : Z) (params : list string) :
  tableOk e ->
  forall res,
  exists res',
    forEachParam e now (map snd (inputs e)) res params = Ok res'
    /\ (forall p,
           get p (fst res')
           = if includes p params
             then match weightedMean e now p with
                  | Some v => Some v
                  | None => get p (fst res)
                  end
             else get p (fst res))
    /\ snd res'
       = snd res || existsb (fun p => isSome (weightedMean e now p)) params.
Proof.
  intros Htab. pose proof (tableOk_inputList e Htab) as Hl.
  induction params as [|param rest IH]; intros res.
  - exists res. simpl. repeat split. now rewrite orb_false_r.
  - simpl forEachParam. rewrite (forEachInput_sums _ _ _ _ Hl).
    unfold sumsOver. cbn [fst snd].
    fold (qualifying e now param).
    match goal with
    | |- context [forEachParam _ _ _ ?r rest] =>
        destruct (IH r) as (res' & Hrun & Hget & Hany)
    end.
    exists res'. split; [exact Hrun|].
    assert (Hmean :
      weightedMean e now param
      = if ngt (nsum (map (weight e now param) (qualifying e now param)))
               (Real 0)
        then Some (ndiv (nsum (map (fun iv => nmul (Real (snd iv))
                                               (weight e now param iv))
                                   (qualifying e now param)))
                        (nsum (map (weight e now param)
                                   (qualifying e now param))))
        else None) by reflexivity.
    unfold nsum in Hmean. split.
    + intros p. rewrite Hget. cbn [includes existsb].
      fold (includes p rest).
      destruct (String.eqb p param) eqn:E.
      * apply String.eqb_eq in E. subst p. rewrite Hmean.
        destruct (ngt _ (Real 0)); cbn [fst orb].
        -- rewrite get_set_same. now destruct (includes param rest).
        -- now destruct (includes param rest), (weightedMean e now param).
      * apply String.eqb_neq in E. cbn [orb].
        destruct (ngt _ (Real 0)); cbn [fst];
          rewrite ?(get_set_other _ _ _ _ E); reflexivity.
    + rewrite Hany. cbn [existsb]. rewrite Hmean.
      destruct (ngt _ (Real 0)); cbn [snd isSome orb].
      * now rewrite orb_true_r.
      * reflexivity.
Qed.

Lemma existsb_false_In {A : Type} (f : A -> bool) (l : list A) (x : A) :
  existsb f l = false -> In x l -> f x = false.
Proof.
  intros H Hin. destruct (f x) eqn:E; [|reflexivity].
  assert (existsb f l = true) by (apply existsb_exists; eauto). congruence.
Qed.

(** What [calculateConsensus] returns on a table of mappings. *)
Lemma calculateConsensus_mappings (e : Engine) (clock : Z) (now : option Z) :
  tableOk e ->
  exists r,
    calculateConsensus e clock now = Ok r
    /\ (r = None <->
        inputs e = []
        \/ forall p, In p (PARAMETERS (config e)) ->
                     weightedMean e (orClock clock now) p = None)
    /\ (inputs e <> [] ->
        forall p, In p (PARAMETERS (config e)) ->
                  valueAt (Ok r) p = weightedMean e (orClock clock now) p).
Proof.
  intros Htab. unfold calculateConsensus.
  destruct (List.length (map snd (inputs e)) =? 0)%nat eqn:Hlen.
  - apply Nat.eqb_eq in Hlen. rewrite length_map in Hlen.
    apply length_zero_iff_nil in Hlen.
    exists None. repeat split; auto. intros H. now contradiction H.
  - apply Nat.eqb_neq in Hlen. rewrite length_map in Hlen.
    assert (Hin : inputs e <> [])
      by (intros H; rewrite H in Hlen; now apply Hlen).
    destruct (forEachParam_spec e (orClock clock now)
                (PARAMETERS (config e)) Htab ([], false))
      as ([result anyResult] & -> & Hget & Hany).
    cbn [fst snd orb get] in Hget, Hany.
    exists (if anyResult then Some result else None).
    split; [reflexivity|]. split.
    + split.
      * intros Hnone. right. intros p Hp.
        destruct anyResult; [discriminate|].
        symmetry in Hany.
        pose proof (existsb_false_In _ _ p Hany Hp) as Hs. cbv beta in Hs.
        now destruct (weightedMean e (orClock clock now) p).
      * intros [Habs | Hall]; [contradiction|].
        destruct anyResult; [|reflexivity].
        symmetry in Hany. apply existsb_exists in Hany.
        destruct Hany as (p & Hp & Hs). rewrite (Hall p Hp) in Hs.
        discriminate.
    + intros _ p Hp. apply includes_In in Hp.
      destruct anyResult; simpl.
      * rewrite Hget, Hp.
        now destruct (weightedMean e (orClock clock now) p).
      * symmetry in Hany. apply includes_In in Hp.
        pose proof (existsb_false_In _ _ p Hany Hp) as Hs. cbv beta in Hs.
        now destruct (weightedMean e (orClock clock now) p).
Qed.

(** *** Weights are positive *)

Lemma weight_positive (e : Engine) (now : Z) (param : string)
    (iv : Input * R) :
  (exists r, get param (state e) = Some (Real r)) ->
  positive (weight e now param iv).
Proof.
  intros [r Hr]. unfold weight, positive. rewrite Hr. simpl.
  eexists. split; [reflexivity|].
  apply Rmult_lt_0_compat; [apply exp_pos|].
  apply Rlt_le_trans with (1 / 10); [lra | apply Rmax_Rle; left; lra].
Qed.

Lemma fold_nadd_positive (l : list num) :
  Forall positive l ->
  forall a, exists b,
    fold_left nadd l (Real a) = Real b /\ a <= b /\ (l <> [] -> a < b).
Proof.
  induction 1 as [|x l [w [-> Hw]] Hl IH]; intros a.
  - exists a. repeat split; [lra | intros H; now contradiction H].
  - simpl. destruct (IH (a + w)) as (b & Hb & Hle & _).
    exists b. repeat split; [assumption | lra | intros _; lra].
Qed.

Lemma weightedMean_None (e : Engine) (now : Z) (param : string) :
  (exists r, get param (state e) = Some (Real r)) ->
  weightedMean e now param = None <-> qualifying e now param = [].
Proof.
  intros Hst. unfold weightedMean. split.
  - intros H. destruct (qualifying e now param) as [|iv qs] eqn:Hq;
      [reflexivity|]. exfalso.
    assert (Hall : Forall positive
                     (map (weight e now param) (iv :: qs))).
    { apply Forall_forall. intros x Hx. apply in_map_iff in Hx.
      destruct Hx as [iv' [<- _]]. now apply weight_positive. }
    destruct (fold_nadd_positive _ Hall 0) as (b & Hb & _ & Hlt).
    unfold nsum in H. rewrite Hb in H. simpl in H.
    destruct (Rlt_dec 0 b) as [_|Hn]; [discriminate|].
    apply Hn, Hlt. discriminate.
  - intros ->. simpl. unfold nsum. simpl.
    now destruct (Rlt_dec 0 0) as [H|_]; [lra|].
Qed.

Lemma stateOk_In (e : Engine) (p : string) :
  stateOk e -> In p (PARAMETERS (config e)) ->
  exists r, get p (state e) = Some (Real r).
Proof. unfold stateOk. rewrite Forall_forall. auto. Qed.

Lemma qualifyingIn_old (e : Engine) (now : Z) (param : string)
    (inputList : list Input) :
  Forall (fun input =>
            (age now input > INPUT_DECAY_WINDOW_MS (config e))%Z) inputList ->
  qualifyingIn e now param inputList = [].
Proof.
  induction 1 as [|input rest Hold _ IH]; [reflexivity|].
  unfold qualifyingIn in *. simpl. rewrite IH.
  destruct (defines input param); [|reflexivity].
  destruct (Z.leb_spec (age now input) (INPUT_DECAY_WINDOW_MS (config e)));
    [lia | reflexivity].
Qed.

(** A parameter is absent exactly when the weights of its qualifying
    inputs do not sum to more than 0, as when it has none. *)
Lemma weightedMean_totalWeight (e : Engine) (now : Z) (param : string) :
  weightedMean e now param = None
  <-> ngt (totalWeight e now param) (Real 0) = false.
Proof.
  unfold weightedMean, totalWeight.
  destruct (ngt _ (Real 0)); split; intros H; try reflexivity; discriminate.
Qed.

Lemma totalWeight_empty (e : Engine) (now : Z) (param : string) :
  qualifying e now param = [] ->
  ngt (totalWeight e now param) (Real 0) = false.
Proof. unfold totalWeight. intros ->. apply ngt_zero_zero. Qed.

Lemma oneInput_tableOk : tableOk oneInput.
Proof. repeat constructor. Qed.

Lemma oneInput_stateOk : stateOk oneInput.
Proof. repeat constructor; eexists; reflexivity. Qed.

Lemma oneInput_mood : In "mood" (PARAMETERS (config oneInput)).
Proof. now left. Qed.

(** Called with [now = 0] while the clock reads 10000, the engine measures
    ages from 10000 and returns [null]. *)
Lemma oneInput_now_zero :
  calculateConsensus oneInput 10000 (Some 0%Z) = Ok None.
Proof.
  destruct (calculateConsensus_mappings oneInput 10000 (Some 0%Z)
              oneInput_tableOk) as (r & -> & Hnull & _).
  f_equal. apply Hnull. right. intros p Hp.
  apply weightedMean_totalWeight, totalWeight_empty.
  apply qualifyingIn_old. repeat constructor.
Qed.

(** *** C2 *)

(** C2, as amended: for every non-empty input table whose entries hold
    mappings, every recognized parameter [p] and every [now],
    [calculateConsensus(now)] returns, and [p]'s entry in what it returns is
    the weighted mean [sum(value*weight) / sum(weight)] over exactly the
    inputs that define [p] and whose age [t - timestamp] is at most the
    decay window, with the weights of the specification, when
    [sum(weight) > 0], and is absent otherwise; the ages are measured from
    [t], which is [now] when [now] is given and is not 0, and the reading of
    the clock otherwise. *)
Theorem calculateConsensus_weighted_mean (e : Engine) (clock : Z)
    (now : option Z) (p : string) :
  inputs e <> [] ->
  tableOk e ->
  In p (PARAMETERS (config e)) ->
  exists r,
    calculateConsensus e clock now = Ok r
    /\ valueAt (Ok r) p = weightedMean e (orClock clock now) p.
Proof.
  intros Hne Htab Hp.
  destruct (calculateConsensus_mappings e clock now Htab)
    as (r & Hr & _ & Hval).
  exists r. split; [exact Hr | now apply Hval].
Qed.

Lemma calculateConsensus_weighted_mean_witness :
  inputs oneInput <> []
  /\ tableOk oneInput
  /\ In "mood" (PARAMETERS (config oneInput))
  /\ exists r,
       calculateConsensus oneInput 10000 (Some 2%Z) = Ok r
       /\ valueAt (Ok r) "mood"
          = weightedMean oneInput (orClock 10000 (Some 2%Z)) "mood".
Proof.
  split; [discriminate|]. split; [repeat constructor|].
  split; [now left|].
  apply (calculateConsensus_weighted_mean oneInput 10000 (Some 2%Z) "mood");
    [discriminate | repeat constructor | now left].
Defined.

(** C2 as stated fails at [now = 0]: the input of [oneInput] has age
    [0 - 1 <= 5000], so the weighted mean over the inputs that qualify at
    [now = 0] is defined; but [calculateConsensus(0)] replaces [now] by the
    clock reading 10000, finds no qualifying input and returns [null]. *)
Lemma calculateConsensus_weighted_mean_counterexample :
  valueAt (calculateConsensus oneInput 10000 (Some 0%Z)) "mood" = None
  /\ weightedMean oneInput 0 "mood" <> None.
Proof.
  split.
  - now rewrite oneInput_now_zero.
  - intros H.
    apply weightedMean_None in H;
      [discriminate H | apply stateOk_In;
                        [apply oneInput_stateOk | apply oneInput_mood]].
Qed.

(** *** C3 *)

(** C3, as amended: on a table of mappings, [calculateConsensus(now)]
    returns [null] exactly when there is no input entry or no recognized
    parameter has qualifying inputs whose weights sum to more than 0;
    otherwise it returns a mapping in which a recognized parameter is absent
    iff the weights of its qualifying inputs do not sum to more than 0,
    which is the case when it has no qualifying input; and when every input
    is older than the decay window it returns [null].  An input qualifies
    when it defines the parameter and its age, measured from [t], is at
    most the decay window; [t] is [now] when [now] is given and is not 0,
    and the reading of the clock otherwise. *)
Theorem calculateConsensus_null_iff (e : Engine) (clock : Z)
    (now : option Z) :
  tableOk e ->
  exists r,
    calculateConsensus e clock now = Ok r
    /\ (r = None <->
        inputs e = []
        \/ forall p, In p (PARAMETERS (config e)) ->
                     ngt (totalWeight e (orClock clock now) p) (Real 0)
                     = false)
    /\ (forall res, r = Some res ->
          forall p, In p (PARAMETERS (config e)) ->
                    (get p res = None
                     <-> ngt (totalWeight e (orClock clock now) p) (Real 0)
                         = false))
    /\ (forall p, qualifying e (orClock clock now) p = [] ->
                  ngt (totalWeight e (orClock clock now) p) (Real 0) = false)
    /\ ((forall en, In en (inputs e) ->
                    (age (orClock clock now) (snd en)
                     > INPUT_DECAY_WINDOW_MS (config e))%Z) ->
        r = None).
Proof.
  intros Htab.
  destruct (calculateConsensus_mappings e clock now Htab)
    as (r & Hr & Hnull & Hval).
  assert (Hnull' : r = None <->
            inputs e = []
            \/ forall p, In p (PARAMETERS (config e)) ->
                         ngt (totalWeight e (orClock clock now) p) (Real 0)
                         = false).
  { rewrite Hnull. split; (intros [H|H]; [now left | right]);
      intros p Hp; now apply weightedMean_totalWeight, H. }
  exists r. split; [exact Hr|]. split; [exact Hnull'|]. split; [|split].
  - intros res -> p Hp.
    assert (Hne : inputs e <> []).
    { intros Hempty.
      assert (Hn : Some res = None) by (apply Hnull; now left).
      discriminate Hn. }
    specialize (Hval Hne p Hp). simpl in Hval. rewrite Hval.
    apply weightedMean_totalWeight.
  - intros p. apply totalWeight_empty.
  - intros Hold. apply Hnull'. right. intros p _.
    apply totalWeight_empty.
    apply qualifyingIn_old, Forall_forall. intros input Hin.
    apply in_map_iff in Hin. destruct Hin as [en [<- Hen]]. now apply Hold.
Qed.

Lemma calculateConsensus_null_iff_witness :
  tableOk oneInput
  /\ exists r,
       calculateConsensus oneInput 10000 (Some 2%Z) = Ok r
       /\ (r = None <->
           inputs oneInput = []
           \/ forall p, In p (PARAMETERS (config oneInput)) ->
                        ngt (totalWeight oneInput (orClock 10000 (Some 2%Z)) p)
                            (Real 0)
                        = false)
       /\ (forall res, r = Some res ->
             forall p, In p (PARAMETERS (config oneInput)) ->
                       (get p res = None
                        <-> ngt (totalWeight oneInput
                                             (orClock 10000 (Some 2%Z)) p)
                                (Real 0)
                            = false))
       /\ (forall p, qualifying oneInput (orClock 10000 (Some 2%Z)) p = [] ->
                     ngt (totalWeight oneInput (orClock 10000 (Some 2%Z)) p)
                         (Real 0) = false)
       /\ ((forall en, In en (inputs oneInput) ->
                       (age (orClock 10000 (Some 2%Z)) (snd en)
                        > INPUT_DECAY_WINDOW_MS (config oneInput))%Z) ->
           r = None).
Proof.
  split; [repeat constructor|].
  apply (calculateConsensus_null_iff oneInput 10000 (Some 2%Z)).
  repeat constructor.
Defined.

(** C3 as stated fails at [now = 0]: the table of [oneInput] is not empty
    and its input qualifies for ["mood"] at [now = 0] (age [0 - 1 <= 5000]),
    yet [calculateConsensus(0)], which measures ages from the clock reading
    10000, returns [null]. *)
Lemma calculateConsensus_null_iff_counterexample :
  calculateConsensus oneInput 10000 (Some 0%Z) = Ok None
  /\ inputs oneInput <> []
  /\ In "mood" (PARAMETERS (config oneInput))
  /\ qualifying oneInput 0 "mood" <> [].
Proof.
  split; [apply oneInput_now_zero|]. split; [discriminate|].
  split; [now left | discriminate].
Qed.

(** *** C4: overrides take precedence *)

Lemma applyEntry_other (e : Engine) (st : obj num) (param p : string)
    (value : num) :
  p <> param -> get p (applyEntry e st (param, value)) = get p st.
Proof.
  intros Hne. unfold applyEntry.
  destruct (truthy _ && notNull _); [reflexivity|].
  now apply get_set_other.
Qed.

Lemma applyEntry_overridden (e : Engine) (st : obj num) (param : string)
    (value : num) :
  truthy (get "active" (overrides e)) = true ->
  notNull (get param (overrides e)) = true ->
  applyEntry e st (param, value) = st.
Proof. unfold applyEntry. now intros -> ->. Qed.

Lemma fold_applyEntry_overridden (e : Engine) (p : string) (c : obj num) :
  truthy (get "active" (overrides e)) = true ->
  notNull (get p (overrides e)) = true ->
  forall st, get p (fold_left (applyEntry e) c st) = get p st.
Proof.
  intros Hact Hov.
  induction c as [|[param value] c IH]; intros st; cbn [fold_left];
    [reflexivity|].
  rewrite IH. destruct (String.eqb_spec p param) as [<-|Hne].
  - now rewrite applyEntry_overridden.
  - now apply applyEntry_other.
Qed.

Lemma fold_applyEntry_absent (e : Engine) (p : string) (c : obj num) :
  ~ In p (keys c) ->
  forall st, get p (fold_left (applyEntry e) c st) = get p st.
Proof.
  induction c as [|[param value] c IH]; intros Hnot st; cbn [fold_left];
    [reflexivity|].
  simpl in Hnot. rewrite IH by tauto.
  apply applyEntry_other. intros ->. tauto.
Qed.

Lemma fold_applyEntry_moves (e : Engine) (p : string) (v : num)
    (c : obj num) :
  truthy (get "active" (overrides e)) && notNull (get p (overrides e))
  = false ->
  NoDup (keys c) -> get p c = Some v ->
  forall st,
    get p (fold_left (applyEntry e) c st)
    = Some (nadd (toNumber (get p st))
                 (nmul (nsub v (toNumber (get p st)))
                       (Real (CONSENSUS_SMOOTHING (config e))))).
Proof.
  intros Hfree. induction c as [|[param value] c IH]; intros Hnd Hget st;
    simpl in Hnd, Hget; [discriminate|].
  cbn [fold_left].
  inversion Hnd as [|? ? Hnotin Hnd']; subst.
  destruct (String.eqb_spec p param) as [<-|Hne].
  - injection Hget as ->. rewrite fold_applyEntry_absent by assumption.
    unfold applyEntry. rewrite Hfree. apply get_set_same.
  - rewrite (IH Hnd' Hget). now rewrite applyEntry_other.
Qed.

Lemma record_keeps (e : Engine) (pl : payload) :
  config (record e pl) = config e
  /\ state (record e pl) = state e
  /\ overrides (record e pl) = overrides e.
Proof.
  unfold record, recordInput.
  destruct (falsyId _ || negb _); [auto|]. now destruct (pUser pl).
Qed.

Lemma records_keep (payloads : list payload) :
  forall e,
    config (fold_left record payloads e) = config e
    /\ state (fold_left record payloads e) = state e
    /\ overrides (fold_left record payloads e) = overrides e.
Proof.
  induction payloads as [|pl rest IH]; intros e; simpl; [auto|].
  destruct (IH (record e pl)) as (-> & -> & ->). apply record_keeps.
Qed.

Lemma tick_overridden (e : Engine) (clock : Z) (now : option Z)
    (p : string) :
  truthy (get "active" (overrides e)) = true ->
  notNull (get p (overrides e)) = true ->
  get p (state (tick e clock now)) = get p (state e).
Proof.
  intros Hact Hov. unfold tick.
  destruct (calculateConsensus e clock now) as [[c|]|]; try reflexivity.
  simpl. now apply fold_applyEntry_overridden.
Qed.

(** C4: [applyConsensus] leaves [state[p]] as it is for every parameter
    [p] with an active non-null override, whatever the consensus holds for
    [p]; after [setOverride('mood', 0.2)] and any recorded inputs,
    [applyConsensus(calculateConsensus(now))] leaves [state.mood] equal to
    0.2; and a parameter of the consensus without an override moves to
    [state[p] + (consensusValue - state[p]) * alpha]. *)
Theorem override_precedence :
  (forall e consensus p v,
      truthy (get "active" (overrides e)) = true ->
      get p (overrides e) = Some (ONum v) ->
      get p (state (fst (applyConsensus e consensus))) = get p (state e))
  /\ (forall e payloads clock now,
         In "mood" (PARAMETERS (config e)) ->
         get "mood"
             (state (tick (fold_left record payloads
                                     (setOverride e "mood" (Some (2 / 10))))
                          clock now))
         = Some (Real (2 / 10)))
  /\ (forall e c p v,
         NoDup (keys c) ->
         get p c = Some v ->
         truthy (get "active" (overrides e))
         && notNull (get p (overrides e)) = false ->
         get p (state (fst (applyConsensus e (Some c))))
         = Some (nadd (toNumber (get p (state e)))
                      (nmul (nsub v (toNumber (get p (state e))))
                            (Real (CONSENSUS_SMOOTHING (config e)))))).
Proof.
  split; [|split].
  - intros e [c|] p v Hact Hov; simpl; [|reflexivity].
    apply fold_applyEntry_overridden; [assumption | now rewrite Hov].
  - intros e payloads clock now Hmood.
    set (e1 := setOverride e "mood" (Some (2 / 10))).
    destruct (records_keep payloads e1) as (_ & Hst & Hov).
    assert (Hinc : includes "mood" (PARAMETERS (config e)) = true)
      by now apply includes_In.
    rewrite tick_overridden.
    + rewrite Hst. unfold e1, setOverride. rewrite Hinc. simpl.
      apply get_set_same.
    + rewrite Hov. unfold e1, setOverride. rewrite Hinc. simpl.
      now rewrite get_set_same.
    + rewrite Hov. unfold e1, setOverride. rewrite Hinc. simpl.
      rewrite get_set_other by discriminate. now rewrite get_set_same.
  - intros e c p v Hnd Hget Hfree. simpl.
    now apply fold_applyEntry_moves.
Qed.

(** The scenario of the unit test: an override [mood = 0.2], a fresh
    conflicting input [mood = 0.9], one tick. *)
Lemma override_precedence_witness :
  get "mood"
      (state (tick (fold_left record
                              [mkPayload (Some "user1")
                                         (VObject [("mood", 9 / 10)])
                                         (Some 1000%Z) 1000]
                              (setOverride (new DEFAULT_CONFIG) "mood"
                                           (Some (2 / 10))))
                   1000 (Some 1000%Z)))
  = Some (Real (2 / 10)).
Proof.
  apply (proj1 (proj2 override_precedence)). now left.
Defined.

End ConsensusFacts.

(** ** The unit tests of the repository, replayed on the model *)

Module UnitTests.
Local Open Scope Z_scope.

Example transpose_clamps_high :
  Generator.transpose [125; 126; 127] 5 = [127; 127; 127].
Proof. reflexivity. Qed.

Example transpose_clamps_low :
  Generator.transpose [2; 1; 0] (-5) = [0; 0; 0].
Proof. reflexivity. Qed.

Example recursion_depth_two_length :
  option_map (@List.length Z)
             (match Generator.applyRecursion [60; 64] 2 with
              | Ok out => Some out
              | Throw _ => None
              end)
  = Some 18%nat.
Proof. reflexivity. Qed.

Example recursion_negative_depth :
  Generator.applyRecursion [60] (-1) = Throw "Recursion depth must be >= 0".
Proof. reflexivity. Qed.

Example bridge_invalid_port :
  let '(ok, b, _) :=
    OscBridge.connect
      (OscBridge.new (OscBridge.mkOptions None (Some (-1)) None)) in
  ok = false /\ OscBridge.state b = OscBridge.ERROR.
Proof. split; reflexivity. Qed.

Example bridge_type_tags :
  option_map OscBridge.typeTag
    (match OscBridge.formatMessage 0 "/omni/mood" (OscBridge.VNumber (3 # 4))
     with Ok m => Some m | Throw _ => None end) = Some "f"%string
  /\ option_map OscBridge.typeTag
       (match OscBridge.formatMessage 0 "/omni/note" (OscBridge.VNumber 60)
        with Ok m => Some m | Throw _ => None end) = Some "i"%string
  /\ OscBridge.formatMessage 0 "no-slash" (OscBridge.VNumber 1)
     = Throw "Invalid OSC address".
Proof. repeat split. Qed.

Example consensus_rejects_invalid_inputs :
  Consensus.getInputCount
    (Consensus.recordInput
       (Consensus.recordInput (Consensus.new Consensus.DEFAULT_CONFIG) 7
                              None (Consensus.VObject []) None)
       7 (Some "user1"%string) (Consensus.VString "not-an-object") None)
  = 0%nat.
Proof. reflexivity. Qed.

Example consensus_no_inputs :
  Consensus.calculateConsensus (Consensus.new Consensus.DEFAULT_CONFIG)
                               7 None
  = Ok None.
Proof. reflexivity. Qed.

End UnitTests.

(** The scheduler's tests, and the runs that show NaN and inherited
    names at work. *)

Module SchedulerTests.
Import Floats.
Import Scheduler.
Local Open Scope float_scope.

Example beat_durations :
  new (Some 60) = Ok (mkScheduler 60 1000 [] 0)
  /\ new (Some 10) = Throw "BPM must be between 20 and 300"
  /\ getSubdivisionDuration init "sixteenth" = Ok 125
  /\ getSubdivisionDuration init "thirty_second" = Throw "Unknown subdivision".
Proof. repeat split. Qed.

Example schedule_kept_sorted :
  map time
      (getSchedule
         (run sortByTime init [ScheduleNote 60 1000 None None;
                               ScheduleNote 64 500 None None;
                               ScheduleNote 67 0 None None]))
  = [0; 500; 1000].
Proof. reflexivity. Qed.

Example schedule_rejects_bad_note :
  scheduleNote sortByTime init 200 0 None None = Throw "Invalid MIDI note"
  /\ scheduleNote sortByTime init 60 (-100) None None
     = Throw "Time must be a non-negative number".
Proof. split; reflexivity. Qed.

Example beat_numbers :
  getBeatAt init 0 = 0 /\ getBeatAt init 750 = 1 /\ getBeatAt init 1000 = 2.
Proof. repeat split. Qed.

Example quantize_quarter_notes :
  quantize init 230 None = Ok 0
  /\ quantize init 260 None = Ok 500
  /\ quantize init 740 None = Ok 500
  /\ quantize init 760 None = Ok 1000
  /\ quantize init 375 (Some "eighth"%string) = Ok 500.
Proof. repeat split. Qed.

(** A name that the table inherits is not [undefined]: the duration is
    NaN and nothing is thrown. *)
Example inherited_subdivision :
  getSubdivisionDuration init "toString" = Ok nan.
Proof. reflexivity. Qed.

(** [quantizeAll('constructor')] on two scheduled notes throws nothing and
    leaves two NaN times. *)
Example inherited_quantizeAll :
  map time
      (getSchedule
         (run sortByTime init [ScheduleNote 60 1000 None None;
                               ScheduleNote 61 100 None None;
                               QuantizeAll (Some "constructor"%string)]))
  = [nan; nan].
Proof. reflexivity. Qed.

(** A NaN time passes the guard of [scheduleNote] and stays where the
    stable sort finds it. *)
Example nan_time_stored :
  map time
      (getSchedule
         (run sortByTime init [ScheduleNote 60 500 None None;
                               ScheduleNote 61 nan None None;
                               ScheduleNote 62 0 None None;
                               ScheduleNote 62 100 None None]))
  = [500; nan; 0; 100].
Proof. reflexivity. Qed.

(** At 21 BPM the time of beat 8 is 20000 ms, in which [getBeatAt] counts
    6 whole beats: the stored beat is a little above [60000 / 21]. *)
Example beat_round_trip_21 :
  exists s s' ev,
    new (Some 21) = Ok s
    /\ scheduleAtBeat sortByTime s 60 8 None None = Ok (s', ev)
    /\ time ev = 20000
    /\ getBeatAt s' (time ev) = 6.
Proof. do 3 eexists. repeat split. Qed.

End SchedulerTests.

(* ================================================================== *)
(** * Further properties *)
(* ================================================================== *)

(** ** Generator: random source, sequence generation, transposition, names *)

Module GeneratorExtra.
Import Generator GeneratorFacts.
Local Open Scope Z_scope.

Lemma toUint32_range (x : Z) : 0 <= toUint32 x < 4294967296.
Proof.
  unfold toUint32. change (2 ^ 32) with 4294967296.
  apply Z.mod_pos_bound. lia.
Qed.

Lemma fraction_range (x : Z) :
  (0 <= toUint32 x # 4294967296 /\ toUint32 x # 4294967296 < 1)%Q.
Proof.
  pose proof (toUint32_range x) as Hu. unfold Qle, Qlt. simpl. lia.
Qed.

Lemma next_range (s : Z) : (0 <= fst (next s) /\ fst (next s) < 1)%Q.
Proof. unfold next. cbv zeta. cbn [fst]. apply fraction_range. Qed.

Lemma draws_range (n : nat) :
  forall s, Forall (fun v => 0 <= v /\ v < 1)%Q (draws s n).
Proof.
  induction n as [|n IH]; intros s; cbn [draws]; [constructor|].
  pose proof (next_range s) as Hr. destruct (next s) as [v s'].
  constructor; [exact Hr | apply IH].
Qed.

Lemma draws_length (n : nat) : forall s, List.length (draws s n) = n.
Proof.
  induction n as [|n IH]; intros s; cbn [draws]; [reflexivity|].
  destruct (next s) as [v s']. cbn [List.length]. now rewrite IH.
Qed.

(** X1: every value a generator made by [seededRandom] produces, at every
    position and for every seed, is a number in [0, 1). *)
Theorem seededRandom_unit_interval (seed : Z) (k : nat) :
  (0 <= output (seededRandom seed) k /\ output (seededRandom seed) k < 1)%Q.
Proof.
  generalize (seededRandom seed).
  induction k as [|k IH]; intros s; cbn [output].
  - apply next_range.
  - apply IH.
Qed.

(** *** generateSequence *)

Lemma assoc_In {A : Type} (k : string) (o : list (string * A)) (v : A) :
  assoc k o = Some v -> In (k, v) o.
Proof.
  induction o as [|[k' v'] o IH]; simpl; [discriminate|].
  destruct (String.eqb_spec k k') as [<-|_].
  - intros H. injection H as <-. now left.
  - intros H. right. now apply IH.
Qed.

Lemma getScale_has_root (scaleName : string) (intervals : list Z) :
  getScale scaleName = Ok intervals -> In 0 intervals.
Proof.
  unfold getScale.
  destruct (assoc scaleName SCALES) as [l|] eqn:H; [|discriminate].
  intros Hl. injection Hl as <-. apply assoc_In in H.
  assert (Hall : Forall (fun kv : string * list Z => In 0 (snd kv)) SCALES)
    by (repeat constructor).
  rewrite Forall_forall in Hall. exact (Hall _ H).
Qed.

(** The notes of the pool are the notes [root + 12 * octave + interval] of
    the requested octaves that are MIDI notes. *)
Lemma notePool_In (intervals : list Z) (rootNote octaveRange n : Z) :
  In n (notePool intervals rootNote octaveRange) <->
  midi n
  /\ exists octave interval,
       0 <= octave < octaveRange /\ In interval intervals
       /\ n = rootNote + octave * 12 + interval.
Proof.
  unfold notePool, midi. rewrite in_flat_map. split.
  - intros (octave & Ho & Hn). apply filter_In in Hn. destruct Hn as [Hn Hr].
    apply in_map_iff in Ho. destruct Ho as (o & <- & Ho).
    apply in_seq in Ho. apply in_map_iff in Hn.
    destruct Hn as (interval & <- & Hi).
    split; [lia|]. exists (Z.of_nat o), interval. repeat split; auto; lia.
  - intros (Hr & octave & interval & Ho & Hi & ->).
    exists octave. split.
    + apply in_map_iff. exists (Z.to_nat octave). split; [lia|].
      apply in_seq. lia.
    + apply filter_In. split; [|lia].
      apply in_map_iff. now exists interval.
Qed.

Lemma pick_In (pool : list Z) (v : Q) :
  pool <> [] -> (0 <= v /\ v < 1)%Q -> In (pick pool v) pool.
Proof.
  intros Hne [H0 H1]. unfold pick. apply nth_In.
  set (len := Z.of_nat (List.length pool)).
  assert (Hlen : 0 < len)
    by (unfold len; destruct pool; [contradiction | simpl; lia]).
  assert (Hlo : 0 <= Qfloor (v * inject_Z len)).
  { change 0 with (Qfloor 0). apply Qfloor_resp_le.
    apply Qmult_le_0_compat; [assumption|].
    change 0%Q with (inject_Z 0). rewrite <- Zle_Qle. lia. }
  assert (Hhi : Qfloor (v * inject_Z len) < len).
  { rewrite Zlt_Qlt.
    apply Qle_lt_trans with (v * inject_Z len)%Q; [apply Qfloor_le|].
    rewrite <- (Qmult_1_l (inject_Z len)) at 2.
    apply Qmult_lt_compat_r; [|assumption].
    change 0%Q with (inject_Z 0). rewrite <- Zlt_Qlt. lia. }
  apply Nat2Z.inj_lt. rewrite Z2Nat.id by assumption. exact Hhi.
Qed.

(** X2: with a length in [1,256], a known scale, a root that is a MIDI
    note and at least one octave, [generateSequence] returns a sequence of
    exactly [length] notes, each a MIDI note of the form
    [root + 12 * octave + interval] with [0 <= octave < octaveRange] and
    [interval] in the scale, whatever the seed. *)
Theorem generateSequence_returns (length : Z) (scaleName : string)
    (seed : option Z) (rootNote octaveRange : Z) (intervals : list Z) :
  1 <= length <= 256 ->
  getScale scaleName = Ok intervals ->
  midi rootNote ->
  1 <= octaveRange ->
  exists sequence,
    generateSequence length scaleName seed (Some rootNote) (Some octaveRange)
    = Ok sequence
    /\ Z.of_nat (List.length sequence) = length
    /\ Forall
         (fun n =>
            midi n
            /\ exists octave interval,
                 0 <= octave < octaveRange /\ In interval intervals
                 /\ n = rootNote + octave * 12 + interval)
         sequence.
Proof.
  intros Hlen Hscale Hroot Hoct. unfold generateSequence.
  destruct (length <? 1) eqn:H1; [lia|].
  destruct (256 <? length) eqn:H2; [lia|]. simpl orb. cbv iota.
  rewrite Hscale.
  set (pool := notePool intervals rootNote octaveRange).
  assert (Hin : In rootNote pool).
  { apply notePool_In. split; [assumption|].
    exists 0, 0. repeat split; try lia.
    eapply getScale_has_root, Hscale. }
  assert (Hne : pool <> []) by (intros E; rewrite E in Hin; contradiction).
  destruct (List.length pool =? 0)%nat eqn:Hz.
  { apply Nat.eqb_eq, length_zero_iff_nil in Hz. contradiction. }
  eexists. split; [reflexivity|]. split.
  - rewrite length_map, draws_length, Z2Nat.id; lia.
  - apply Forall_forall. intros n Hn. apply in_map_iff in Hn.
    destruct Hn as (v & <- & Hv). apply notePool_In.
    apply pick_In; [assumption|].
    pose proof (draws_range (Z.to_nat length)
                  (seededRandom match seed with Some x => x | None => 42 end))
      as Hr.
    rewrite Forall_forall in Hr. now apply Hr.
Qed.

Lemma generateSequence_returns_witness :
  1 <= 16 <= 256
  /\ getScale "blues" = Ok [0; 3; 5; 6; 7; 10]
  /\ midi 120
  /\ 1 <= 3
  /\ exists sequence,
       generateSequence 16 "blues" (Some 7) (Some 120) (Some 3) = Ok sequence
       /\ Z.of_nat (List.length sequence) = 16
       /\ Forall
            (fun n =>
               midi n
               /\ exists octave interval,
                    0 <= octave < 3 /\ In interval [0; 3; 5; 6; 7; 10]
                    /\ n = 120 + octave * 12 + interval)
            sequence.
Proof.
  split; [lia|]. split; [reflexivity|]. split; [unfold midi; lia|].
  split; [lia|].
  apply (generateSequence_returns 16 "blues" (Some 7) 120 3);
    [lia | reflexivity | unfold midi; lia | lia].
Defined.

(** X3: for a whole-number length, and a seed, root note and octave range
    that are whole numbers or left out: when [generateSequence] returns it
    was given a length in [1,256] and a known scale, and it returns exactly
    that many notes, all in [0,127]; a length below 1 or above 256 and an
    unknown scale name make it throw. *)
Theorem generateSequence_checked (length : Z) (scaleName : string)
    (seed rootNote octaveRange : option Z) :
  (forall sequence,
      generateSequence length scaleName seed rootNote octaveRange
      = Ok sequence ->
      1 <= length <= 256
      /\ (exists intervals, getScale scaleName = Ok intervals)
      /\ Z.of_nat (List.length sequence) = length
      /\ Forall midi sequence)
  /\ (length < 1 \/ 256 < length \/ assoc scaleName SCALES = None ->
      exists m,
        generateSequence length scaleName seed rootNote octaveRange
        = Throw m).
Proof.
  unfold generateSequence. split.
  - intros sequence.
    destruct (length <? 1) eqn:H1; [discriminate|].
    destruct (256 <? length) eqn:H2; [discriminate|]. simpl orb. cbv iota.
    destruct (getScale scaleName) as [intervals|] eqn:Hs; [|discriminate].
    match goal with
    | |- context [notePool ?i ?r ?o] => set (pool := notePool i r o)
    end.
    destruct (List.length pool =? 0)%nat eqn:Hz; [discriminate|].
    intros H. injection H as <-.
    split; [lia|]. split; [eauto|]. split.
    + rewrite length_map, draws_length, Z2Nat.id; lia.
    + apply Forall_forall. intros n Hn. apply in_map_iff in Hn.
      destruct Hn as (v & <- & Hv).
      assert (Hne : pool <> [])
        by (intros E; rewrite E in Hz; discriminate).
      assert (Hp : In (pick pool v) pool).
      { apply pick_In; [assumption|].
        match type of Hv with
        | In _ (draws ?s ?n) => pose proof (draws_range n s) as Hr
        end.
        rewrite Forall_forall in Hr. now apply Hr. }
      now apply notePool_In in Hp.
  - intros [H | [H | H]].
    + destruct (Z.ltb_spec length 1); [|lia]. simpl. eauto.
    + destruct (Z.ltb_spec 256 length); [|lia].
      rewrite orb_true_r. eauto.
    + destruct (_ || _); [eauto|]. unfold getScale. rewrite H. eauto.
Qed.

(** *** transpose *)

(** X4: [transpose] keeps the length of the sequence and returns only
    notes in [0,127]; and when the notes are in [0,127] and none leaves
    [0,127] on the way up (or down), transposing back by the opposite
    interval restores the sequence. *)
Theorem transpose_round_trip (sequence : list Z) (semitones : Z) :
  List.length (transpose sequence semitones) = List.length sequence
  /\ Forall midi (transpose sequence semitones)
  /\ (Forall midi sequence ->
      Forall (fun n => midi (n + semitones)) sequence ->
      transpose (transpose sequence semitones) (- semitones) = sequence).
Proof.
  unfold transpose. split; [apply length_map|]. split.
  - apply Forall_forall. intros n Hn. apply in_map_iff in Hn.
    destruct Hn as (x & <- & _). apply clampMidi_midi.
  - intros Hin Hall. rewrite map_map.
    rewrite <- (map_id sequence) at 2. apply map_ext_in.
    intros n Hn. rewrite Forall_forall in Hin, Hall.
    specialize (Hin n Hn). specialize (Hall n Hn).
    unfold midi, clampMidi in *. lia.
Qed.

(** *** midiToNoteName *)

Lemma midiNotes_In (n : Z) : midi n -> In n midiNotes.
Proof.
  intros [H0 H1]. unfold midiNotes. apply in_map_iff.
  exists (Z.to_nat n). split; [lia|]. apply in_seq. lia.
Qed.

(** X5: over the MIDI range the note name determines the note: two notes
    of [0,127] with the same name are the same note. *)
Theorem midiToNoteName_injective (a b : Z) :
  midi a -> midi b -> midiToNoteName a = midiToNoteName b -> a = b.
Proof.
  intros Ha Hb Heq.
  assert (Hall :
    forallb (fun x =>
               forallb (fun y =>
                          implb (String.eqb (midiToNoteName x)
                                            (midiToNoteName y))
                                (x =? y))
                       midiNotes)
            midiNotes = true) by (vm_compute; reflexivity).
  rewrite forallb_forall in Hall.
  specialize (Hall a (midiNotes_In a Ha)). rewrite forallb_forall in Hall.
  specialize (Hall b (midiNotes_In b Hb)).
  rewrite Heq, String.eqb_refl in Hall. simpl in Hall.
  now apply Z.eqb_eq.
Qed.

Lemma midiToNoteName_injective_witness :
  midi 60 /\ midi 60
  /\ midiToNoteName 60 = midiToNoteName 60
  /\ 60 = 60.
Proof.
  split; [unfold midi; lia|]. split; [unfold midi; lia|].
  split; [reflexivity|].
  apply (midiToNoteName_injective 60 60);
    [unfold midi; lia | unfold midi; lia | reflexivity].
Defined.

End GeneratorExtra.

(** ** Scheduler: tempo, placement of notes, beats, ranges, quantization *)

Module SchedulerExtra.
Import Floats.
Import Number NumberFacts NumberBounds NumberSigns Scheduler.
Import SchedulerSorting SchedulerTempo SchedulerRounding SchedulerGrid.
Import SchedulerReach SchedulerFacts.
Local Open Scope float_scope.

(** A schedule of numbers obtained from a new scheduler is sorted. *)
Lemma reachable_sorted (sort : list ScheduledEvent -> list ScheduledEvent)
    (bpm : option float) (s0 : Scheduler) (calls : list call) :
  conforming sort -> new bpm = Ok s0 ->
  numbers (getSchedule (run sort s0 calls)) ->
  sortedByTime (getSchedule (run sort s0 calls)).
Proof.
  intros Hsort Hnew. apply run_sorted; [assumption|].
  intros _. rewrite (new_empty _ _ Hnew). constructor.
Qed.

Lemma sorted_strongly (l : list ScheduledEvent) :
  sortedByTime l -> StronglySorted notAfter l.
Proof.
  apply Sorted_StronglySorted. intros a b c. unfold notAfter. apply leb_trans.
Qed.

(** *** setBPM *)

Lemma tempo_product (bpm : float) :
  Fin bpm -> (20 <= B2R bpm <= 300)%R ->
  (Rabs (B2R ((60 / bpm) * 1000) * B2R bpm - 60000)
   <= 60000 * pow2 (-51))%R.
Proof.
  intros Hf Hb.
  destruct lit60 as [F60 R60], lit1000 as [F1000 R1000].
  pose proof u_bounds as [Hu0 Hu1]. pose proof u_value as Hu.
  pose proof pow2_m51 as H51.
  destruct (div_bounds 60 bpm 60 60 20 300) as (Hf1 & Hr1 & Hb1);
    try rewrite R60; auto; try lra.
  destruct (mul_bounds (60 / bpm) 1000 (1999 / 10000) (30001 / 10000)
                        1000 1000)
    as (Hf2 & Hr2 & Hb2); try rewrite R1000; auto; try lra.
  apply rounded_pos in Hr1.
  2:{ rewrite R60. apply Rle_trans with (60 / 300)%R; [lra|].
      unfold Rdiv. apply Rmult_le_compat_l; [lra|].
      apply Rinv_le_contravar; lra. }
  apply rounded_pos in Hr2; [|rewrite R1000; lra].
  rewrite R60 in Hr1. rewrite R1000 in Hr2.
  set (x := B2R (60 / bpm)) in *. set (y := B2R (60 / bpm * 1000)) in *.
  set (B := B2R bpm) in *. set (u := pow2 (-53)) in *.
  assert (HB : (60 / B * B = 60)%R) by (field; lra).
  assert (Hx : (60 * (1 - u) <= x * B <= 60 * (1 + u))%R).
  { destruct Hr1 as [Ha Hc].
    apply (Rmult_le_compat_r B) in Ha; [|lra].
    apply (Rmult_le_compat_r B) in Hc; [|lra].
    replace (60 / B * (1 - u) * B)%R with (60 / B * B * (1 - u))%R in Ha
      by ring.
    replace (60 / B * (1 + u) * B)%R with (60 / B * B * (1 + u))%R in Hc
      by ring.
    rewrite HB in Ha, Hc. lra. }
  assert (Hy : (x * B * 1000 * (1 - u) <= y * B
                <= x * B * 1000 * (1 + u))%R).
  { destruct Hr2 as [Ha Hc].
    apply (Rmult_le_compat_r B) in Ha; [|lra].
    apply (Rmult_le_compat_r B) in Hc; [|lra]. lra. }
  rewrite H51. set (p := (x * B)%R) in *.
  apply Rabs_le. rewrite Hu in *. split; nra.
Qed.

(** X6: [setBPM] throws exactly when [bpm < 20] or [bpm > 300] holds;
    otherwise it stores the tempo with the beat [(60 / bpm) * 1000] and
    leaves the scheduled events and the beat cursor as they are (events are
    not moved to the new tempo).  An accepted tempo that is a number lies in
    [20,300], and its beat times the tempo is 60000 within [60000 * 2^-51];
    NaN, for which both comparisons are false, is accepted. *)
Theorem setBPM_range (s : Scheduler) (bpm : float) :
  ((exists m, setBPM s bpm = Throw m)
   <-> (bpm <? 20) = true \/ (300 <? bpm) = true)
  /\ (forall s',
         setBPM s bpm = Ok s' ->
         getBPM s' = bpm
         /\ getBeatDuration s' = (60 / bpm) * 1000
         /\ getSchedule s' = getSchedule s
         /\ _nextBeatIndex s' = _nextBeatIndex s
         /\ (is_nan bpm = false ->
             Fin bpm /\ (20 <= B2R bpm <= 300)%R
             /\ Fin (getBeatDuration s')
             /\ (Rabs (B2R (getBeatDuration s') * B2R bpm - 60000)
                 <= 60000 * pow2 (-51))%R))
  /\ (is_nan bpm = true -> exists s', setBPM s bpm = Ok s').
Proof.
  unfold setBPM. split; [|split].
  - destruct (bpm <? 20), (300 <? bpm); cbn [orb]; split;
      intros H; eauto; destruct H; discriminate.
  - intros s'. destruct (bpm <? 20) eqn:H1; [discriminate|].
    destruct (300 <? bpm) eqn:H2; [discriminate|]. cbn [orb].
    intros H. injection H as <-. unfold getBPM, getBeatDuration, getSchedule.
    cbn. repeat split; try reflexivity;
      destruct (tempo_range bpm H H1 H2) as [Hf Hb];
      try tauto.
    + now apply beat_bounds.
    + now apply tempo_product.
  - intros Hn. rewrite !ltb_nan by auto. cbn [orb]. eauto.
Qed.

(** *** Placement of a new note *)

Lemma notAfter_positive (e y : ScheduledEvent) :
  notAfter e y -> (0 <? byTime e y) = false.
Proof.
  unfold notAfter. intros H. pose proof (leb_true _ _ H) as (He & Hy & _).
  rewrite (byTime_positive e y He Hy). now apply leb_ltb_false.
Qed.

Lemma insert_first (e : ScheduledEvent) (l : list ScheduledEvent) :
  HdRel notAfter e l -> insert e l = e :: l.
Proof.
  intros H. destruct l as [|y l]; [reflexivity|]. simpl.
  inversion H as [|? ? Hey]; subst. now rewrite (notAfter_positive e y Hey).
Qed.

Lemma sortByTime_sorted_id (l : list ScheduledEvent) :
  sortedByTime l -> sortByTime l = l.
Proof.
  induction 1 as [|x l Hs IH Hhd]; [reflexivity|].
  simpl. fold (sortByTime l). rewrite IH. now apply insert_first.
Qed.

Lemma filter_none {A : Type} (f : A -> bool) (l : list A) :
  Forall (fun x => f x = false) l -> filter f l = [].
Proof.
  induction 1 as [|x l Hx _ IH]; simpl; [reflexivity|]. now rewrite Hx.
Qed.

Lemma filter_all {A : Type} (f : A -> bool) (l : list A) :
  Forall (fun x => f x = true) l -> filter f l = l.
Proof.
  induction 1 as [|x l Hx _ IH]; simpl; [reflexivity|].
  now rewrite Hx, IH.
Qed.

Lemma sort_append (l : list ScheduledEvent) (ev : ScheduledEvent) :
  is_nan (time ev) = false -> numbers l -> sortedByTime l ->
  sortByTime (l ++ [ev])
  = (filter (fun x => time x <=? time ev) l
     ++ ev :: filter (fun x => negb (time x <=? time ev)) l)%list.
Proof.
  intros Hev Hn Hs. apply sorted_strongly in Hs.
  induction Hs as [|x l Hs IH Hall]; [reflexivity|].
  inversion Hn as [|? ? Hx Hn']; subst.
  simpl app. simpl sortByTime. fold (sortByTime (l ++ [ev])).
  rewrite (IH Hn'). simpl filter.
  destruct (time x <=? time ev) eqn:Hxe; simpl negb; cbv iota.
  - simpl app. apply insert_first.
    destruct (filter _ l) as [|y r] eqn:Hf; simpl.
    + constructor. exact Hxe.
    + constructor. rewrite Forall_forall in Hall. apply Hall.
      assert (Hy : In y (filter (fun x0 => time x0 <=? time ev) l))
        by (rewrite Hf; now left).
      now apply filter_In in Hy.
  - assert (Hlate : Forall (fun y => (time y <=? time ev) = false) l).
    { rewrite Forall_forall in Hall |- *. intros y Hy.
      destruct (time y <=? time ev) eqn:Hye; [|reflexivity].
      pose proof (leb_trans _ _ _ (Hall y Hy) Hye). congruence. }
    rewrite (filter_none _ _ Hlate).
    rewrite filter_all
      by (apply Forall_impl with (2 := Hlate); intros y Hy; now rewrite Hy).
    simpl.
    rewrite (byTime_positive x ev Hx Hev), (ltb_negb_leb _ _ Hev Hx), Hxe.
    simpl. f_equal. apply insert_first.
    destruct l as [|y r]; constructor.
    inversion Hall; subst. assumption.
Qed.

(** X7: on a scheduler obtained from a new one whose schedule holds no NaN
    time, [scheduleNote] with a note in [0,127] and a time [>= 0] returns
    the event it stores (duration and velocity as supplied, one beat and
    100 by default) and puts it after every stored event that starts no
    later than it and before every stored event that starts later; the
    other events keep their order. *)
Theorem scheduleNote_placement
    (sort : list ScheduledEvent -> list ScheduledEvent)
    (bpm : option float) (s0 : Scheduler) (calls : list call) (n t : float)
    (d v : option float) :
  conforming sort ->
  new bpm = Ok s0 ->
  numbers (getSchedule (run sort s0 calls)) ->
  (0 <=? n) = true /\ (n <=? 127) = true ->
  (0 <=? t) = true ->
  exists s' ev,
    scheduleNote sort (run sort s0 calls) n t d v = Ok (s', ev)
    /\ ev = mkEvent n t
              (match d with
               | Some x => x
               | None => getBeatDuration (run sort s0 calls)
               end)
              (match v with Some x => x | None => 100 end)
    /\ getSchedule s'
       = (filter (fun x => time x <=? t) (getSchedule (run sort s0 calls))
          ++ ev :: filter (fun x => negb (time x <=? t))
                          (getSchedule (run sort s0 calls)))%list.
Proof.
  intros Hsort Hnew Hnum [Hn0 Hn1] Ht.
  pose proof (reachable_sorted sort bpm s0 calls Hsort Hnew Hnum) as Hs.
  pose proof (leb_true _ _ Ht) as (_ & Hnt & _).
  unfold scheduleNote.
  rewrite (leb_ltb_false _ _ Hn0), (leb_ltb_false _ _ Hn1),
    (leb_ltb_false _ _ Ht). cbn [orb].
  eexists. eexists. split; [reflexivity|]. split; [reflexivity|].
  unfold getSchedule in *. cbn [_scheduledNotes].
  destruct Hsort as [_ Hstable]. rewrite Hstable.
  - now rewrite sort_append.
  - apply Forall_app. split; [assumption|]. constructor; [|constructor].
    exact Hnt.
Qed.

Lemma scheduleNote_placement_witness :
  conforming sortByTime
  /\ new None = Ok init
  /\ numbers (getSchedule (run sortByTime init
                               [ScheduleNote 60 500 None None;
                                ScheduleNote 67 1000 None None]))
  /\ ((0 <=? 64) = true /\ (64 <=? 127) = true)
  /\ (0 <=? 500) = true
  /\ exists s' ev,
       scheduleNote sortByTime
                    (run sortByTime init [ScheduleNote 60 500 None None;
                                          ScheduleNote 67 1000 None None])
                    64 500 None None = Ok (s', ev)
       /\ ev = mkEvent 64 500
                 (match @None float with
                  | Some x => x
                  | None =>
                      getBeatDuration
                        (run sortByTime init
                             [ScheduleNote 60 500 None None;
                              ScheduleNote 67 1000 None None])
                  end)
                 (match @None float with Some x => x | None => 100 end)
       /\ getSchedule s'
          = (filter (fun x => time x <=? 500)
                    (getSchedule
                       (run sortByTime init
                            [ScheduleNote 60 500 None None;
                             ScheduleNote 67 1000 None None]))
             ++ ev :: filter (fun x => negb (time x <=? 500))
                             (getSchedule
                                (run sortByTime init
                                     [ScheduleNote 60 500 None None;
                                      ScheduleNote 67 1000 None None])))%list.
Proof.
  assert (Hn : numbers (getSchedule (run sortByTime init
                               [ScheduleNote 60 500 None None;
                                ScheduleNote 67 1000 None None])))
    by (repeat constructor).
  split; [exact sortByTime_conforming|]. split; [reflexivity|].
  split; [exact Hn|]. split; [split; reflexivity|]. split; [reflexivity|].
  apply (scheduleNote_placement sortByTime None init
           [ScheduleNote 60 500 None None; ScheduleNote 67 1000 None None]);
    [exact sortByTime_conforming | reflexivity | exact Hn
     | split; reflexivity | reflexivity].
Defined.

(** *** getNextBeat *)

Lemma run_getNextBeat
    (sort : list ScheduledEvent -> list ScheduledEvent) (k : nat) :
  forall s,
    run sort s (repeat GetNextBeat k)
    = mkScheduler (_bpm s) (_beatDurationMs s) (_scheduledNotes s)
                  (_nextBeatIndex s + Z.of_nat k).
Proof.
  unfold run. induction k as [|k IH]; intros s.
  - simpl. rewrite Z.add_0_r. now destruct s.
  - cbn [repeat fold_left step]. rewrite IH. cbn [getNextBeat snd].
    cbn [_bpm _beatDurationMs _scheduledNotes _nextBeatIndex].
    f_equal. lia.
Qed.

(** X9: after [resetBeatCounter], the call number [k] (from 0) of
    [getNextBeat] returns [k * beatDuration]; the calls before it leave the
    tempo and the scheduled events as they are. *)
Theorem getNextBeat_sequence
    (sort : list ScheduledEvent -> list ScheduledEvent) (s : Scheduler)
    (k : nat) :
  fst (getNextBeat (run sort (resetBeatCounter s) (repeat GetNextBeat k)))
  = ofZ (Z.of_nat k) * getBeatDuration s
  /\ getSchedule (run sort (resetBeatCounter s) (repeat GetNextBeat k))
     = getSchedule s
  /\ getBPM (run sort (resetBeatCounter s) (repeat GetNextBeat k)) = getBPM s.
Proof. rewrite run_getNextBeat. repeat split. Qed.

(** *** getNotesInRange *)

Lemma range_split (a b c : float) (l : list ScheduledEvent) :
  (a <=? b) = true -> (b <=? c) = true ->
  numbers l -> StronglySorted notAfter l ->
  (filter (fun e => (a <=? time e) && (time e <? b)) l
   ++ filter (fun e => (b <=? time e) && (time e <? c)) l)%list
  = filter (fun e => (a <=? time e) && (time e <? c)) l.
Proof.
  intros Hab Hbc Hn Hs.
  pose proof (leb_true _ _ Hab) as (Ha & Hb & _).
  pose proof (leb_true _ _ Hbc) as (_ & Hc & _).
  induction Hs as [|x l Hs IH Hall]; [reflexivity|].
  inversion Hn as [|? ? Hx Hn']; subst. specialize (IH Hn').
  cbn [filter]. rewrite (ltb_negb_leb (time x) b Hx Hb).
  destruct (b <=? time x) eqn:Hbx; cbn [negb].
  - rewrite (leb_trans _ _ _ Hab Hbx). rewrite andb_false_r. cbn [andb].
    assert (Hnone :
      filter (fun e => (a <=? time e) && (time e <? b)) l = []).
    { apply filter_none. rewrite Forall_forall in Hall |- *. intros y Hy.
      rewrite (leb_ltb_false (time y) b), andb_false_r; [reflexivity|].
      exact (leb_trans _ _ _ Hbx (Hall y Hy)). }
    rewrite Hnone in IH |- *. cbn [app] in IH |- *.
    destruct (time x <? c); now rewrite IH.
  - rewrite andb_true_r. cbn [andb].
    destruct (a <=? time x) eqn:Hax; cbn [andb].
    + assert (Hxc : (time x <? c) = true).
      { rewrite (ltb_negb_leb _ _ Hx Hc).
        destruct (c <=? time x) eqn:Hcx; [|reflexivity].
        pose proof (leb_trans _ _ _ Hbc Hcx). congruence. }
      rewrite Hxc. cbn [app]. now rewrite <- IH.
    + exact IH.
Qed.

(** X10: [getNotesInRange(start, end)] returns the stored events with
    [start <= time < end]; and on a scheduler obtained from a new one whose
    schedule holds no NaN time, adjacent windows concatenate: for
    [a <= b <= c] the notes of [a, b) followed by the notes of [b, c) are
    the notes of [a, c). *)
Theorem getNotesInRange_split
    (sort : list ScheduledEvent -> list ScheduledEvent)
    (bpm : option float) (s0 : Scheduler) (calls : list call)
    (a b c : float) :
  conforming sort ->
  new bpm = Ok s0 ->
  numbers (getSchedule (run sort s0 calls)) ->
  (a <=? b) = true -> (b <=? c) = true ->
  (forall ev,
      In ev (getNotesInRange (run sort s0 calls) a c) <->
      In ev (getSchedule (run sort s0 calls))
      /\ (a <=? time ev) = true /\ (time ev <? c) = true)
  /\ (getNotesInRange (run sort s0 calls) a b
      ++ getNotesInRange (run sort s0 calls) b c)%list
     = getNotesInRange (run sort s0 calls) a c.
Proof.
  intros Hsort Hnew Hnum Hab Hbc. split.
  - intros ev. unfold getNotesInRange, getSchedule. rewrite filter_In.
    rewrite andb_true_iff. tauto.
  - pose proof (reachable_sorted sort bpm s0 calls Hsort Hnew Hnum) as Hs.
    apply range_split; auto. now apply sorted_strongly.
Qed.

Lemma getNotesInRange_split_witness :
  conforming sortByTime
  /\ new None = Ok init
  /\ numbers (getSchedule (run sortByTime init
                               [ScheduleNote 60 0 None None;
                                ScheduleNote 64 500 None None;
                                ScheduleNote 67 1000 None None]))
  /\ (0 <=? 500) = true /\ (500 <=? 2000) = true
  /\ (forall ev,
         In ev (getNotesInRange
                  (run sortByTime init [ScheduleNote 60 0 None None;
                                        ScheduleNote 64 500 None None;
                                        ScheduleNote 67 1000 None None])
                  0 2000) <->
         In ev (getSchedule
                  (run sortByTime init [ScheduleNote 60 0 None None;
                                        ScheduleNote 64 500 None None;
                                        ScheduleNote 67 1000 None None]))
         /\ (0 <=? time ev) = true /\ (time ev <? 2000) = true)
  /\ (getNotesInRange
        (run sortByTime init [ScheduleNote 60 0 None None;
                              ScheduleNote 64 500 None None;
                              ScheduleNote 67 1000 None None]) 0 500
      ++ getNotesInRange
           (run sortByTime init [ScheduleNote 60 0 None None;
                                 ScheduleNote 64 500 None None;
                                 ScheduleNote 67 1000 None None]) 500 2000)%list
     = getNotesInRange
         (run sortByTime init [ScheduleNote 60 0 None None;
                               ScheduleNote 64 500 None None;
                               ScheduleNote 67 1000 None None]) 0 2000.
Proof.
  assert (Hn : numbers (getSchedule (run sortByTime init
                               [ScheduleNote 60 0 None None;
                                ScheduleNote 64 500 None None;
                                ScheduleNote 67 1000 None None])))
    by (repeat constructor).
  split; [exact sortByTime_conforming|]. split; [reflexivity|].
  split; [exact Hn|]. split; [reflexivity|]. split; [reflexivity|].
  apply (getNotesInRange_split sortByTime None init);
    [exact sortByTime_conforming | reflexivity | exact Hn
     | reflexivity | reflexivity].
Defined.

(** *** getTotalDuration *)

Lemma strongly_sorted_last (l : list ScheduledEvent) (x : ScheduledEvent) :
  is_nan (time x) = false ->
  StronglySorted notAfter (l ++ [x]) ->
  forall ev, In ev (l ++ [x]) -> (time ev <=? time x) = true.
Proof.
  intros Hx. induction l as [|y l IH]; intros Hs ev Hin.
  - destruct Hin as [<-|[]]. apply not_below_leb; auto.
    intros H. exact (below_asym _ _ H H).
  - inversion Hs as [|? ? Hs' Hall]; subst. destruct Hin as [<-|Hin].
    + rewrite Forall_forall in Hall. apply Hall, in_or_app. right. now left.
    + now apply IH.
Qed.

(** X11: on a scheduler obtained from a new one whose schedule holds no
    NaN time, [getTotalDuration()] is 0 when nothing is scheduled, and
    otherwise the end of a stored event that starts no earlier than any
    other stored event (the end of the latest-starting event, not the
    latest end). *)
Theorem getTotalDuration_latest_start
    (sort : list ScheduledEvent -> list ScheduledEvent)
    (bpm : option float) (s0 : Scheduler) (calls : list call) :
  conforming sort ->
  new bpm = Ok s0 ->
  numbers (getSchedule (run sort s0 calls)) ->
  (getSchedule (run sort s0 calls) = [] ->
   getTotalDuration (run sort s0 calls) = 0)
  /\ (getSchedule (run sort s0 calls) <> [] ->
      exists last,
        In last (getSchedule (run sort s0 calls))
        /\ getTotalDuration (run sort s0 calls) = time last + duration last
        /\ forall ev, In ev (getSchedule (run sort s0 calls)) ->
                      (time ev <=? time last) = true).
Proof.
  intros Hsort Hnew Hnum.
  pose proof (reachable_sorted sort bpm s0 calls Hsort Hnew Hnum) as Hs.
  apply sorted_strongly in Hs. unfold getTotalDuration, getSchedule in *.
  split; [now intros ->|]. intros Hne.
  destruct (rev (_scheduledNotes (run sort s0 calls))) as [|x r] eqn:Hrev.
  - apply (f_equal (@rev _)) in Hrev. rewrite rev_involutive in Hrev.
    contradiction.
  - apply (f_equal (@rev _)) in Hrev. rewrite rev_involutive in Hrev.
    simpl in Hrev. rewrite Hrev in Hs, Hnum |- *.
    exists x. split; [apply in_or_app; right; now left|].
    split; [reflexivity|]. apply strongly_sorted_last; [|assumption].
    unfold numbers in Hnum. rewrite Forall_forall in Hnum.
    apply Hnum, in_or_app. right. now left.
Qed.

Lemma getTotalDuration_latest_start_witness :
  conforming sortByTime
  /\ new None = Ok init
  /\ numbers (getSchedule (run sortByTime init
                               [ScheduleNote 60 0 (Some 5000) None;
                                ScheduleNote 64 500 None None]))
  /\ (getSchedule (run sortByTime init [ScheduleNote 60 0 (Some 5000) None;
                                        ScheduleNote 64 500 None None]) = [] ->
      getTotalDuration (run sortByTime init
                            [ScheduleNote 60 0 (Some 5000) None;
                             ScheduleNote 64 500 None None]) = 0)
  /\ (getSchedule (run sortByTime init [ScheduleNote 60 0 (Some 5000) None;
                                        ScheduleNote 64 500 None None]) <> [] ->
      exists last,
        In last (getSchedule (run sortByTime init
                                  [ScheduleNote 60 0 (Some 5000) None;
                                   ScheduleNote 64 500 None None]))
        /\ getTotalDuration (run sortByTime init
                                 [ScheduleNote 60 0 (Some 5000) None;
                                  ScheduleNote 64 500 None None])
           = time last + duration last
        /\ forall ev,
             In ev (getSchedule (run sortByTime init
                                     [ScheduleNote 60 0 (Some 5000) None;
                                      ScheduleNote 64 500 None None])) ->
             (time ev <=? time last) = true).
Proof.
  assert (Hn : numbers (getSchedule (run sortByTime init
                               [ScheduleNote 60 0 (Some 5000) None;
                                ScheduleNote 64 500 None None])))
    by (repeat constructor).
  split; [exact sortByTime_conforming|]. split; [reflexivity|].
  split; [exact Hn|].
  apply (getTotalDuration_latest_start sortByTime None init);
    [exact sortByTime_conforming | reflexivity | exact Hn].
Defined.

(** *** quantizeAll *)

Lemma mapResult_total {A B : Type} (f : A -> result B) (h : A -> B)
    (l : list A) :
  (forall x, f x = Ok (h x)) -> mapResult f l = Ok (map h l).
Proof.
  intros Hf. induction l as [|x l IH]; simpl; [reflexivity|].
  now rewrite Hf, IH.
Qed.

(** With the subdivision's duration [g], [quantizeAll] sets every time
    [t] to [Math.round(t / g) * g]. *)
Lemma quantizeAll_snap
    (sort : list ScheduledEvent -> list ScheduledEvent) (s : Scheduler)
    (subdivision : option string) (g : float) :
  getSubdivisionDuration s (orQuarter subdivision) = Ok g ->
  quantizeAll sort s subdivision
  = Ok (mkScheduler (_bpm s) (_beatDurationMs s)
          (sort (map (fun ev => mkEvent (note ev)
                                        (Math_round (time ev / g) * g)
                                        (duration ev) (velocity ev))
                     (_scheduledNotes s)))
          (_nextBeatIndex s),
        sort (map (fun ev => mkEvent (note ev)
                                      (Math_round (time ev / g) * g)
                                      (duration ev) (velocity ev))
                  (_scheduledNotes s))).
Proof.
  intros Hg. unfold quantizeAll.
  rewrite (mapResult_total _
             (fun ev => mkEvent (note ev) (Math_round (time ev / g) * g)
                                (duration ev) (velocity ev))).
  - reflexivity.
  - intros x. unfold quantize. now rewrite Hg.
Qed.

(** X12: on a scheduler obtained from a new one, with a tempo that is a
    number, one of the nine subdivision names and every stored time in
    [0, 2^53], [quantizeAll] returns the new schedule: as many events as
    before, with the same notes, durations and velocities, every time a
    number that [quantize] leaves unchanged, sorted by time; and calling it
    again with the same subdivision changes nothing. *)
Theorem quantizeAll_grid
    (sort : list ScheduledEvent -> list ScheduledEvent)
    (bpm : option float) (s0 : Scheduler) (calls : list call)
    (subdivision : option string) :
  conforming sort ->
  new bpm = Ok s0 ->
  is_nan (getBPM (run sort s0 calls)) = false ->
  valid subdivision ->
  Forall (fun ev => (0 <=? time ev) = true
                    /\ (time ev <=? 9007199254740992) = true)
         (getSchedule (run sort s0 calls)) ->
  exists s',
    quantizeAll sort (run sort s0 calls) subdivision = Ok (s', getSchedule s')
    /\ Permutation
         (map (fun ev => (note ev, duration ev, velocity ev))
              (getSchedule s'))
         (map (fun ev => (note ev, duration ev, velocity ev))
              (getSchedule (run sort s0 calls)))
    /\ Forall (fun ev => is_nan (time ev) = false
                         /\ quantize s' (time ev) subdivision
                            = Ok (time ev))
              (getSchedule s')
    /\ sortedByTime (getSchedule s')
    /\ quantizeAll sort s' subdivision = Ok (s', getSchedule s').
Proof.
  intros Hsort Hnew Hn Hsub Hrange.
  pose proof (reachable_tempo sort bpm s0 calls Hnew) as Hinv.
  destruct (tempo_grid _ _ Hinv Hn Hsub) as (g & Hg & Hfg & Hbg).
  set (s := run sort s0 calls) in *.
  set (snap := fun ev => mkEvent (note ev) (Math_round (time ev / g) * g)
                                 (duration ev) (velocity ev)).
  set (s' := mkScheduler (_bpm s) (_beatDurationMs s)
                         (sort (map snap (_scheduledNotes s)))
                         (_nextBeatIndex s)).
  assert (Hg' : getSubdivisionDuration s' (orQuarter subdivision) = Ok g)
    by exact Hg.
  (* every snapped event is a number that a second snap leaves alone *)
  assert (Hsnap : Forall (fun ev => is_nan (time ev) = false
                                    /\ snap ev = ev)
                         (map snap (_scheduledNotes s))).
  { unfold getSchedule in Hrange. apply Forall_forall. intros ev Hev.
    apply in_map_iff in Hev. destruct Hev as (x & <- & Hx).
    rewrite Forall_forall in Hrange. destruct (Hrange x Hx) as [H0 H1].
    destruct (time_range _ H0 H1) as [Hft Hbt].
    destruct (quantize_near g (time x) Hfg Hbg Hft Hbt) as [Hfq _].
    split; [now apply Fin_notNaN|].
    unfold snap. cbn [note time duration velocity]. f_equal.
    now apply quantize_fixed. }
  assert (Hnum : numbers (map snap (_scheduledNotes s))).
  { unfold numbers. apply Forall_impl with (2 := Hsnap). tauto. }
  destruct Hsort as [Hperm Hstable].
  assert (Hsorted : sortedByTime (sort (map snap (_scheduledNotes s)))).
  { rewrite (Hstable _ Hnum). now apply sortByTime_sorted. }
  assert (Hsnap' : Forall (fun ev => is_nan (time ev) = false
                                     /\ snap ev = ev)
                          (sort (map snap (_scheduledNotes s))))
    by exact (Permutation_Forall (Hperm _) Hsnap).
  exists s'. split; [|split; [|split; [|split]]].
  - exact (quantizeAll_snap sort s subdivision g Hg).
  - unfold getSchedule, s'. cbn [_scheduledNotes].
    rewrite <- (Permutation_map _ (Hperm _)).
    rewrite map_map. reflexivity.
  - unfold getSchedule.
    change (_scheduledNotes s') with (sort (map snap (_scheduledNotes s))).
    apply Forall_impl with (2 := Hsnap'). intros ev [H1 H2].
    split; [assumption|]. unfold quantize. rewrite Hg'.
    f_equal. exact (f_equal time H2).
  - exact Hsorted.
  - rewrite (quantizeAll_snap sort s' subdivision g Hg').
    fold snap. unfold getSchedule, s'. cbn [_scheduledNotes _bpm
      _beatDurationMs _nextBeatIndex].
    assert (Hfix : map snap (sort (map snap (_scheduledNotes s)))
                   = sort (map snap (_scheduledNotes s))).
    { rewrite <- (map_id (sort (map snap (_scheduledNotes s)))) at 2.
      apply map_ext_in. intros ev Hev. rewrite Forall_forall in Hsnap'.
      now apply Hsnap'. }
    rewrite Hfix.
    assert (Hid : sort (sort (map snap (_scheduledNotes s)))
                  = sort (map snap (_scheduledNotes s))).
    { rewrite (Hstable (sort _)).
      - now apply sortByTime_sorted_id.
      - unfold numbers. apply Forall_impl with (2 := Hsnap'). tauto. }
    rewrite Hid. reflexivity.
Qed.

Lemma quantizeAll_grid_witness :
  conforming sortByTime
  /\ new None = Ok init
  /\ is_nan (getBPM (run sortByTime init
                         [SetBPM 90; ScheduleNote 60 110 None None;
                          ScheduleNote 64 2500 None None])) = false
  /\ valid (Some "triplet_eighth"%string)
  /\ Forall (fun ev => (0 <=? time ev) = true
                       /\ (time ev <=? 9007199254740992) = true)
            (getSchedule (run sortByTime init
                              [SetBPM 90; ScheduleNote 60 110 None None;
                               ScheduleNote 64 2500 None None]))
  /\ exists s',
       quantizeAll sortByTime
                   (run sortByTime init
                        [SetBPM 90; ScheduleNote 60 110 None None;
                         ScheduleNote 64 2500 None None])
                   (Some "triplet_eighth"%string)
       = Ok (s', getSchedule s')
       /\ Permutation
            (map (fun ev => (note ev, duration ev, velocity ev))
                 (getSchedule s'))
            (map (fun ev => (note ev, duration ev, velocity ev))
                 (getSchedule (run sortByTime init
                                   [SetBPM 90; ScheduleNote 60 110 None None;
                                    ScheduleNote 64 2500 None None])))
       /\ Forall (fun ev => is_nan (time ev) = false
                            /\ quantize s' (time ev)
                                        (Some "triplet_eighth"%string)
                               = Ok (time ev))
                 (getSchedule s')
       /\ sortedByTime (getSchedule s')
       /\ quantizeAll sortByTime s' (Some "triplet_eighth"%string)
          = Ok (s', getSchedule s').
Proof.
  assert (Hr : Forall (fun ev => (0 <=? time ev) = true
                       /\ (time ev <=? 9007199254740992) = true)
            (getSchedule (run sortByTime init
                              [SetBPM 90; ScheduleNote 60 110 None None;
                               ScheduleNote 64 2500 None None])))
    by (repeat constructor).
  assert (Hv : valid (Some "triplet_eighth"%string))
    by (unfold valid; simpl; tauto).
  split; [exact sortByTime_conforming|]. split; [reflexivity|].
  split; [reflexivity|]. split; [exact Hv|]. split; [exact Hr|].
  apply (quantizeAll_grid sortByTime None init);
    [exact sortByTime_conforming | reflexivity | reflexivity | exact Hv
     | exact Hr].
Defined.

Lemma property_None (name : string) :
  lookup name SUBDIVISIONS = None ->
  property name = Inherited \/ property name = Undefined.
Proof.
  unfold property. intros ->. destruct (existsb _ _); auto.
Qed.

(** X13: with a subdivision name that is not among the nine,
    [quantizeAll] returns the empty schedule without error when nothing is
    scheduled (the name is only looked up per event).  When some event is
    scheduled it throws and changes nothing if the name is unknown to the
    table altogether; for a name the table inherits ('constructor',
    'toString', ...) it does not throw and sets every time to NaN. *)
Theorem quantizeAll_unknown_subdivision
    (sort : list ScheduledEvent -> list ScheduledEvent) (s : Scheduler)
    (subdivision : option string) :
  conforming sort ->
  lookup (orQuarter subdivision) SUBDIVISIONS = None ->
  (getSchedule s = [] ->
   exists s', quantizeAll sort s subdivision = Ok (s', [])
              /\ getSchedule s' = [])
  /\ (getSchedule s <> [] ->
      (property (orQuarter subdivision) = Undefined ->
       (exists m, quantizeAll sort s subdivision = Throw m)
       /\ step sort s (QuantizeAll subdivision) = s)
      /\ (property (orQuarter subdivision) = Inherited ->
          exists s',
            quantizeAll sort s subdivision = Ok (s', getSchedule s')
            /\ List.length (getSchedule s') = List.length (getSchedule s)
            /\ Forall (fun ev => is_nan (time ev) = true)
                      (getSchedule s'))).
Proof.
  intros [Hperm _] Hsub. unfold getSchedule. split; [|intros Hne; split].
  - intros Hl. unfold quantizeAll. rewrite Hl. cbn [mapResult].
    assert (H0 : sort [] = []) by (apply Permutation_nil, Hperm).
    unfold getSchedule. cbn [_scheduledNotes]. rewrite H0.
    eexists. split; reflexivity.
  - intros Hu. destruct (_scheduledNotes s) as [|ev l] eqn:Hl;
      [contradiction|].
    assert (Hq : quantize s (time ev) subdivision
                 = Throw "Unknown subdivision"%string)
      by (unfold quantize, getSubdivisionDuration; now rewrite Hu).
    assert (Hthrow :
      mapResult
        (fun event =>
           match quantize s (time event) subdivision with
           | Throw m => Throw m
           | Ok t => Ok (mkEvent (note event) t (duration event)
                                 (velocity event))
           end) (ev :: l) = Throw "Unknown subdivision"%string)
      by (simpl; now rewrite Hq).
    split.
    + unfold quantizeAll. rewrite Hl, Hthrow. eauto.
    + cbn [step]. unfold quantizeAll. rewrite Hl, Hthrow. reflexivity.
  - intros Hi.
    assert (Hg : getSubdivisionDuration s (orQuarter subdivision)
                 = Ok (_beatDurationMs s * nan))
      by (unfold getSubdivisionDuration; now rewrite Hi).
    rewrite (quantizeAll_snap sort s subdivision _ Hg).
    eexists (mkScheduler _ _ _ _). split; [reflexivity|].
    cbn [_scheduledNotes]. split.
    + rewrite <- (Permutation_length (Hperm _)). apply length_map.
    + apply (Permutation_Forall (Hperm _)). apply Forall_forall.
      intros ev Hev. apply in_map_iff in Hev. destruct Hev as (x & <- & _).
      cbn [time]. rewrite mul_nan_r, div_nan_r. reflexivity.
Qed.

Lemma quantizeAll_unknown_subdivision_witness :
  conforming sortByTime
  /\ lookup (orQuarter (Some "thirty_second"%string)) SUBDIVISIONS = None
  /\ (getSchedule (run sortByTime init [ScheduleNote 60 100 None None]) = [] ->
      exists s',
        quantizeAll sortByTime
                    (run sortByTime init [ScheduleNote 60 100 None None])
                    (Some "thirty_second"%string) = Ok (s', [])
        /\ getSchedule s' = [])
  /\ (getSchedule (run sortByTime init [ScheduleNote 60 100 None None]) <> [] ->
      (property (orQuarter (Some "thirty_second"%string)) = Undefined ->
       (exists m,
           quantizeAll sortByTime
                       (run sortByTime init [ScheduleNote 60 100 None None])
                       (Some "thirty_second"%string) = Throw m)
       /\ step sortByTime
               (run sortByTime init [ScheduleNote 60 100 None None])
               (QuantizeAll (Some "thirty_second"%string))
          = run sortByTime init [ScheduleNote 60 100 None None])
      /\ (property (orQuarter (Some "thirty_second"%string)) = Inherited ->
          exists s',
            quantizeAll sortByTime
                        (run sortByTime init [ScheduleNote 60 100 None None])
                        (Some "thirty_second"%string)
            = Ok (s', getSchedule s')
            /\ List.length (getSchedule s')
               = List.length
                   (getSchedule
                      (run sortByTime init [ScheduleNote 60 100 None None]))
            /\ Forall (fun ev => is_nan (time ev) = true)
                      (getSchedule s'))).
Proof.
  split; [exact sortByTime_conforming|]. split; [reflexivity|].
  apply (quantizeAll_unknown_subdivision sortByTime
           (run sortByTime init [ScheduleNote 60 100 None None])
           (Some "thirty_second"%string));
    [exact sortByTime_conforming | reflexivity].
Defined.

End SchedulerExtra.

(** ** Protocol bridge: formatting, the message log, the counters *)

Module OscBridgeExtra.
Import OscBridge OscBridgeFacts.
Local Open Scope string_scope.

Lemma startsWithSlash_app (a b : string) :
  startsWithSlash a = true -> startsWithSlash (a ++ b) = true.
Proof. destruct a; simpl; [discriminate | auto]. Qed.

Lemma formatMessage_wellFormed (now : Z) (a : string) (v : value)
    (m : Message) :
  formatMessage now a v = Ok m ->
  wellFormed m /\ address m = a /\ timestamp m = now.
Proof.
  unfold formatMessage, wellFormed.
  destruct (startsWithSlash a) eqn:Ha; simpl; [|discriminate].
  destruct v as [q|str|b|]; try discriminate; intros H; injection H as <-;
    simpl; repeat split; auto.
  - destruct (isInteger q); auto.
  - destruct b; auto.
Qed.

Lemma formatMessage_accepts (now : Z) (a : string) (v : value) :
  startsWithSlash a = true -> v <> VOther ->
  exists m, formatMessage now a v = Ok m /\ address m = a.
Proof.
  unfold formatMessage. intros -> Hv. simpl.
  destruct v as [q|str|b|]; try contradiction; eexists; split; reflexivity.
Qed.

Lemma isInteger_whole (q : Q) :
  isInteger q = true <-> exists z : Z, (q == inject_Z z)%Q.
Proof.
  unfold isInteger. rewrite Qeq_bool_iff. split.
  - intros H. now exists (Qfloor q).
  - intros [z Hz]. rewrite Hz at 1. now rewrite (Qfloor_comp _ _ Hz), Qfloor_Z.
Qed.

(** X14: [formatMessage] succeeds exactly on an address that starts with
    a slash and a number, string or boolean, and throws otherwise; the
    message keeps the address and the current time; a number is tagged [i]
    exactly when it is a whole number and [f] otherwise, a string [s], and
    a boolean [T] or [F] with the value re-encoded as 1 or 0. *)
Theorem formatMessage_tags (now : Z) (a : string) (v : value) :
  (startsWithSlash a = true -> v <> VOther ->
   exists m,
     formatMessage now a v = Ok m
     /\ address m = a /\ timestamp m = now
     /\ match v with
        | VNumber q =>
            msgValue m = v
            /\ (typeTag m = "i" <-> exists z : Z, (q == inject_Z z)%Q)
            /\ (typeTag m = "f" <-> ~ exists z : Z, (q == inject_Z z)%Q)
        | VString _ => msgValue m = v /\ typeTag m = "s"
        | VBoolean true => msgValue m = VNumber 1 /\ typeTag m = "T"
        | VBoolean false => msgValue m = VNumber 0 /\ typeTag m = "F"
        | VOther => False
        end)
  /\ (startsWithSlash a = false \/ v = VOther ->
      exists msg, formatMessage now a v = Throw msg).
Proof.
  unfold formatMessage. split.
  - intros -> Hv. simpl.
    destruct v as [q|str|[|]|]; try contradiction;
      eexists; (split; [reflexivity|]); simpl; repeat split; auto.
    + intros Ht. apply isInteger_whole.
      destruct (isInteger q); [reflexivity | discriminate].
    + intros Hz. apply isInteger_whole in Hz. now rewrite Hz.
    + intros Ht Hz. apply isInteger_whole in Hz. rewrite Hz in Ht.
      discriminate.
    + intros Hz. destruct (isInteger q) eqn:E; [|reflexivity].
      exfalso. apply Hz. now apply isInteger_whole.
  - intros [-> | ->]; simpl; [eauto|].
    destruct (startsWithSlash a); simpl; eauto.
Qed.

Lemma formatEntries_numeric (now : Z) (pre : string)
    (st : list (string * value)) :
  startsWithSlash pre = true ->
  exists msgs,
    formatEntries now pre st = Ok msgs
    /\ map (fun m => (address m, msgValue m)) msgs
       = map (fun kq => (pre ++ "/" ++ fst kq, VNumber (snd kq)))
             (numericEntries st)
    /\ Forall (fun m => wellFormed m /\ timestamp m = now
                        /\ (typeTag m = "i" \/ typeTag m = "f")) msgs.
Proof.
  intros Hpre. induction st as [|[param v] st (msgs & IH & Hmap & Hall)].
  - exists []. repeat split. constructor.
  - destruct v as [q|str|b|]; try (exists msgs; now repeat split).
    cbn [formatEntries]. unfold formatMessage.
    rewrite (startsWithSlash_app _ _ Hpre). cbn [negb]. rewrite IH.
    eexists. split; [reflexivity|]. split.
    + cbn [map numericEntries flat_map snd fst app address msgValue].
      f_equal. exact Hmap.
    + constructor; [|assumption]. unfold wellFormed. simpl.
      rewrite (startsWithSlash_app _ _ Hpre).
      destruct (isInteger q); repeat split; auto.
Qed.

(** X15: with a prefix that starts with a slash (the default [/omni]
    does), [formatBundle] never throws: it returns a bundle stamped with the
    current time that holds one message per numeric entry of the state, in
    the order of the entries, addressed [prefix/param] and carrying the
    number, tagged [i] or [f]; the other entries are skipped. *)
Theorem formatBundle_numeric_entries (now : Z) (st : list (string * value))
    (pre : option string) :
  startsWithSlash (orOmni pre) = true ->
  exists bundle,
    formatBundle now st pre = Ok bundle
    /\ timetag bundle = now
    /\ map (fun m => (address m, msgValue m)) (messages bundle)
       = map (fun kq => (orOmni pre ++ "/" ++ fst kq, VNumber (snd kq)))
             (numericEntries st)
    /\ Forall (fun m => timestamp m = now
                        /\ (typeTag m = "i" \/ typeTag m = "f"))
              (messages bundle).
Proof.
  intros Hpre. unfold formatBundle.
  destruct (formatEntries_numeric now (orOmni pre) st Hpre)
    as (msgs & -> & Hmap & Hall).
  eexists. split; [reflexivity|]. repeat split; [exact Hmap|].
  apply Forall_impl with (2 := Hall). tauto.
Qed.

Lemma formatBundle_numeric_entries_witness :
  startsWithSlash (orOmni None) = true
  /\ exists bundle,
       formatBundle 7 [("mood", VNumber (1 # 2)); ("name", VString "x");
                       ("note", VNumber 60)] None = Ok bundle
       /\ timetag bundle = 7%Z
       /\ map (fun m => (address m, msgValue m)) (messages bundle)
          = map (fun kq => (orOmni None ++ "/" ++ fst kq, VNumber (snd kq)))
                (numericEntries [("mood", VNumber (1 # 2));
                                 ("name", VString "x");
                                 ("note", VNumber 60)])
       /\ Forall (fun m => timestamp m = 7%Z
                           /\ (typeTag m = "i" \/ typeTag m = "f"))
                 (messages bundle).
Proof.
  split; [reflexivity|].
  apply (formatBundle_numeric_entries 7); reflexivity.
Defined.

(** *** The log and the counter *)

Lemma formatEntries_wellFormed (now : Z) (pre : string)
    (st : list (string * value)) :
  forall msgs, formatEntries now pre st = Ok msgs -> Forall wellFormed msgs.
Proof.
  induction st as [|[k x] st IH]; intros msgs Hm; simpl in Hm.
  - injection Hm as <-. constructor.
  - destruct x as [q|str|bb|]; try (now apply IH).
    destruct (formatMessage now _ (VNumber q)) as [m|] eqn:Hf;
      [|discriminate].
    destruct (formatEntries now pre st) as [ms|]; [|discriminate].
    injection Hm as <-. constructor; [|now apply IH].
    now apply formatMessage_wellFormed in Hf.
Qed.

Lemma connect_keeps (b b' : OSCBridge) (r : bool) (w : list BridgeState) :
  connect b = (r, b', w) ->
  host b' = host b /\ port b' = port b /\ prefix b' = prefix b
  /\ messageCount b' = messageCount b /\ messageLog b' = messageLog b
  /\ ((b' = b /\ state b = CONNECTED)
      \/ (state b <> CONNECTED /\ state b' = ERROR /\ lastError b' <> None)
      \/ (state b <> CONNECTED /\ state b' = CONNECTED)).
Proof.
  unfold connect.
  destruct (BridgeState_eqb (state b) CONNECTED) eqn:E.
  - apply BridgeState_eqb_eq in E. intros H. injection H as <- <- <-.
    repeat split; auto.
  - assert (Hn : state b <> CONNECTED)
      by (intros H; apply BridgeState_eqb_eq in H; congruence).
    destruct (invalidTarget (setState b CONNECTING));
      intros H; injection H as <- <- <-; simpl; repeat split; auto.
    right. left. repeat split; auto. discriminate.
Qed.

Lemma step_logInvariant (b0 b : OSCBridge) (c : call) :
  logInvariant b0 b -> logInvariant b0 (fst (step b c)).
Proof.
  intros (Hh & Hp & Hx & Hlog & Hcnt & Hwf & Herr).
  destruct c as [| |now param v|now perf| |]; simpl; unfold logInvariant.
  - destruct (connect b) as [[r b'] w] eqn:Hr. simpl.
    destruct (connect_keeps _ _ _ _ Hr)
      as (Eh & Ep & Ex & Ec & El & Hcase).
    rewrite Eh, Ep, Ex, Ec, El.
    destruct Hcase as [[-> Hst] | [(Hn & Hst & He) | (Hn & Hst)]];
      repeat split; auto.
    intros Hcontra. rewrite Hst in Hcontra. discriminate.
  - repeat split; auto; try discriminate. simpl.
    apply Z.le_trans with (2 := Hcnt). lia.
  - unfold send.
    destruct (formatMessage now (prefix b ++ "/" ++ param) v) as [m|] eqn:Hm;
      destruct (BridgeState_eqb (state b) CONNECTED) eqn:Hc;
      simpl; try (repeat split; auto; fail).
    apply BridgeState_eqb_eq in Hc.
    repeat split; auto;
      try (intros Hn; contradiction);
      try (rewrite length_app; simpl; lia).
    apply Forall_app. split; [assumption|]. constructor; [|constructor].
    now apply formatMessage_wellFormed in Hm.
  - unfold sendBundle, formatBundle.
    destruct (formatEntries now (orOmni (Some (prefix b))) perf)
      as [msgs|] eqn:Hm;
      destruct (BridgeState_eqb (state b) CONNECTED) eqn:Hc;
      simpl; try (repeat split; auto; fail).
    apply BridgeState_eqb_eq in Hc.
    repeat split; auto;
      try (intros Hn; contradiction);
      try (rewrite length_app; lia).
    apply Forall_app. split; [assumption|].
    eapply formatEntries_wellFormed, Hm.
  - repeat split; auto.
  - repeat split; auto.
Qed.

Lemma run_logInvariant (calls : list call) :
  forall b0 b, logInvariant b0 b -> logInvariant b0 (run b calls).
Proof.
  induction calls as [|c cs IH]; intros b0 b Hb; simpl; [assumption|].
  apply IH, step_logInvariant, Hb.
Qed.

(** X16: on every bridge obtained from a new one by any sequence of
    calls, the host, port and prefix are those of the constructor; the
    message log is empty unless the bridge is [CONNECTED]; the log never
    holds more messages than the cumulative counter counts; every logged
    message has an address that starts with a slash and a type tag among
    [i], [f], [s], [T], [F] in keeping with its value; and a bridge in
    [ERROR] has a recorded error. *)
Theorem bridge_log_invariant (options : Options) (calls : list call) :
  host (run (new options) calls) = host (new options)
  /\ port (run (new options) calls) = port (new options)
  /\ prefix (run (new options) calls) = prefix (new options)
  /\ (state (run (new options) calls) <> CONNECTED ->
      messageLog (run (new options) calls) = [])
  /\ (Z.of_nat (List.length (messageLog (run (new options) calls)))
      <= messageCount (run (new options) calls))%Z
  /\ Forall wellFormed (messageLog (run (new options) calls))
  /\ (state (run (new options) calls) = ERROR ->
      lastError (run (new options) calls) <> None).
Proof.
  apply (run_logInvariant calls (new options) (new options)).
  unfold logInvariant. simpl. repeat split; auto; discriminate.
Qed.

Lemma step_messageCount (b : OSCBridge) (c : call) :
  (messageCount b <= messageCount (fst (step b c)))%Z.
Proof.
  destruct c as [| |now param v|now perf| |]; simpl; try lia.
  - unfold connect. destruct (BridgeState_eqb _ _); simpl; [lia|].
    destruct (invalidTarget _); simpl; lia.
  - unfold send. destruct (negb _); simpl; [lia|].
    destruct (formatMessage _ _ _); simpl; lia.
  - unfold sendBundle. destruct (negb _); simpl; [lia|].
    destruct (formatBundle _ _ _); simpl; lia.
Qed.

(** X17: the cumulative message counter never decreases, whatever the
    calls ([disconnect] empties the log but keeps the counter). *)
Theorem messageCount_monotone (b : OSCBridge) (calls : list call) :
  (messageCount b <= messageCount (run b calls))%Z
  /\ messageCount (fst (disconnect b)) = messageCount b
  /\ messageLog (fst (disconnect b)) = [].
Proof.
  split; [|split; reflexivity].
  revert b. induction calls as [|c cs IH]; intros b; simpl; [lia|].
  apply Z.le_trans with (2 := IH _). apply step_messageCount.
Qed.

(** *** getRecentMessages *)

(** X18: [getRecentMessages(count)] returns a suffix of the log; for a
    positive [count] (10 when [count] is omitted or 0) it is the last
    [min(count, length)] messages, oldest first. *)
Theorem getRecentMessages_suffix (b : OSCBridge) (count : option Z) :
  (exists older, messageLog b = (older ++ getRecentMessages b count)%list)
  /\ ((0 < orTen count)%Z ->
      Z.of_nat (List.length (getRecentMessages b count))
      = Z.min (orTen count) (Z.of_nat (List.length (messageLog b)))).
Proof.
  unfold getRecentMessages. fold (orTen count). cbv zeta. split.
  - eexists. symmetry. apply firstn_skipn.
  - intros Hpos. rewrite length_skipn.
    destruct (Z.ltb_spec (orTen count) 0); lia.
Qed.

(** X19: a [send] on a [CONNECTED] bridge whose prefix starts with a
    slash, with a number, string or boolean, returns the message addressed
    [prefix/param], adds one to the counter and appends the message to the
    log, so that [getRecentMessages(1)] is exactly that message; a [send]
    on a bridge that is not [CONNECTED] returns null and changes
    nothing. *)
Theorem send_then_recent (now : Z) (b : OSCBridge) (param : string)
    (v : value) :
  (state b = CONNECTED -> startsWithSlash (prefix b) = true ->
   v <> VOther ->
   exists msg b',
     send now b param v = Ok (Some msg, b')
     /\ address msg = prefix b ++ "/" ++ param
     /\ messageCount b' = (messageCount b + 1)%Z
     /\ messageLog b' = (messageLog b ++ [msg])%list
     /\ getRecentMessages b' (Some 1%Z) = [msg]
     /\ state b' = CONNECTED)
  /\ (state b <> CONNECTED -> send now b param v = Ok (None, b)).
Proof.
  unfold send. split.
  - intros Hc Hpre Hv.
    destruct (formatMessage_accepts now (prefix b ++ "/" ++ param) v
                (startsWithSlash_app _ _ Hpre) Hv)
      as (m & -> & Ha).
    rewrite Hc. simpl.
    eexists. eexists. split; [reflexivity|]. simpl.
    repeat split; auto.
    unfold getRecentMessages. simpl.
    rewrite length_app. simpl List.length.
    replace (Z.to_nat _) with (List.length (messageLog b)) by lia.
    rewrite skipn_app, skipn_all, Nat.sub_diag. reflexivity.
  - intros Hn. destruct (BridgeState_eqb (state b) CONNECTED) eqn:E;
      [apply BridgeState_eqb_eq in E; contradiction | reflexivity].
Qed.

End OscBridgeExtra.

(** ** Consensus engine: the input table, pruning, overrides, smoothing *)

Module ConsensusExtra.
Import Consensus ConsensusFacts.
Local Open Scope string_scope.
Local Open Scope R_scope.

(** *** Objects and maps *)

Section MoreObjects.
Context {A : Type}.

Lemma keys_set_In (k x : string) (v : A) (o : obj A) :
  In x (keys (set k v o)) <-> x = k \/ In x (keys o).
Proof.
  induction o as [|[k' v'] o IH]; simpl.
  - intuition.
  - destruct (String.eqb_spec k k') as [->|Hne]; simpl.
    + intuition.
    + rewrite IH. intuition.
Qed.

Lemma NoDup_keys_set (k : string) (v : A) (o : obj A) :
  NoDup (keys o) -> NoDup (keys (set k v o)).
Proof.
  induction o as [|[k' v'] o IH]; simpl; intros Hnd.
  - repeat constructor. auto.
  - inversion Hnd as [|? ? Hnot Hnd']; subst.
    destruct (String.eqb_spec k k') as [->|Hne]; simpl.
    + now constructor.
    + constructor; [|now apply IH].
      rewrite keys_set_In. intros [E | Hin]; [congruence | contradiction].
Qed.

Lemma keys_remove_In (k x : string) (o : obj A) :
  In x (keys (remove k o)) -> In x (keys o).
Proof.
  induction o as [|[k' v'] o IH]; simpl; [tauto|].
  destruct (String.eqb k k'); simpl; intuition.
Qed.

Lemma NoDup_keys_remove (k : string) (o : obj A) :
  NoDup (keys o) -> NoDup (keys (remove k o)).
Proof.
  induction o as [|[k' v'] o IH]; simpl; intros Hnd; [constructor|].
  inversion Hnd as [|? ? Hnot Hnd']; subst.
  destruct (String.eqb k k'); simpl; [assumption|].
  constructor; [|now apply IH]. intros Hin. now apply keys_remove_In in Hin.
Qed.

Lemma NoDup_keys_filter (f : string * A -> bool) (o : obj A) :
  NoDup (keys o) -> NoDup (keys (filter f o)).
Proof.
  induction o as [|[k' v'] o IH]; simpl; intros Hnd; [constructor|].
  inversion Hnd as [|? ? Hnot Hnd']; subst.
  destruct (f (k', v')); simpl; [|now apply IH].
  constructor; [|now apply IH]. intros Hin. apply Hnot.
  unfold keys in *. apply in_map_iff in Hin.
  destruct Hin as ([k2 v2] & Hk & Hin2). apply filter_In in Hin2.
  apply in_map_iff. exists (k2, v2). tauto.
Qed.

Lemma Forall_set (P : string * A -> Prop) (k : string) (v : A) (o : obj A) :
  P (k, v) -> Forall P o -> Forall P (set k v o).
Proof.
  intros Hv. induction o as [|[k' v'] o IH]; simpl; intros Ho.
  - now repeat constructor.
  - inversion Ho; subst. destruct (String.eqb k k'); constructor; auto.
Qed.

Lemma Forall_remove (P : string * A -> Prop) (k : string) (o : obj A) :
  Forall P o -> Forall P (remove k o).
Proof.
  induction o as [|[k' v'] o IH]; simpl; intros Ho; [constructor|].
  inversion Ho; subst. destruct (String.eqb k k'); [assumption|].
  constructor; auto.
Qed.

Lemma get_None_keys (k : string) (o : obj A) :
  get k o = None <-> ~ In k (keys o).
Proof.
  induction o as [|[k' v'] o IH]; simpl.
  - tauto.
  - destruct (String.eqb_spec k k') as [->|Hne].
    + split; [discriminate | intros H; exfalso; apply H; now left].
    + rewrite IH. intuition congruence.
Qed.

Lemma get_remove_same (k : string) (o : obj A) :
  NoDup (keys o) -> get k (remove k o) = None.
Proof.
  induction o as [|[k' v'] o IH]; simpl; intros Hnd; [reflexivity|].
  inversion Hnd as [|? ? Hnot Hnd']; subst.
  destruct (String.eqb_spec k k') as [->|Hne].
  - now apply get_None_keys.
  - simpl. destruct (String.eqb_spec k k'); [contradiction | now apply IH].
Qed.

Lemma get_remove_other (k k' : string) (o : obj A) :
  k <> k' -> get k (remove k' o) = get k o.
Proof.
  intros Hne. induction o as [|[k2 v2] o IH]; simpl; [reflexivity|].
  destruct (String.eqb_spec k' k2) as [->|Hne2].
  - destruct (String.eqb_spec k k2); [contradiction | reflexivity].
  - simpl. now rewrite IH.
Qed.

Lemma remove_set_absent (k : string) (v : A) (o : obj A) :
  get k o = None -> remove k (set k v o) = o.
Proof.
  induction o as [|[k' v'] o IH]; simpl.
  - now rewrite String.eqb_refl.
  - destruct (String.eqb_spec k k') as [->|Hne]; [discriminate|].
    intros H. simpl.
    destruct (String.eqb_spec k k'); [contradiction|]. now rewrite IH.
Qed.

Lemma length_set (k : string) (v : A) (o : obj A) :
  List.length (set k v o)
  = match get k o with
    | Some _ => List.length o
    | None => S (List.length o)
    end.
Proof.
  induction o as [|[k' v'] o IH]; simpl; [reflexivity|].
  destruct (String.eqb k k'); simpl; [reflexivity|].
  rewrite IH. now destruct (get k o).
Qed.

Lemma length_remove (k : string) (o : obj A) :
  List.length o
  = match get k o with
    | Some _ => S (List.length (remove k o))
    | None => List.length (remove k o)
    end.
Proof.
  induction o as [|[k' v'] o IH]; simpl; [reflexivity|].
  destruct (String.eqb k k'); simpl; [reflexivity|].
  rewrite IH. now destruct (get k o).
Qed.

Lemma fold_set_absent (v : A) (p : string) (ps : list string) :
  ~ In p ps ->
  forall o, get p (fold_left (fun st q => set q v st) ps o) = get p o.
Proof.
  induction ps as [|a ps IH]; intros Hnot o; simpl; [reflexivity|].
  simpl in Hnot. rewrite IH by tauto. apply get_set_other. intuition.
Qed.

Lemma fold_set_present (v : A) (p : string) (ps : list string) :
  In p ps ->
  forall o, get p (fold_left (fun st q => set q v st) ps o) = Some v.
Proof.
  induction ps as [|a ps IH]; intros Hin o; simpl; [contradiction|].
  destruct (in_dec string_dec p ps) as [Hps|Hps]; [now apply IH|].
  destruct Hin as [->|Hin]; [|contradiction].
  rewrite fold_set_absent by assumption. apply get_set_same.
Qed.

End MoreObjects.

(** *** recordInput and removeInput *)

(** X20: a [recordInput] with a non-empty participant id and a mapping
    stores the payload under that id with its timestamp (the clock reading
    when the timestamp is omitted or 0), replacing what the participant had
    recorded: the entries of the other participants, the state and the
    overrides are untouched, and the number of entries grows by one exactly
    when the participant had no entry. *)
Theorem recordInput_latest_wins (e : Engine) (clock : Z) (u : string)
    (o : obj R) (ts : option Z) :
  u <> "" ->
  get u (inputs (recordInput e clock (Some u) (VObject o) ts))
  = Some (mkInput (orClock clock ts) (VObject o))
  /\ (forall u', u' <> u ->
                 get u' (inputs (recordInput e clock (Some u) (VObject o) ts))
                 = get u' (inputs e))
  /\ getInputCount (recordInput e clock (Some u) (VObject o) ts)
     = match get u (inputs e) with
       | Some _ => getInputCount e
       | None => S (getInputCount e)
       end
  /\ state (recordInput e clock (Some u) (VObject o) ts) = state e
  /\ overrides (recordInput e clock (Some u) (VObject o) ts) = overrides e.
Proof.
  intros Hu. unfold recordInput, falsyId, getInputCount.
  apply String.eqb_neq in Hu. rewrite Hu. simpl.
  split; [apply get_set_same|]. split; [|split; [apply length_set | auto]].
  intros u' Hne. now apply get_set_other.
Qed.

Lemma recordInput_latest_wins_witness :
  "u1" <> ""
  /\ get "u1" (inputs (recordInput oneInput 50 (Some "u1")
                                   (VObject [("tempo", 3 / 10)]) None))
     = Some (mkInput (orClock 50 None) (VObject [("tempo", 3 / 10)]))
  /\ (forall u', u' <> "u1" ->
                 get u' (inputs (recordInput oneInput 50 (Some "u1")
                                             (VObject [("tempo", 3 / 10)])
                                             None))
                 = get u' (inputs oneInput))
  /\ getInputCount (recordInput oneInput 50 (Some "u1")
                                (VObject [("tempo", 3 / 10)]) None)
     = match get "u1" (inputs oneInput) with
       | Some _ => getInputCount oneInput
       | None => S (getInputCount oneInput)
       end
  /\ state (recordInput oneInput 50 (Some "u1")
                        (VObject [("tempo", 3 / 10)]) None)
     = state oneInput
  /\ overrides (recordInput oneInput 50 (Some "u1")
                            (VObject [("tempo", 3 / 10)]) None)
     = overrides oneInput.
Proof.
  split; [discriminate|].
  apply (recordInput_latest_wins oneInput 50 "u1"). discriminate.
Defined.

(** X21: on a table with one entry per participant, [removeInput]
    deletes the participant's entry and no other: afterwards the
    participant has no entry, every other participant's entry is as before,
    and the number of entries has dropped by one exactly when the
    participant had an entry; recording a new participant and removing it
    again restores the table. *)
Theorem removeInput_deletes (e : Engine) (u : string) :
  NoDup (keys (inputs e)) ->
  get u (inputs (removeInput e u)) = None
  /\ (forall u', u' <> u ->
                 get u' (inputs (removeInput e u)) = get u' (inputs e))
  /\ getInputCount e
     = match get u (inputs e) with
       | Some _ => S (getInputCount (removeInput e u))
       | None => getInputCount (removeInput e u)
       end
  /\ (forall clock o ts,
         u <> "" -> get u (inputs e) = None ->
         inputs (removeInput (recordInput e clock (Some u) (VObject o) ts) u)
         = inputs e).
Proof.
  intros Hnd. unfold removeInput, getInputCount. simpl.
  split; [now apply get_remove_same|]. split; [|split].
  - intros u' Hne. now apply get_remove_other.
  - apply length_remove.
  - intros clock o ts Hu Habs. unfold recordInput, falsyId.
    apply String.eqb_neq in Hu. rewrite Hu. simpl.
    now apply remove_set_absent.
Qed.

Lemma removeInput_deletes_witness :
  NoDup (keys (inputs oneInput))
  /\ get "u1" (inputs (removeInput oneInput "u1")) = None
  /\ (forall u', u' <> "u1" ->
                 get u' (inputs (removeInput oneInput "u1"))
                 = get u' (inputs oneInput))
  /\ getInputCount oneInput
     = match get "u1" (inputs oneInput) with
       | Some _ => S (getInputCount (removeInput oneInput "u1"))
       | None => getInputCount (removeInput oneInput "u1")
       end
  /\ (forall clock o ts,
         "u1" <> "" -> get "u1" (inputs oneInput) = None ->
         inputs (removeInput (recordInput oneInput clock (Some "u1")
                                          (VObject o) ts) "u1")
         = inputs oneInput).
Proof.
  split; [repeat constructor; simpl; tauto|].
  apply (removeInput_deletes oneInput "u1").
  repeat constructor; simpl; tauto.
Defined.

(** *** What every reachable engine satisfies *)

Lemma applyEntry_definedFor (e : Engine) (params : list string)
    (st : obj num) (entry : string * num) :
  definedFor params st -> definedFor params (applyEntry e st entry).
Proof.
  destruct entry as [param value]. intros Hst.
  unfold applyEntry. destruct (truthy _ && notNull _); [assumption|].
  intros p Hp. destruct (String.eqb_spec p param) as [->|Hne].
  - rewrite get_set_same. eauto.
  - rewrite get_set_other by assumption. now apply Hst.
Qed.

Lemma fold_applyEntry_definedFor (e : Engine) (params : list string)
    (c : obj num) :
  forall st, definedFor params st ->
             definedFor params (fold_left (applyEntry e) c st).
Proof.
  induction c as [|entry c IH]; intros st Hst; cbn [fold_left];
    [assumption|].
  now apply IH, applyEntry_definedFor.
Qed.

Lemma set_definedFor (params : list string) (k : string) (v : num)
    (st : obj num) :
  definedFor params st -> definedFor params (set k v st).
Proof.
  intros Hst p Hp. destruct (String.eqb_spec p k) as [->|Hne].
  - rewrite get_set_same. eauto.
  - rewrite get_set_other by assumption. now apply Hst.
Qed.

Lemma step_engineInvariant (cfg : Config) (e : Engine) (c : call) :
  engineInvariant cfg e -> engineInvariant cfg (step e c).
Proof.
  intros (Hcfg & Hnd & Hst & Hin). unfold engineInvariant.
  destruct c as [pl|u|clock now|clock now|param value| |]; simpl.
  - unfold record, recordInput.
    destruct (falsyId (pUser pl)) eqn:Hf; simpl; [tauto|].
    destruct (String.eqb (typeof (pValues pl)) "object") eqn:Ht; simpl;
      [|tauto].
    destruct (pUser pl) as [u|]; [|tauto]. simpl.
    repeat split; auto.
    + now apply NoDup_keys_set.
    + apply Forall_set; [|assumption]. simpl. split.
      * intros E. subst u. discriminate Hf.
      * now apply String.eqb_eq.
  - repeat split; auto.
    + now apply NoDup_keys_remove.
    + now apply Forall_remove.
  - repeat split; auto.
    + now apply NoDup_keys_filter.
    + apply Forall_forall. intros en Hen. apply filter_In in Hen.
      rewrite Forall_forall in Hin. now apply Hin.
  - unfold tick.
    destruct (calculateConsensus e clock now) as [[res|]|] eqn:Hc; simpl;
      try tauto.
    repeat split; auto. now apply fold_applyEntry_definedFor.
  - unfold setOverride. destruct (negb _); [tauto|].
    destruct value as [v|]; simpl; repeat split; auto.
    now apply set_definedFor.
  - repeat split; auto.
  - repeat split; auto; try constructor.
    intros p Hp. simpl. eexists. now apply fold_set_present.
Qed.

Lemma new_engineInvariant (cfg : Config) : engineInvariant cfg (new cfg).
Proof.
  unfold engineInvariant, new. simpl. repeat split; try constructor.
  intros p Hp. eexists. now apply fold_set_present.
Qed.

(** X22: on every engine obtained from a new one by recording and
    removing inputs, pruning, ticks of the driver, overrides and resets,
    the configuration is the one given to the constructor, the input table
    holds at most one entry per participant, every entry has a non-empty
    participant id and a [values] whose [typeof] is ["object"], and the
    state has an entry for every recognized parameter. *)
Theorem engine_invariant (cfg : Config) (calls : list call) :
  config (run (new cfg) calls) = cfg
  /\ NoDup (keys (inputs (run (new cfg) calls)))
  /\ (forall p, In p (PARAMETERS cfg) ->
                exists v, get p (state (run (new cfg) calls)) = Some v)
  /\ Forall (fun en => fst en <> ""
                       /\ typeof (values (snd en)) = "object")
            (inputs (run (new cfg) calls)).
Proof.
  assert (H : engineInvariant cfg (run (new cfg) calls)).
  { unfold run. generalize (new_engineInvariant cfg).
    generalize (new cfg).
    induction calls as [|c cs IH]; intros e He; simpl; [assumption|].
    apply IH, step_engineInvariant, He. }
  destruct H as (Hcfg & Hnd & Hst & Hin). unfold definedFor in Hst.
  rewrite Hcfg in Hst. auto.
Qed.

(** *** pruneOldInputs *)

Lemma filter_split_length {A : Type} (f : A -> bool) (l : list A) :
  (List.length (filter f l) + List.length (filter (fun x => negb (f x)) l)
   = List.length l)%nat.
Proof.
  induction l as [|x l IH]; simpl; [reflexivity|].
  destruct (f x); simpl; lia.
Qed.

Lemma qualifyingIn_pruned (e : Engine) (t : Z) (param : string)
    (o : obj Input) :
  (0 <= INPUT_DECAY_WINDOW_MS (config e))%Z ->
  qualifyingIn e t param
    (map snd
       (filter (fun en =>
                  negb (t - timestamp (snd en)
                        >? INPUT_DECAY_WINDOW_MS (config e) * 2)%Z) o))
  = qualifyingIn e t param (map snd o).
Proof.
  intros Hw. unfold qualifyingIn.
  induction o as [|[u input] o IH]; [reflexivity|].
  cbn [filter snd].
  destruct (Z.gtb_spec (t - timestamp input)
                       (INPUT_DECAY_WINDOW_MS (config e) * 2)) as [Hold|_];
    cbn [negb map flat_map snd]; [|now rewrite IH].
  rewrite IH. destruct (defines input param); [|reflexivity].
  unfold age.
  destruct (Z.leb_spec (t - timestamp input)
                       (INPUT_DECAY_WINDOW_MS (config e)));
    [lia | reflexivity].
Qed.

Lemma forEachParam_ext (e1 e2 : Engine) (now : Z) (l1 l2 : list Input)
    (params : list string) :
  (forall p acc,
      forEachInput e1 now p acc l1 = forEachInput e2 now p acc l2) ->
  forall res,
    forEachParam e1 now l1 res params = forEachParam e2 now l2 res params.
Proof.
  intros Hext. induction params as [|param rest IH]; intros res; simpl;
    [reflexivity|].
  rewrite Hext. destruct (forEachInput e2 now param _ l2) as [[ws tw]|];
    [apply IH | reflexivity].
Qed.

Lemma forEachParam_no_input (e : Engine) (now : Z) (params : list string) :
  forall res, forEachParam e now [] res params = Ok res.
Proof.
  induction params as [|param rest IH]; intros res;
    cbn [forEachParam forEachInput]; [reflexivity|].
  rewrite ngt_zero_zero. apply IH.
Qed.

(** X23: [pruneOldInputs] returns the number of entries it deletes; it
    deletes exactly the entries older than twice the decay window
    (measured from [now], or from the clock when [now] is omitted or 0);
    and, the window being non-negative and every stored [values] a mapping,
    pruning never changes what [calculateConsensus] returns at the same
    instant. *)
Theorem pruneOldInputs_keeps_consensus (e : Engine) (clock : Z)
    (now : option Z) :
  (snd (pruneOldInputs e clock now)
   + getInputCount (fst (pruneOldInputs e clock now))
   = getInputCount e)%nat
  /\ (forall en,
         In en (inputs (fst (pruneOldInputs e clock now))) <->
         In en (inputs e)
         /\ (age (orClock clock now) (snd en)
             <= INPUT_DECAY_WINDOW_MS (config e) * 2)%Z)
  /\ ((0 <= INPUT_DECAY_WINDOW_MS (config e))%Z -> tableOk e ->
      calculateConsensus (fst (pruneOldInputs e clock now)) clock now
      = calculateConsensus e clock now).
Proof.
  unfold pruneOldInputs, getInputCount. cbn [fst snd inputs]. split; [|split].
  - apply filter_split_length.
  - intros en. rewrite filter_In. unfold age.
    destruct (Z.gtb_spec (orClock clock now - timestamp (snd en))
                         (INPUT_DECAY_WINDOW_MS (config e) * 2));
      simpl; intuition (try lia; try discriminate).
  - intros Hw Htab.
    set (t := orClock clock now).
    set (kept := filter _ (inputs e)).
    set (e' := mkEngine (config e) kept (state e) (overrides e)).
    assert (Htab' : tableOk e').
    { unfold tableOk, e', kept in *. simpl. rewrite Forall_forall in *.
      intros en Hen. apply filter_In in Hen. now apply Htab. }
    assert (Hext : forall p acc,
               forEachInput e' t p acc (map snd kept)
               = forEachInput e t p acc (map snd (inputs e))).
    { intros p acc.
      rewrite (forEachInput_sums e' t p _ (tableOk_inputList e' Htab')).
      rewrite (forEachInput_sums e t p _ (tableOk_inputList e Htab)).
      change (inputs e') with kept. unfold kept.
      change (qualifyingIn e' t p) with (qualifyingIn e t p).
      rewrite (qualifyingIn_pruned e t p (inputs e) Hw). reflexivity. }
    unfold calculateConsensus. fold t. change (inputs e') with kept.
    change (PARAMETERS (config e')) with (PARAMETERS (config e)).
    rewrite (forEachParam_ext e' e t _ _ _ Hext).
    destruct (inputs e) as [|en rest] eqn:Hin; [reflexivity|].
    destruct (List.length (map snd kept) =? 0)%nat eqn:Hlen;
      [|reflexivity].
    apply Nat.eqb_eq in Hlen. rewrite length_map in Hlen.
    apply length_zero_iff_nil in Hlen.
    rewrite <- (forEachParam_ext e' e t (map snd kept) _ _ Hext).
    rewrite Hlen. cbn [map]. rewrite forEachParam_no_input. reflexivity.
Qed.

(** *** clearOverrides and reset *)

Lemma clearOverrides_active (e : Engine) :
  truthy (get "active" (overrides (clearOverrides e))) = false.
Proof.
  unfold clearOverrides. cbn [overrides].
  destruct (in_dec string_dec "active" (PARAMETERS (config e))) as [H|H].
  - now rewrite (fold_set_present ONull "active" _ H).
  - rewrite (fold_set_absent ONull "active" _ H). now rewrite get_set_same.
Qed.

(** X24: [clearOverrides] leaves the state and the input table as they
    are, sets the override of every recognized parameter to null and the
    [active] flag to a falsy value; from then on [applyConsensus] moves
    every parameter of a consensus: each [p] of the consensus ends at
    [state[p] + (value - state[p]) * alpha]. *)
Theorem clearOverrides_frees (e : Engine) :
  state (clearOverrides e) = state e
  /\ inputs (clearOverrides e) = inputs e
  /\ (forall p, In p (PARAMETERS (config e)) ->
                get p (overrides (clearOverrides e)) = Some ONull)
  /\ truthy (get "active" (overrides (clearOverrides e))) = false
  /\ (forall c p v,
         NoDup (keys c) -> get p c = Some v ->
         get p (state (fst (applyConsensus (clearOverrides e) (Some c))))
         = Some (nadd (toNumber (get p (state e)))
                      (nmul (nsub v (toNumber (get p (state e))))
                            (Real (CONSENSUS_SMOOTHING (config e)))))).
Proof.
  split; [reflexivity|]. split; [reflexivity|]. split; [|split].
  - intros p Hp. unfold clearOverrides. cbn [overrides].
    now apply fold_set_present.
  - apply clearOverrides_active.
  - intros c p v Hnd Hget.
    apply (fold_applyEntry_moves (clearOverrides e) p v c); auto.
    now rewrite clearOverrides_active.
Qed.

(** X25: after [reset] the input table is empty, every recognized
    parameter is at 0.5 with a null override, the [active] flag is falsy,
    the configuration is unchanged, and [calculateConsensus] returns
    null. *)
Theorem reset_restores (e : Engine) (clock : Z) (now : option Z) :
  inputs (reset e) = []
  /\ getInputCount (reset e) = 0%nat
  /\ config (reset e) = config e
  /\ (forall p, In p (PARAMETERS (config e)) ->
                get p (state (reset e)) = Some (Real (5 / 10))
                /\ get p (overrides (reset e)) = Some ONull)
  /\ truthy (get "active" (overrides (reset e))) = false
  /\ calculateConsensus (reset e) clock now = Ok None.
Proof.
  repeat split.
  - unfold reset. simpl. now apply fold_set_present.
  - unfold reset, clearOverrides. cbn [overrides config].
    now apply fold_set_present.
  - unfold reset. apply clearOverrides_active.
Qed.

(** *** setOverride *)

(** X26: [setOverride] with an unrecognized parameter changes nothing.
    For a recognized parameter [p] other than ["active"], setting a value
    and then setting null leaves [state[p]] at the value (the state is not
    reverted) and leaves the [active] flag true, yet [p] is free again:
    [applyConsensus] moves it toward the consensus. *)
Theorem setOverride_then_null (e : Engine) (p : string) (v : R) :
  (~ In p (PARAMETERS (config e)) -> forall value,
      setOverride e p value = e)
  /\ (In p (PARAMETERS (config e)) -> p <> "active" ->
      get p (state (setOverride (setOverride e p (Some v)) p None))
      = Some (Real v)
      /\ truthy (get "active"
                     (overrides
                        (setOverride (setOverride e p (Some v)) p None)))
         = true
      /\ (forall c x,
             NoDup (keys c) -> get p c = Some x ->
             get p (state (fst (applyConsensus
                                  (setOverride (setOverride e p (Some v))
                                               p None)
                                  (Some c))))
             = Some (nadd (Real v)
                          (nmul (nsub x (Real v))
                                (Real (CONSENSUS_SMOOTHING (config e))))))).
Proof.
  split.
  - intros Hnot value. unfold setOverride.
    destruct (includes p (PARAMETERS (config e))) eqn:Hi;
      [apply includes_In in Hi; contradiction | reflexivity].
  - intros Hin Hne. apply includes_In in Hin.
    assert (E : setOverride (setOverride e p (Some v)) p None
                = mkEngine (config e) (inputs e)
                           (set p (Real v) (state e))
                           (set p ONull
                                (set "active" (OBool true)
                                     (set p (ONum v) (overrides e))))).
    { unfold setOverride. rewrite Hin. simpl. now rewrite Hin. }
    rewrite E. cbn [state overrides config].
    assert (Hact : truthy (get "active"
                     (set p ONull
                          (set "active" (OBool true)
                               (set p (ONum v) (overrides e))))) = true).
    { rewrite get_set_other by congruence. now rewrite get_set_same. }
    split; [apply get_set_same|]. split; [exact Hact|].
    intros c x Hnd Hget. cbn [applyConsensus fst state].
    rewrite (fold_applyEntry_moves _ p x c); auto.
    + cbn [state config]. now rewrite get_set_same.
    + cbn [overrides]. rewrite Hact, get_set_same. reflexivity.
Qed.

End ConsensusExtra.
